(* ===== verification/_CoqProject ===== *)
-Q . S2P
Prelude.v
F64.v
Model.v
Storage.v
Aggregator.v
Broadcast.v
Decode.v
Json.v
Connector.v
Server.v
Schedule.v
Client.v
