(* ===== verification/Prelude.v ===== *)
(** * Universal orderbook streamer: a verification development

    The program (repository [src/]) streams order books of one instrument from
    two exchanges and publishes a merged top-of-book summary over gRPC:

    - the data streamer ([data-streamer/src/lib.rs]): [Subscriptions::init]
      creates a [tokio::sync::broadcast] channel of capacity 16 and spawns one
      connector per exchange, [consume_binance] and [consume_bitstamp].  Each
      connects with [connect_async(..).expect(..)], decodes every text frame
      into the exchange's book ([exchanges/*/model.rs], serde with
      [de_float_from_str]/[de_usize_from_str] of [model.rs]), converts it with
      [From] into the canonical [OrderBook] and sends it on the channel; it
      answers pings, and on disconnect sleeps [sleep] ms and doubles the [u64]
      [sleep], reset to 100 by successful events;
    - the server ([server/src/main.rs], [server/src/lib.rs]): one loop
      [while let Ok(orderbook) = streams.stream.recv().await] stores each
      snapshot in [OrderbookStorage] (a [HashMap<Exchange, OrderBook>]) with
      [update], computes [merge] (tag levels with the exchange, sort with
      [sort_unstable_by_key] by [FloatOrd] keys, truncate to 10, spread =
      [merged_asks[0].price - merged_bids[0].price]) and sends the [Summary] on
      a second broadcast channel of capacity 16;
      [OrderbookAggregatorService::book_summary] subscribes a client to that
      channel and spawns a forwarding task that pushes each summary into an
      [mpsc] channel of 16 until [recv] fails or the client is gone.

    ** Files, in dependency order

    - [Prelude]: the [outcome] type (a computation that returns or panics,
      with stdpp's monad notation), the lexicographic [key_le] order on pairs
      of [Z] and its instances, generic lemmas on sorted lists, [rtc]
      invariants, [shuffle] (an interleaving of any number of senders) and
      the filter lemma that recovers one sender's sequence from it; hint
      databases [ob] and [ob_simpl].
    - [F64]: an [f64] is its 64-bit pattern ([Z] in [0, 2^64)); negation
      flips the sign bit; [float_ord_key] is the key of [float-ord]'s
      [FloatOrd]; [f64_sub] decodes to Stdlib's [spec_float], subtracts
      ([SFsub] with round-to-nearest-even at precision 53) and encodes back,
      and likewise [f64_div] and [f64_mul]; [f64_partial_cmp] is
      [PartialOrd::partial_cmp] ([None] on NaN); [f64_as_u64] is the
      saturating [as u64] cast; [dec2flt] rounds a decimal [m * 10^e] once,
      to nearest-even, as [core::num::dec2flt] does, into a 64-bit pattern.
    - [Model]: [Exchange], [Instrument] and its symbol renderings,
      [OrderBookLevel], [OrderBook], the exchange-native books with their
      [From] conversions, [Level], [Summary] and [Summary::from].
    - [Storage]: [OrderbookStorage] as a [gmap] with [new], [update], [get],
      and the fold [store_all] the aggregator loop performs.
    - [Aggregator]: [merge], with [HashMap] iteration ([HashMapIter]) and
      [sort_unstable_by_key] ([SortUnstable]) as type classes stating only what
      Rust guarantees (a permutation; a sorted permutation), so every theorem
      holds for every iteration order and every unstable tie order.
    - [Broadcast]: the tokio broadcast channel, as a contract [Chan] (a log
      of sent values, receivers as positions, [Lagged]/[Closed]/[Empty]) and
      as tokio's ring buffer [Ring] ([send], [recv_ref] with slot positions),
      with a simulation of the ring against the contract over any sequence
      of sends, subscriptions and drops.
    - [Decode]: the JSON syntax tree and the derived [Deserialize] decoders
      of the Binance and Bitstamp messages, [str::parse::<usize>] and
      [str::parse::<f64>] (sign, [inf]/[nan], point, saturating exponent);
      [json_perm] relates messages that differ only in the order of object
      fields.
    - [Json]: [serde_json]'s text layer: [json_parse] ([from_str]: whitespace,
      literals, escaped strings with surrogate pairs, [u64]/[i64]/[f64]
      numbers, arrays, objects, the recursion limit 128, no trailing
      characters) on a fuel, and [json_print] ([to_string]) for the Bitstamp
      subscription.
    - [Connector]: [consume_binance]/[consume_bitstamp] as [run_connector]
      over the list of sessions the network offers: the trace of effects
      (connect, send, pong, emit, sleep) and the [u64] backoff, in debug
      (overflow panics) and release (wraps) builds.
    - [Server]: the whole running system as an inductive relation [lstep]
      labelled by the acting task ([Actor]) over a [System] record:
      connectors sending, the aggregator loop receiving and publishing,
      clients subscribing, forwarding tasks receiving and pushing into their
      bounded queues, clients reading and disconnecting; [step] forgets the
      label.  [Subscriptions::init] and [main] are modelled as the list of
      spawned connector tasks ([subscriptions_init], [connector_task]).
      [internal_step] (no connector sends, no client joins) carries the
      measure [drain_measure].
    - [Schedule]: a fair schedule of the internal tasks ([sched_step],
      [sched_run] with fuel) and the invariant that a running forwarder of a
      connected client has lost no summary ([fwd_exact]).
    - [Client]: [tui_client.rs]: the [Tui] state (two columns of ten bars and
      the spread text), [update] with its [partial_cmp().expect(..)] maximum
      and [as u64] bar positions, and the client loop [tui_run] over the
      summaries the server delivers ([tui_stream] over stream items that may
      be errors); [debug_client.rs]'s logging loop [debug_run].

    ** Theorems (by component; PROJECT.json orders them by importance)

    - storage ([Storage], [Server]): last write wins for the fold of
      updates ([storage_last_write_wins]) and in every reachable state of the
      running system ([aggregator_storage_last_write_wins]); end to end, the
      storage holds each connector's last emitted book
      ([end_to_end_latest_book], for every interleaving of the connector
      tasks that [main]'s subscriptions spawn);
    - merge ([Aggregator]): sorted sides ([merge_sorted]), [min 10 n] levels
      ([merge_depth]), the best levels kept ([merge_best_levels]), the
      spread ([merge_spread]), exactly when it panics ([merge_panics_iff]),
      independence from iteration and tie order ([merge_independent]); the
      specification's scenario is evaluated in lemmas that back findings
      ([scenario_spread_value], [merge_one_sided_panics],
      [merge_tags_depend_on_iteration]);
    - system ([Server]): published summaries well formed
      ([published_summaries_wellformed]), no replay to clients and bounded
      queues ([client_no_replay]; [fwd_start] is a ghost counting the
      summaries published when the client subscribed), a burst of more than 16 snapshots stops the
      aggregator for good ([aggregator_dies_on_burst],
      [aggregator_end_is_final]), a forwarder more than 16 summaries behind
      is cut off for good, its client getting nothing beyond its queue
      ([lagging_forwarder_cut_off]), the summary [send] never fails
      ([summary_send_never_fails]), and once the connectors stop sending and
      no client joins, every run of the remaining tasks is finite, of at most
      [drain_measure] steps ([pipeline_drains]), and a run of them reaches a
      state where every connected client whose forwarder did not lag has
      received every summary published since it subscribed
      ([pipeline_delivers], [Schedule]);
    - broadcast ([Broadcast]): no replay and exact delivery without lag
      ([subscriber_no_replay], [subscriber_no_lag_exact]), when [Lagged]
      happens ([try_recv_lagged_iff]), and tokio's ring simulates the contract
      over any sequence of operations ([ring_run_refines],
      [ring_run_try_recv]);
    - connectors ([Connector]): backoff doubling ([backoff_doubling]), a
      failed connect or an unreadable text frame ends the task
      ([connector_dies_on_connect_failure],
      [malformed_frame_kills_connector]), books stamped with their
      exchange ([connectors_stamp_exchange]), [n] failed sessions of a debug
      build double the delay and panic exactly when [n >= 58]
      ([binance_debug_backoff_overflow]), binary frames keep Bitstamp's delay
      and reset Binance's ([bitstamp_binary_keeps_backoff]); every emitted
      price and amount is a 64-bit pattern ([consume_binance_wf],
      [consume_bitstamp_wf]);
    - decoding ([Decode], [Model]): field order never matters
      ([decode_field_order]), [usize] print/parse round trip
      ([parse_usize_pretty]), the [f64] exponent saturates
      ([parse_scientific_bounds]);
      the [f64] bit codec round trip ([bits_of_sf_of_bits]) and the range of
      [dec2flt] ([dec2flt_wf]) are lemmas of [F64];
    - JSON text ([Json]): the parser never runs out of fuel
      ([json_parse_fuel]), reads back what the printer writes
      ([json_print_parse]) and accepts fewer than 128 nesting levels
      ([json_parse_depth]);
    - terminal client ([Client]): each bar shows the level of its rank and
      bars beyond the depth keep their old value ([tui_update_levels]), the
      client renders every stream a reachable system delivers when no amount
      is NaN ([tui_renders_delivered]), and rendering panics exactly when a
      side has two levels or more and a NaN amount ([tui_update_panics_iff]).

    ** Bounds and choices

    Channel capacities are the source's constants (16, and 16 for the
    [mpsc] queues); summaries keep 10 levels as [truncate(10)] does.  Every
    loop of the program is modelled by structural recursion over its input
    (the snapshots sent, the sessions offered, the events of a session), and
    the server's endless loops are the [step] relation, whose theorems hold
    for every finite run ([rtc step]).  Once input stops, every run of the
    internal tasks is finite: [drain_measure] (unread snapshots weighted by
    the number of clients, plus unread, held and queued summaries and
    connected clients) decreases at every [internal_step].  The only fuel is
    that of [Schedule.sched_run], given [drain_measure s + 1] iterations,
    which the measure shows is enough for the run to stop on its own.  [u64]
    arithmetic is kept at 64 bits with its wrap-around or panic per build
    profile, and [usize] as [u64].

    ** Not modelled

    The tonic/gRPC transport and generated protobuf code, command-line and
    logging set-up, the connection of the clients and the text they log or
    draw: the terminal drawing of [tui_client.rs] ([indicatif] progress bars and
    the [{:.8}] decimal rendering of the spread), and TLS/WebSocket
    framing (a session is the list of events it delivers).  A JSON number
    that [serde_json] reads as an [f64] keeps its literal text ([JFloat]):
    no decoder of the program accepts one, so its value is never used.
    [dec2flt] computes the exact quotient or product even for huge
    exponents, where Rust's implementation takes short-cuts with the same
    result.  Two simplifications no theorem depends on: when [merge]
    panics, the aggregation task's update receiver is not dropped
    ([agg_on_update] keeps [upd]), and the update channel is never closed
    when both connector tasks have died. *)

From stdpp Require Import base list sorting strings relations.
From Stdlib Require Import ZArith.

(** ** Scope, hint database and tactics of the development *)

Declare Scope ob_scope.
Delimit Scope ob_scope with ob.
Create HintDb ob.
Create Rewrite HintDb ob_simpl.

Ltac invc H := inversion H; subst; clear H.

(** ** Computations that may panic

    Rust code that calls [unwrap], [expect] or indexes a vector out of bounds
    aborts the running task with a panic.  Such a computation returns an
    [outcome]: [Ret a] when it returns [a], [Panic msg] when it panics.  The
    stdpp monad classes give it the [x ← m; k] notation. *)

Inductive outcome (A : Type) : Type :=
| Ret (a : A)
| Panic (msg : string).
Arguments Ret {A} a.
Arguments Panic {A} msg.

#[export] Instance outcome_ret : MRet outcome := λ A a, Ret a.
#[export] Instance outcome_bind : MBind outcome :=
  λ A B f m, match m with Ret a => f a | Panic s => Panic s end.

(** [Option::expect] / [Result::expect]: the value, or a panic with the message. *)
Definition expect {A} (o : option A) (msg : string) : outcome A :=
  match o with Some a => Ret a | None => Panic msg end.

Lemma bind_Ret {A B} (a : A) (f : A → outcome B) : (Ret a ≫= f) = f a.
Proof. done. Qed.

Lemma bind_Panic {A B} (s : string) (f : A → outcome B) : (Panic s ≫= f) = Panic s.
Proof. done. Qed.

Lemma bind_eq_Ret {A B} (m : outcome A) (f : A → outcome B) b :
  (m ≫= f) = Ret b ↔ ∃ a, m = Ret a ∧ f a = Ret b.
Proof. destruct m; simpl; naive_solver. Qed.

#[export] Hint Rewrite @bind_Ret @bind_Panic : ob_simpl.

(** ** Boolean tests on integers *)

Lemma Z_eqb_false (x y : Z) : x ≠ y → (x =? y)%Z = false.
Proof. apply Z.eqb_neq. Qed.

Lemma Z_eqb_true (x y : Z) : x = y → (x =? y)%Z = true.
Proof. apply Z.eqb_eq. Qed.

(** ** Lexicographic order of pairs of sort keys

    Rust orders a tuple [(a, b)] lexicographically.  The keys the code sorts
    by are pairs of [FloatOrd] values, each represented by its unsigned 64-bit
    key (see [F64]); [key_le] is the order [Ord] gives such a tuple. *)

Definition key_le (k1 k2 : Z * Z) : Prop :=
  (k1.1 < k2.1)%Z ∨ (k1.1 = k2.1 ∧ (k1.2 ≤ k2.2)%Z).
Infix "≤ₖ" := key_le (at level 70) : ob_scope.

#[export] Instance key_le_dec : RelDecision key_le.
Proof. intros [a b] [c d]. unfold key_le; simpl. apply _. Defined.

#[export] Instance key_le_trans : Transitive key_le.
Proof. intros [a b] [c d] [e f]; unfold key_le; simpl; lia. Qed.

#[export] Instance key_le_antisymm : AntiSymm eq key_le.
Proof. intros [a b] [c d]; unfold key_le; simpl; intros; f_equal; lia. Qed.

#[export] Instance key_le_total : Total key_le.
Proof. intros [a b] [c d]; unfold key_le; simpl; lia. Qed.

#[export] Instance key_le_refl : Reflexive key_le.
Proof. intros [a b]; unfold key_le; simpl; lia. Qed.

(** ** Generic lemmas on sorted lists *)

Section sorted_lists.
Context {A : Type} (R : relation A).

Lemma Sorted_take n (l : list A) : Sorted R l → Sorted R (take n l).
Proof.
  revert l. induction n as [|n IH]; intros [|x l] Hs; simpl; try by constructor.
  apply Sorted_inv in Hs as [Hs Hhd]. constructor; [by apply IH|].
  destruct l as [|y l], n; simpl; constructor. by apply HdRel_inv in Hhd.
Qed.

Lemma StronglySorted_take_drop `{!Transitive R} n (l : list A) x y :
  Sorted R l → x ∈ take n l → y ∈ drop n l → R x y.
Proof.
  intros Hs%Sorted_StronglySorted; [|done].
  rewrite <-(take_drop n l) in Hs.
  apply StronglySorted_app in Hs as [H _]. auto.
Qed.

Lemma Sorted_weaken_Forall (P : A → Prop) (R' : relation A) (l : list A) :
  (∀ x y, P x → P y → R x y → R' x y) → Forall P l → Sorted R l → Sorted R' l.
Proof.
  intros Himpl HP Hs. induction Hs as [|x l Hs IH Hhd]; constructor.
  - apply IH. by apply Forall_cons in HP as [].
  - destruct Hhd as [|y l' Hxy]; constructor. apply Forall_cons in HP as [? HP].
    apply Forall_cons in HP as []. auto.
Qed.

(** The first [n] elements of a sorted permutation of [l'] are the [n]
    least elements of [l']: the others come after each of them. *)
Lemma Sorted_take_least `{!Transitive R} n (l l' : list A) :
  Sorted R l → l ≡ₚ l' →
  ∃ rest, take n l ++ rest ≡ₚ l' ∧ ∀ x y, x ∈ take n l → y ∈ rest → R x y.
Proof.
  intros Hs Hp. exists (drop n l). rewrite take_drop. split; [done|].
  intros x y. by apply StronglySorted_take_drop.
Qed.
End sorted_lists.

(** Two lists sorted by a key whose order is antisymmetric, and which are
    permutations of one another, have the same sequence of keys. *)
Lemma Sorted_perm_keys {A K} (f : A → K) (RK : relation K)
    `{!Transitive RK, !AntiSymm eq RK} (l1 l2 : list A) :
  Sorted (λ x y, RK (f x) (f y)) l1 → Sorted (λ x y, RK (f x) (f y)) l2 →
  l1 ≡ₚ l2 → f <$> l1 = f <$> l2.
Proof.
  intros H1 H2 Hp. apply (Sorted_unique RK).
  - by apply (Sorted_fmap f (λ x y, RK (f x) (f y))).
  - by apply (Sorted_fmap f (λ x y, RK (f x) (f y))).
  - by rewrite Hp.
Qed.

#[export] Hint Resolve Sorted_take : ob.

(** ** Invariants of step relations *)

(** An invariant preserved by every step holds in every reachable state. *)
Lemma rtc_invariant {S} (R : relation S) (P : S → Prop) s s' :
  (∀ x y, R x y → P x → P y) → rtc R s s' → P s → P s'.
Proof. intros Hstep Hrtc. induction Hrtc; eauto. Qed.

(** ** Prefixes *)

Lemma sublist_take_le {A} (l : list A) i j : i ≤ j → take i l `sublist_of` take j l.
Proof.
  intros Hij. replace (take i l) with (take i (take j l)).
  - apply sublist_take.
  - rewrite take_take. f_equal. lia.
Qed.

(** ** Interleavings

    Several tasks sending on one channel: the channel receives a shuffle of
    their sequences, each kept in its own order. *)

Inductive shuffle {A} : list (list A) → list A → Prop :=
| shuffle_nil ls : Forall (.= []) ls → shuffle ls []
| shuffle_pick ls i x l rest :
    ls !! i = Some (x :: l) → shuffle (<[i := l]> ls) rest → shuffle ls (x :: rest).

(** Keeping the elements of one sender recovers its sequence, when no other
    sender produces such elements. *)
Lemma shuffle_filter {A} (P : A → Prop) `{∀ x, Decision (P x)} ls l k xs :
  shuffle ls l → ls !! k = Some xs → Forall P xs →
  (∀ j ys, j ≠ k → ls !! j = Some ys → Forall (λ x, ¬ P x) ys) → filter P l = xs.
Proof.
  intros Hsh. revert xs. induction Hsh as [ls Hnil|ls i x l rest Hi _ IH]; intros xs Hk HP Hothers.
  - by rewrite (Forall_lookup_1 _ _ _ _ Hnil Hk).
  - rewrite filter_cons. destruct (decide (i = k)) as [->|Hik].
    + rewrite Hi in Hk. injection Hk as <-. apply Forall_cons in HP as [Hx HP].
      rewrite decide_True by done. f_equal. apply IH; [by rewrite list_lookup_insert_eq by
        (by apply lookup_lt_Some in Hi)|done|].
      intros j ys Hj. rewrite list_lookup_insert_ne by done. by apply Hothers.
    + pose proof (Hothers i (x :: l) Hik Hi) as [Hx Hl]%Forall_cons.
      rewrite decide_False by done. apply IH; [by rewrite list_lookup_insert_ne|done|].
      intros j ys Hj. destruct (decide (i = j)) as [->|Hij].
      * rewrite list_lookup_insert_eq by (by apply lookup_lt_Some in Hi). by intros [= <-].
      * rewrite list_lookup_insert_ne by done. by apply Hothers.
Qed.
