(* ===== verification/F64.v ===== *)
(** * F64: IEEE-754 binary64 values as the Rust code handles them

    A Rust [f64] is represented by its bit pattern ([f64::to_bits]), an
    unsigned 64-bit integer kept as a [Z] in [0, 2^64).  Negation flips the
    sign bit, as [-x] does; [float_ord_key] is the total-order key of the
    [float-ord] crate's [FloatOrd] wrapper, which [server/src/lib.rs] sorts
    levels by; subtraction decodes both operands to the Standard Library's
    [spec_float], subtracts with round-to-nearest-even ([SFsub] at precision 53
    and [emax] 1024) and encodes the result back.  [dec2flt] is the value
    [str::parse::<f64>] gives a decimal [m * 10^e]: the exact quotient or
    product rounded once, and [dec2flt_wf] shows that it is always a 64-bit
    pattern (the rounding leaves at most 53 mantissa bits and an exponent in
    [[-1074, 971]]). *)

From stdpp Require Import base numbers.
From Stdlib Require Import ZArith Floats.SpecFloat.
From S2P Require Import Prelude.

Local Open Scope Z_scope.

Definition f64 := Z.

(** A bit pattern of 64 bits. *)
Definition f64_wf (b : f64) : Prop := 0 ≤ b < 2 ^ 64.

Definition sign_bit : Z := Z.shiftl 1 63.

(** [impl Neg for f64]: flip the sign bit. *)
Definition f64_neg (b : f64) : f64 := Z.lxor b sign_bit.

(** [FloatOrd::convert] of the [float-ord] crate:
    [if u & bit == 0 { u | bit } else { !u }] on the bits [u]. *)
Definition float_ord_key (b : f64) : Z :=
  if Z.land b sign_bit =? 0 then Z.lor b sign_bit else Z.lnot b mod 2 ^ 64.

(** [Ord for FloatOrd]: compare the keys. *)
Definition float_ord_le (a b : f64) : Prop := float_ord_key a ≤ float_ord_key b.

(** ** Decoding and encoding *)

Definition prec : Z := 53.
Definition emax : Z := 1024.

Definition f64_sign (b : f64) : bool := Z.testbit b 63.
Definition f64_biased_exp (b : f64) : Z := Z.land (Z.shiftr b 52) (Z.ones 11).
Definition f64_mantissa (b : f64) : Z := Z.land b (Z.ones 52).

Definition sf_of_bits (b : f64) : spec_float :=
  let s := f64_sign b in
  let e := f64_biased_exp b in
  let m := f64_mantissa b in
  if e =? 0 then
    (if m =? 0 then S754_zero s else S754_finite s (Z.to_pos m) (-1074))
  else if e =? 2047 then
    (if m =? 0 then S754_infinity s else S754_nan)
  else S754_finite s (Z.to_pos (m + 2 ^ 52)) (e - 1075).

Definition sign_part (s : bool) : Z := if s then 2 ^ 63 else 0.

(** The quiet NaN [f64::NAN] stands for every NaN result. *)
Definition canonical_nan : f64 := 2047 * 2 ^ 52 + 2 ^ 51.

Definition bits_of_sf (x : spec_float) : f64 :=
  match x with
  | S754_zero s => sign_part s
  | S754_infinity s => sign_part s + 2047 * 2 ^ 52
  | S754_nan => canonical_nan
  | S754_finite s m e =>
      sign_part s +
      (if Z.pos m <? 2 ^ 52 then Z.pos m else (e + 1075) * 2 ^ 52 + (Z.pos m - 2 ^ 52))
  end.

Definition f64_is_nan (b : f64) : bool :=
  (f64_biased_exp b =? 2047) && negb (f64_mantissa b =? 0).

(** [a - b] on [f64]. *)
Definition f64_sub (a b : f64) : f64 :=
  bits_of_sf (SFsub prec emax (sf_of_bits a) (sf_of_bits b)).

(** [m * 2^e] rounded to the nearest [f64]. *)
Definition f64_of_Z (m : Z) : f64 := bits_of_sf (binary_normalize prec emax m 0 false).

(** The value [str::parse::<f64>] gives a decimal [m * 10^e] ([m >= 0]):
    [core::num::dec2flt] rounds it once, to nearest with ties to even.  A
    power [e >= 0] makes an integer, which [binary_normalize] rounds; for
    [e < 0] the quotient [m / 10^-e] is computed with the quotient, exponent
    and location of [SFdiv]'s core and rounded by [binary_round_aux], the
    two steps of [SFdiv] itself. *)
Definition decimal_to_sf (m e : Z) : spec_float :=
  if 0 <=? e then binary_normalize prec emax (m * 10 ^ e) 0 false
  else if m =? 0 then S754_zero false
  else let '(mz, ez, lz) := SFdiv_core_binary prec emax m 0 (10 ^ (- e)) 0 in
       binary_round_aux prec emax false mz ez lz.

Definition dec2flt (m e : Z) : f64 := bits_of_sf (decimal_to_sf m e).

(** A decimal literal [m / 10^k], as the scenarios write prices. *)
Definition f64_of_decimal (m : Z) (k : nat) : f64 := dec2flt m (- Z.of_nat k).

(** [f64::INFINITY]. *)
Definition f64_infinity : f64 := 2047 * 2 ^ 52.

(** ** The sign bit *)

Lemma land_low_sign_bit lo : 0 ≤ lo < 2 ^ 63 → Z.land lo sign_bit = 0.
Proof.
  intros Hlo. apply Z.bits_inj'. intros n Hn.
  rewrite Z.land_spec, Z.bits_0. unfold sign_bit. rewrite Z.shiftl_1_l, Z.pow2_bits_eqb by lia.
  destruct (Z.eqb_spec 63 n) as [<-|]; [|by rewrite andb_false_r].
  rewrite <-(Z.mod_small lo (2 ^ 63)) by lia. rewrite Z.mod_pow2_bits_high by lia. done.
Qed.

Lemma sign_bit_val : sign_bit = 2 ^ 63.
Proof. reflexivity. Qed.

Lemma add_sign_bit lo : 0 ≤ lo < 2 ^ 63 → lo + 2 ^ 63 = Z.lxor lo sign_bit.
Proof. intros H. rewrite <-sign_bit_val. apply Z.add_nocarry_lxor, land_low_sign_bit, H. Qed.

(** Every pattern splits into its sign and its 63 low bits. *)
Lemma f64_sign_split b : f64_wf b → b = sign_part (f64_sign b) + b mod 2 ^ 63.
Proof.
  unfold f64_wf, f64_sign, sign_part. intros Hb.
  pose proof (Z.testbit_spec' b 63 ltac:(lia)) as Ht.
  destruct (Z.testbit b 63); simpl in Ht; Z.div_mod_to_equations; lia.
Qed.

Lemma f64_sign_of_split s lo :
  0 ≤ lo < 2 ^ 63 → f64_sign (sign_part s + lo) = s.
Proof.
  intros Hlo. unfold f64_sign. pose proof (Z.testbit_spec' (sign_part s + lo) 63 ltac:(lia)) as Ht.
  destruct s, (Z.testbit _ 63); simpl in *; unfold sign_part in Ht;
    Z.div_mod_to_equations; lia.
Qed.

Lemma f64_neg_split b :
  f64_wf b → f64_neg b = sign_part (negb (f64_sign b)) + b mod 2 ^ 63.
Proof.
  intros Hb. pose proof (Z.mod_pos_bound b (2 ^ 63) ltac:(lia)) as Hlo.
  unfold f64_neg. rewrite (f64_sign_split b Hb) at 1.
  destruct (f64_sign b); simpl; unfold sign_part.
  - rewrite Z.add_comm, add_sign_bit, Z.lxor_assoc, Z.lxor_nilpotent, Z.lxor_0_r by lia. lia.
  - rewrite Z.add_0_l, <-add_sign_bit by lia. lia.
Qed.

Lemma f64_neg_wf b : f64_wf b → f64_wf (f64_neg b).
Proof.
  intros Hb. rewrite f64_neg_split by done. pose proof (Z.mod_pos_bound b (2 ^ 63)).
  unfold f64_wf, sign_part. destruct (negb _); lia.
Qed.

Lemma f64_neg_involutive b : f64_neg (f64_neg b) = b.
Proof. unfold f64_neg. by rewrite Z.lxor_assoc, Z.lxor_nilpotent, Z.lxor_0_r. Qed.

(** ** The [FloatOrd] key *)

Lemma float_ord_key_split b :
  f64_wf b → float_ord_key b = if f64_sign b then 2 ^ 64 - 1 - b else b + 2 ^ 63.
Proof.
  intros Hb. pose proof (Z.mod_pos_bound b (2 ^ 63) ltac:(lia)) as Hlo.
  pose proof (f64_sign_split b Hb) as Hs. unfold float_ord_key.
  set (lo := b mod 2 ^ 63) in *.
  destruct (f64_sign b); unfold sign_part in Hs; rewrite Hs.
  - assert (Z.land (2 ^ 63 + lo) sign_bit = sign_bit) as ->.
    { rewrite Z.add_comm, add_sign_bit, Z.lxor_lor, Z.land_lor_distr_l,
        land_low_sign_bit, Z.land_diag, Z.lor_0_l by (try apply land_low_sign_bit; lia).
      done. }
    rewrite sign_bit_val. simpl. unfold Z.lnot. Z.div_mod_to_equations; lia.
  - rewrite Z.add_0_l, land_low_sign_bit by lia. simpl.
    rewrite <-Z.lxor_lor, <-add_sign_bit by (try apply land_low_sign_bit; lia). done.
Qed.

Lemma float_ord_key_range b : f64_wf b → 0 ≤ float_ord_key b < 2 ^ 64.
Proof.
  intros Hb. rewrite float_ord_key_split by done. pose proof (f64_sign_split b Hb).
  unfold f64_wf, sign_part in *. destruct (f64_sign b); Z.div_mod_to_equations; lia.
Qed.

(** [FloatOrd] distinguishes every bit pattern: its order is antisymmetric. *)
Lemma float_ord_key_inj a b :
  f64_wf a → f64_wf b → float_ord_key a = float_ord_key b → a = b.
Proof.
  intros Ha Hb. rewrite !float_ord_key_split by done.
  pose proof (f64_sign_split a Ha). pose proof (f64_sign_split b Hb).
  unfold f64_wf, sign_part in *.
  destruct (f64_sign a), (f64_sign b); Z.div_mod_to_equations; lia.
Qed.

(** Negating a value reverses its place in the [FloatOrd] order: sorting by
    [FloatOrd(-x)] ascending is sorting by [FloatOrd(x)] descending. *)
Lemma float_ord_key_neg b :
  f64_wf b → float_ord_key (f64_neg b) = 2 ^ 64 - 1 - float_ord_key b.
Proof.
  intros Hb. rewrite !float_ord_key_split by auto using f64_neg_wf.
  rewrite f64_neg_split by done. pose proof (Z.mod_pos_bound b (2 ^ 63) ltac:(lia)).
  rewrite f64_sign_of_split by lia. pose proof (f64_sign_split b Hb).
  unfold sign_part in *. destruct (f64_sign b); simpl; lia.
Qed.

Lemma float_ord_le_neg a b :
  f64_wf a → f64_wf b → float_ord_le (f64_neg a) (f64_neg b) ↔ float_ord_le b a.
Proof. intros. unfold float_ord_le. rewrite !float_ord_key_neg by done. lia. Qed.


(** ** Fields of a bit pattern, and the round trip through [spec_float] *)

Lemma f64_biased_exp_val b : f64_biased_exp b = (b / 2 ^ 52) mod 2 ^ 11.
Proof. unfold f64_biased_exp. by rewrite Z.land_ones, Z.shiftr_div_pow2 by lia. Qed.

Lemma f64_mantissa_val b : f64_mantissa b = b mod 2 ^ 52.
Proof. unfold f64_mantissa. by rewrite Z.land_ones by lia. Qed.
(** The low 63 bits are the biased exponent and the mantissa. *)
Lemma f64_fields_split b :
  b mod 2 ^ 63 = f64_biased_exp b * 2 ^ 52 + f64_mantissa b
  ∧ 0 ≤ f64_biased_exp b < 2 ^ 11 ∧ 0 ≤ f64_mantissa b < 2 ^ 52.
Proof.
  rewrite f64_biased_exp_val, f64_mantissa_val. Z.div_mod_to_equations; lia.
Qed.
(** The fields only depend on the low 63 bits. *)
Lemma f64_fields_low b :
  f64_biased_exp (b mod 2 ^ 63) = f64_biased_exp b ∧ f64_mantissa (b mod 2 ^ 63) = f64_mantissa b.
Proof.
  rewrite !f64_biased_exp_val, !f64_mantissa_val. split.
  - Z.div_mod_to_equations; lia.
  - Z.div_mod_to_equations; lia.
Qed.
Lemma f64_fields_sign s lo :
  0 ≤ lo < 2 ^ 63 →
  f64_biased_exp (sign_part s + lo) = f64_biased_exp lo ∧ f64_mantissa (sign_part s + lo) = f64_mantissa lo.
Proof.
  intros Hlo. rewrite !f64_biased_exp_val, !f64_mantissa_val. unfold sign_part.
  destruct s; split; Z.div_mod_to_equations; lia.
Qed.

(** Decoding then encoding gives the bits back, for every pattern that is not
    a NaN. *)
Theorem bits_of_sf_of_bits b :
  f64_wf b → f64_is_nan b = false → bits_of_sf (sf_of_bits b) = b.
Proof.
  intros Hb Hnan. destruct (f64_fields_split b) as (Hsplit & He & Hm).
  pose proof (f64_sign_split b Hb) as Hs. unfold f64_is_nan in Hnan.
  unfold sf_of_bits. set (e := f64_biased_exp b) in *. set (m := f64_mantissa b) in *.
  set (lo := b mod 2 ^ 63) in *. set (s := f64_sign b) in *. clearbody e m lo s.
  destruct (Z.eqb_spec e 0), (Z.eqb_spec m 0); cbn [bits_of_sf].
  - lia.
  - rewrite Z2Pos.id by lia. destruct (Z.ltb_spec m (2 ^ 52)); lia.
  - destruct (Z.eqb_spec e 2047); cbn [bits_of_sf]; [lia|].
    rewrite Z2Pos.id by lia. destruct (Z.ltb_spec (m + 2 ^ 52) (2 ^ 52)); lia.
  - destruct (Z.eqb_spec e 2047); cbn [bits_of_sf]; [discriminate|].
    rewrite Z2Pos.id by lia. destruct (Z.ltb_spec (m + 2 ^ 52) (2 ^ 52)); lia.
Qed.

(** Flipping the sign bit is IEEE negation ([SFopp]) of the decoded value. *)
Lemma sf_of_bits_neg b : f64_wf b → sf_of_bits (f64_neg b) = SFopp (sf_of_bits b).
Proof.
  intros Hb. pose proof (Z.mod_pos_bound b (2 ^ 63) ltac:(lia)) as Hlo.
  rewrite f64_neg_split by done. unfold sf_of_bits.
  rewrite f64_sign_of_split by done.
  destruct (f64_fields_sign (negb (f64_sign b)) (b mod 2 ^ 63) Hlo) as [-> ->].
  destruct (f64_fields_low b) as [-> ->].
  destruct (f64_biased_exp b =? 0), (f64_mantissa b =? 0), (f64_biased_exp b =? 2047); done.
Qed.

(** ** Division, multiplication, comparison and the cast to [u64] *)

(** [a / b] and [a * b] on [f64]. *)
Definition f64_div (a b : f64) : f64 := bits_of_sf (SFdiv prec emax (sf_of_bits a) (sf_of_bits b)).
Definition f64_mul (a b : f64) : f64 := bits_of_sf (SFmul prec emax (sf_of_bits a) (sf_of_bits b)).

(** [f64::partial_cmp]: [None] when an operand is NaN. *)
Definition f64_partial_cmp (a b : f64) : option comparison := SFcompare (sf_of_bits a) (sf_of_bits b).

(** [x as u64]: truncation toward zero, saturating at [0] and [u64::MAX];
    NaN gives [0]. *)
Definition f64_as_u64 (b : f64) : Z :=
  match sf_of_bits b with
  | S754_finite false m e =>
      Z.min (if 0 <=? e then Z.pos m * 2 ^ e else Z.pos m / 2 ^ (- e)) (2 ^ 64 - 1)
  | S754_infinity false => 2 ^ 64 - 1
  | _ => 0
  end.

Lemma sf_of_bits_not_nan b : f64_is_nan b = false → sf_of_bits b ≠ S754_nan.
Proof.
  unfold f64_is_nan, sf_of_bits. intros Hb.
  destruct (f64_biased_exp b =? 0), (f64_mantissa b =? 0) eqn:Hm, (f64_biased_exp b =? 2047) eqn:He;
    try done; by rewrite He, Hm in Hb.
Qed.

Lemma f64_partial_cmp_some a b :
  f64_is_nan a = false → f64_is_nan b = false → ∃ c, f64_partial_cmp a b = Some c.
Proof.
  intros Ha%sf_of_bits_not_nan Hb%sf_of_bits_not_nan. unfold f64_partial_cmp.
  destruct (sf_of_bits a) as [[]|[]| |[] ? ?], (sf_of_bits b) as [[]|[]| |[] ? ?];
    simpl; try congruence; by eexists.
Qed.

Lemma f64_partial_cmp_nan_l a b : f64_is_nan a = true → f64_partial_cmp a b = None.
Proof.
  unfold f64_is_nan, f64_partial_cmp, sf_of_bits. intros [He Hm]%andb_prop.
  apply negb_true_iff in Hm. rewrite Hm. apply Z.eqb_eq in He. rewrite He. done.
Qed.

Lemma f64_partial_cmp_nan_r a b : f64_is_nan b = true → f64_partial_cmp a b = None.
Proof.
  unfold f64_is_nan, f64_partial_cmp. intros [He Hm]%andb_prop.
  apply negb_true_iff in Hm. apply Z.eqb_eq in He. unfold sf_of_bits at 2. rewrite Hm, He.
  by destruct (sf_of_bits a).
Qed.

(** The cast always yields a [u64]. *)
Lemma f64_as_u64_range b : 0 ≤ f64_as_u64 b < 2 ^ 64.
Proof.
  unfold f64_as_u64. destruct (sf_of_bits b) as [|[]| |[] m e]; try lia.
  destruct (Z.leb_spec 0 e).
  - pose proof (Z.pow_nonneg 2 e ltac:(lia)). lia.
  - pose proof (Z.div_pos (Z.pos m) (2 ^ (- e)) ltac:(lia) ltac:(apply Z.pow_pos_nonneg; lia)). lia.
Qed.

(** ** Rounding returns a 64-bit pattern

    [binary_round_aux] shifts the mantissa right until it has at most
    [prec] bits and the exponent is at least [emin]; so every value the
    decimal reader produces is encoded in 64 bits. *)

Lemma digits2_pos_size p : digits2_pos p = Pos.size p.
Proof. induction p; simpl; congruence. Qed.

Lemma Zdigits2_bound m : 0 ≤ m → 0 ≤ Zdigits2 m ∧ m < 2 ^ Zdigits2 m.
Proof.
  destruct m as [|p|p]; simpl; [lia| |lia]. intros _.
  rewrite digits2_pos_size. pose proof (Pos.size_gt p) as H.
  apply Pos2Z.pos_lt_pos in H. rewrite Pos2Z.inj_pow in H. lia.
Qed.

Lemma shr_1_m x : 0 ≤ shr_m x → shr_m (shr_1 x) = shr_m x / 2.
Proof.
  destruct x as [[|[p|p|]|p] r s']; simpl; intros H; try done.
  - apply Z.div_unique with (r := 1); lia.
  - apply Z.div_unique with (r := 0); lia.
Qed.

Lemma pow2_xI p : 2 ^ Z.pos p~1 = 2 * (2 ^ Z.pos p * 2 ^ Z.pos p).
Proof.
  rewrite Pos2Z.inj_xI. replace (2 * Z.pos p + 1) with (Z.pos p + Z.pos p + 1) by lia.
  rewrite !Z.pow_add_r by lia. ring.
Qed.

Lemma pow2_xO p : 2 ^ Z.pos p~0 = 2 ^ Z.pos p * 2 ^ Z.pos p.
Proof. rewrite Pos2Z.inj_xO, <-Z.pow_add_r by lia. f_equal. lia. Qed.

Lemma iter_shr_1 p x : 0 ≤ shr_m x → shr_m (iter_pos shr_1 p x) = shr_m x / 2 ^ Z.pos p.
Proof.
  revert x. induction p as [p IH|p IH|]; intros x Hx; simpl; [| |by rewrite shr_1_m].
  all: pose proof (Z.pow_pos_nonneg 2 (Z.pos p) ltac:(lia) ltac:(lia)).
  - assert (H1 : 0 ≤ shr_m (shr_1 x)) by (rewrite shr_1_m by lia; apply Z.div_pos; lia).
    pose proof (IH _ H1) as H2.
    assert (0 ≤ shr_m (iter_pos shr_1 p (shr_1 x))) as H3 by (rewrite H2; apply Z.div_pos; lia).
    by rewrite (IH _ H3), H2, shr_1_m, pow2_xI, !Z.div_div by lia.
  - pose proof (IH _ Hx) as H2.
    assert (0 ≤ shr_m (iter_pos shr_1 p x)) as H3 by (rewrite H2; apply Z.div_pos; lia).
    by rewrite (IH _ H3), H2, pow2_xO, Z.div_div by lia.
Qed.

Lemma shr_fexp_nonneg m e l : 0 ≤ m → 0 ≤ shr_m (shr_fexp prec emax m e l).1.
Proof.
  intros Hm. unfold shr_fexp, shr.
  assert (shr_m (shr_record_of_loc m l) = m) as Hr by (destruct l as [|[]]; done).
  destruct (fexp _ _ _ - e); simpl; rewrite ?iter_shr_1, Hr; try apply Z.div_pos; lia.
Qed.

(** After the last shift the mantissa has at most 53 bits and the
    exponent is at least [emin = -1074]. *)
Lemma shr_fexp_bounds m e : 0 ≤ m →
  0 ≤ shr_m (shr_fexp prec emax m e loc_Exact).1 < 2 ^ 53 ∧ -1074 ≤ (shr_fexp prec emax m e loc_Exact).2.
Proof.
  intros Hm. destruct (Zdigits2_bound m Hm) as [Hd0 Hd].
  unfold shr_fexp, shr, fexp, emin, prec, emax.
  destruct (Z.max _ _ - e) as [|n|n] eqn:En; simpl; rewrite ?iter_shr_1 by done; simpl.
  - assert (2 ^ Zdigits2 m ≤ 2 ^ 53) by (apply Z.pow_le_mono_r; lia). lia.
  - pose proof (Z.pow_pos_nonneg 2 (Z.pos n) ltac:(lia) ltac:(lia)).
    split; [|lia]. split; [apply Z.div_pos; lia|].
    apply Z.div_lt_upper_bound; [lia|].
    enough (2 ^ Zdigits2 m ≤ 2 ^ Z.pos n * 2 ^ 53) by lia.
    rewrite <-Z.pow_add_r by lia. apply Z.pow_le_mono_r; lia.
  - assert (2 ^ Zdigits2 m ≤ 2 ^ 53) by (apply Z.pow_le_mono_r; lia). lia.
Qed.

Lemma bits_of_sf_finite_wf s m e :
  Z.pos m < 2 ^ 53 → -1074 ≤ e ≤ 971 → f64_wf (bits_of_sf (S754_finite s m e)).
Proof.
  unfold f64_wf, bits_of_sf, sign_part. intros Hm He.
  assert (2 ^ 52 = 4503599627370496) as E52 by reflexivity.
  assert (2 ^ 53 = 9007199254740992) as E53 by reflexivity.
  assert (2 ^ 63 = 9223372036854775808) as E63 by reflexivity.
  assert (2 ^ 64 = 18446744073709551616) as E64 by reflexivity.
  rewrite E52, E63, E64 in *. rewrite E53 in Hm.
  destruct s, (Z.pos m <? _) eqn:Hlt; apply Z.ltb_lt in Hlt || apply Z.ltb_ge in Hlt; lia.
Qed.

Lemma bits_of_sf_zero_wf s : f64_wf (bits_of_sf (S754_zero s)).
Proof. destruct s; cbv; split; congruence. Qed.

Lemma bits_of_sf_infinity_wf s : f64_wf (bits_of_sf (S754_infinity s)).
Proof. destruct s; cbv; split; congruence. Qed.

Lemma bits_of_sf_nan_wf : f64_wf (bits_of_sf S754_nan).
Proof. cbv; split; congruence. Qed.

#[export] Hint Resolve bits_of_sf_zero_wf bits_of_sf_infinity_wf bits_of_sf_nan_wf : ob.

Lemma binary_round_aux_wf sx mx ex lx :
  0 ≤ mx → f64_wf (bits_of_sf (binary_round_aux prec emax sx mx ex lx)).
Proof.
  intros Hm. unfold binary_round_aux.
  pose proof (shr_fexp_nonneg mx ex lx Hm) as H1.
  destruct (shr_fexp prec emax mx ex lx) as [mrs' e'].
  assert (0 ≤ round_nearest_even (shr_m mrs') (loc_of_shr_record mrs')) as H2.
  { simpl in H1. unfold round_nearest_even.
    destruct (loc_of_shr_record mrs') as [|[]]; try destruct (Z.even _); lia. }
  pose proof (shr_fexp_bounds _ e' H2) as [H3 H4].
  destruct (shr_fexp prec emax _ e' loc_Exact) as [mrs'' e'']. simpl in H3, H4.
  destruct (shr_m mrs'') as [|m|m]; auto with ob.
  destruct (Z.leb_spec e'' (emax - prec)); auto with ob.
  apply bits_of_sf_finite_wf; unfold emax, prec in *; lia.
Qed.

Lemma binary_normalize_wf m e sz : f64_wf (bits_of_sf (binary_normalize prec emax m e sz)).
Proof.
  unfold binary_normalize, binary_round.
  destruct m as [|p|p]; auto with ob; destruct (shl_align _ _ _); by apply binary_round_aux_wf.
Qed.

Lemma div_eucl_nonneg a b q r : Z.div_eucl a b = (q, r) → 0 ≤ a → 0 < b → 0 ≤ q.
Proof. intros H Ha Hb. assert (q = a / b) as -> by (unfold Z.div; by rewrite H). by apply Z.div_pos. Qed.

(** [dec2flt] returns a 64-bit pattern. *)
Lemma dec2flt_wf m e : 0 ≤ m → f64_wf (dec2flt m e).
Proof.
  intros Hm. unfold dec2flt, decimal_to_sf.
  destruct (Z.leb_spec 0 e); [apply binary_normalize_wf|].
  destruct (m =? 0); auto with ob. unfold SFdiv_core_binary.
  destruct (Z.div_eucl _ _) as [q r] eqn:Hq. apply binary_round_aux_wf.
  apply (div_eucl_nonneg _ _ _ _ Hq); [|apply Z.pow_pos_nonneg; lia].
  case_match; rewrite ?Z.shiftl_nonneg; lia.
Qed.

(** ** Witnesses on [100.0] (bits [0x4059000000000000]) *)

Definition f64_hundred : f64 := 4636737291354636288.

Lemma bits_of_sf_of_bits_witness : bits_of_sf (sf_of_bits f64_hundred) = f64_hundred.
Proof. apply bits_of_sf_of_bits; [unfold f64_wf, f64_hundred; lia|vm_compute; reflexivity]. Defined.
