(* ===== verification/Model.v ===== *)
(** * Model: the canonical data types shared by every component

    [data-streamer/src/lib.rs]: [Instrument] and its symbol renderings,
    [Exchange]; [data-streamer/src/model.rs]: [OrderBookLevel], [OrderBook];
    [exchanges/binance/model.rs] and [exchanges/bitstamp/model.rs]: the
    exchange-native books and their [From] conversions into [OrderBook];
    the protobuf messages [Level] and [Summary] the server publishes, with
    [Summary::from] of [server/src/lib.rs]. *)

From stdpp Require Import base numbers list strings countable.
From Stdlib Require Import ZArith Ascii String.
From S2P Require Import Prelude F64.

Local Open Scope Z_scope.

(** ** Exchanges *)

Inductive Exchange := Binance | Bitstamp.

#[export] Instance Exchange_eq_dec : EqDecision Exchange.
Proof. solve_decision. Defined.

#[export] Instance Exchange_countable : Countable Exchange.
Proof.
  refine (inj_countable' (λ e, match e with Binance => true | Bitstamp => false end)
            (λ b, if b then Binance else Bitstamp) _).
  by intros [].
Defined.

#[export] Instance Exchange_inhabited : Inhabited Exchange := populate Binance.

(** [ex.to_string()]: the [Display] that [Serialize_enum_str] derives. *)
Definition exchange_to_string (e : Exchange) : string :=
  match e with Binance => "Binance" | Bitstamp => "Bitstamp" end%string.

Lemma exchange_to_string_inj e1 e2 :
  exchange_to_string e1 = exchange_to_string e2 → e1 = e2.
Proof. by destruct e1, e2. Qed.

(** ** Instruments *)

Record Instrument := mkInstrument { quote : string; base : string }.

Definition get_symbol_compact (i : Instrument) : string := (base i ++ quote i)%string.
Definition get_symbol_dash (i : Instrument) : string := (base i ++ "-" ++ quote i)%string.
Definition get_symbol_slash (i : Instrument) : string := (base i ++ "/" ++ quote i)%string.

(** [str::to_lowercase] on the ASCII characters the symbols use. *)
Definition ascii_to_lower (c : ascii) : ascii :=
  let n := nat_of_ascii c in
  if (65 <=? n)%nat && (n <=? 90)%nat then ascii_of_nat (n + 32) else c.

Fixpoint to_lowercase (s : string) : string :=
  match s with
  | EmptyString => EmptyString
  | String c s' => String (ascii_to_lower c) (to_lowercase s')
  end.

Definition get_symbol_compact_usdt (i : Instrument) : string :=
  if String.eqb (to_lowercase (base i)) "usd" then (base i ++ "t" ++ quote i)%string
  else if String.eqb (to_lowercase (quote i)) "usd" then (base i ++ quote i ++ "t")%string
  else (base i ++ quote i)%string.

(** ** Order books *)

Record OrderBookLevel := mkOrderBookLevel { price : f64; amount : f64 }.

Record OrderBook := mkOrderBook {
  exchange : Exchange;
  sequence : Z;
  instrument : string;
  bids : list OrderBookLevel;
  asks : list OrderBookLevel
}.

(** [#[derive(Default)]]: the default exchange is [Binance]. *)
Definition OrderBook_default : OrderBook := mkOrderBook Binance 0 "" [] [].

Record BinanceOrderBook := mkBinanceOrderBook {
  last_update_id : Z;
  bn_bids : list OrderBookLevel;
  bn_asks : list OrderBookLevel
}.

Definition orderbook_from_binance (exchange : Exchange) (instrument : string)
    (book : BinanceOrderBook) : OrderBook :=
  mkOrderBook exchange (last_update_id book) instrument (bn_bids book) (bn_asks book).

Record BitStampOrderBook := mkBitStampOrderBook {
  timestamp : Z;
  microtimestamp : Z;
  bs_bids : list OrderBookLevel;
  bs_asks : list OrderBookLevel
}.

Record BitStampOrderBookWrapper := mkBitStampOrderBookWrapper {
  event : string;
  channel : string;
  data : BitStampOrderBook
}.

Definition orderbook_from_bitstamp (exchange : Exchange) (instrument : string)
    (book : BitStampOrderBookWrapper) : OrderBook :=
  mkOrderBook exchange (timestamp (data book)) instrument (bs_bids (data book)) (bs_asks (data book)).

(** ** The published summary (protobuf messages [Level] and [Summary]) *)

Record Level := mkLevel { level_exchange : string; level_price : f64; level_amount : f64 }.

Record Summary := mkSummary { spread : f64; summary_bids : list Level; summary_asks : list Level }.

Definition summary_from (t : f64 * list Level * list Level) : Summary :=
  let '(sp, merged_bids, merged_asks) := t in mkSummary sp merged_bids merged_asks.

(** ** Well-formed values: every price and amount is a 64-bit pattern *)

Definition level_wf (l : OrderBookLevel) : Prop := f64_wf (price l) ∧ f64_wf (amount l).
Definition orderbook_wf (ob : OrderBook) : Prop :=
  Forall level_wf (bids ob) ∧ Forall level_wf (asks ob).

#[export] Instance f64_wf_dec (b : f64) : Decision (f64_wf b).
Proof. unfold f64_wf. apply _. Defined.
#[export] Instance level_wf_dec l : Decision (level_wf l).
Proof. unfold level_wf. apply _. Defined.
#[export] Instance orderbook_wf_dec ob : Decision (orderbook_wf ob).
Proof. unfold orderbook_wf. apply _. Defined.

(** ** Symbols *)

Lemma to_lowercase_app s1 s2 : to_lowercase (s1 ++ s2) = (to_lowercase s1 ++ to_lowercase s2)%string.
Proof. induction s1 as [|c s1 IH]; simpl; [done|by rewrite IH]. Qed.

(** For a pair given in lower case, the USDT-aware symbol Binance's
    stream name is built from is in lower case as well; it inserts [t]
    after the side that reads [usd] in any case. *)
Theorem compact_usdt_lowercase i :
  to_lowercase (base i) = base i → to_lowercase (quote i) = quote i →
  to_lowercase (get_symbol_compact_usdt i) = get_symbol_compact_usdt i.
Proof.
  intros Hb Hq. unfold get_symbol_compact_usdt.
  repeat case_match; rewrite !to_lowercase_app, Hb, Hq; reflexivity.
Qed.

(** The base and quote are used as given: a pair given in upper case
    yields the mixed-case Binance symbol [BTCUSDt], and the compact symbol
    stamped on the books keeps the case too. *)
Example compact_usdt_mixed_case :
  get_symbol_compact_usdt (mkInstrument "USD" "BTC") = "BTCUSDt"%string ∧
  get_symbol_compact (mkInstrument "USD" "BTC") = "BTCUSD"%string.
Proof. split; reflexivity. Qed.
