(* ===== verification/Storage.v ===== *)
(** * Storage: [OrderbookStorage] of [server/src/lib.rs]

    The aggregator's state: a map from each exchange to the last order book
    it sent ([HashMap<Exchange, OrderBook>], here a [gmap]).  [update] replaces
    the entry wholesale; the main loop of [server/src/main.rs] calls it with
    the snapshot's own exchange for every snapshot it receives. *)

From stdpp Require Import base numbers list gmap strings.
From S2P Require Import Prelude F64 Model.

Record OrderbookStorage := mkStorage { storage_data : gmap Exchange OrderBook }.

Definition storage_new : OrderbookStorage := mkStorage ∅.

Definition storage_update (s : OrderbookStorage) (ex : Exchange) (orderbook : OrderBook)
  : OrderbookStorage := mkStorage (<[ex := orderbook]> (storage_data s)).

Definition storage_get (s : OrderbookStorage) (key : Exchange) : option OrderBook :=
  storage_data s !! key.

(** The loop body of [main.rs] line 44: [orderbook_storage.update(orderbook.exchange, orderbook)]. *)
Definition store_snapshot (s : OrderbookStorage) (ob : OrderBook) : OrderbookStorage :=
  storage_update s (exchange ob) ob.

Definition store_all (s : OrderbookStorage) (obs : list OrderBook) : OrderbookStorage :=
  foldl store_snapshot s obs.

(** The most recent snapshot of an exchange in a sequence of updates. *)
Definition last_from (e : Exchange) (obs : list OrderBook) : option OrderBook :=
  last (filter (λ ob, exchange ob = e) obs).

(** Invariant: each entry is the snapshot of the exchange it is stored under,
    and its levels are well formed. *)
Definition storage_inv (s : OrderbookStorage) : Prop :=
  map_Forall (λ e ob, exchange ob = e ∧ orderbook_wf ob) (storage_data s).

(** ** Lemmas *)

Lemma storage_get_update s ex ob e :
  storage_get (storage_update s ex ob) e = if decide (ex = e) then Some ob else storage_get s e.
Proof. unfold storage_get, storage_update; simpl. by rewrite lookup_insert. Qed.

Lemma last_from_snoc e obs ob :
  last_from e (obs ++ [ob]) = if decide (exchange ob = e) then Some ob else last_from e obs.
Proof.
  unfold last_from. rewrite filter_app, filter_cons, filter_nil.
  case_decide; [by rewrite last_snoc | by rewrite app_nil_r].
Qed.

Lemma store_all_snoc s obs ob :
  store_all s (obs ++ [ob]) = store_snapshot (store_all s obs) ob.
Proof. unfold store_all. by rewrite foldl_app. Qed.

#[export] Hint Rewrite last_from_snoc store_all_snoc : ob_simpl.

(** ** Theorems *)

(** After any sequence of updates, the entry of each exchange is its most
    recent snapshot in the sequence, or the earlier entry when it sent none. *)
Lemma store_all_get s obs e :
  storage_get (store_all s obs) e =
  match last_from e obs with Some ob => Some ob | None => storage_get s e end.
Proof.
  induction obs as [|ob obs IH] using rev_ind; [done|].
  autorewrite with ob_simpl. unfold store_snapshot.
  rewrite storage_get_update. by case_decide.
Qed.

(** C1: Starting from [OrderbookStorage::new()], the storage after N updates
    holds exactly the most recent snapshot of each exchange that sent one,
    and nothing for the others: a later snapshot replaces an earlier one
    wholesale and levels of two snapshots are never merged. *)
Theorem storage_last_write_wins obs e :
  storage_get (store_all storage_new obs) e = last_from e obs.
Proof. rewrite store_all_get. by destruct (last_from e obs). Qed.

(** Storing a well-formed snapshot under its own exchange preserves the
    storage invariant (at most one entry per exchange, keyed by its source). *)
Theorem store_snapshot_inv s ob :
  storage_inv s → orderbook_wf ob → storage_inv (store_snapshot s ob).
Proof.
  intros Hs Hob. unfold storage_inv, store_snapshot, storage_update.
  repeat case_match; simpl; by try apply map_Forall_insert_2.
Qed.

Lemma store_all_inv s obs :
  storage_inv s → Forall orderbook_wf obs → storage_inv (store_all s obs).
Proof.
  intros Hs Hobs. revert s Hs. induction Hobs as [|ob obs Hob _ IH]; intros s Hs; [done|].
  apply IH, store_snapshot_inv; done.
Qed.

Lemma storage_new_inv : storage_inv storage_new.
Proof. apply map_Forall_empty. Qed.

#[export] Hint Resolve store_snapshot_inv store_all_inv storage_new_inv : ob.

