(* ===== verification/Aggregator.v ===== *)
(** * Aggregator: [OrderbookStorage::merge] of [server/src/lib.rs]

    [merge] walks the storage map, tags every bid and ask level with its
    exchange, sorts the bids by [(FloatOrd(-price), FloatOrd(-amount))] and the
    asks by [(FloatOrd(price), FloatOrd(-amount))] with [sort_unstable_by_key],
    truncates both sides to 10 levels and computes the spread
    [merged_asks[0].price - merged_bids[0].price], which panics when a side is
    empty.

    Two things the code relies on are not fixed by the source: the iteration
    order of the [HashMap] and the order in which [sort_unstable_by_key] leaves
    levels with equal keys.  Each is an interface ([HashMapIter],
    [SortUnstable]) that states only what Rust promises; the theorems hold for
    every implementation, and [hash_iter_sorted], [merge_sort_unstable] are
    the implementations used to evaluate examples. *)

From stdpp Require Import base numbers list gmap sorting strings.
From S2P Require Import Prelude F64 Model Storage.

Local Open Scope Z_scope.
Local Open Scope ob_scope.

(** ** Interfaces *)

(** [HashMap::into_iter] visits every entry exactly once, in some order. *)
Class HashMapIter := {
  hash_iter : gmap Exchange OrderBook → list (Exchange * OrderBook);
  hash_iter_perm m : hash_iter m ≡ₚ map_to_list m
}.

(** [slice::sort_unstable_by_key]: a permutation sorted by the key. *)
Class SortUnstable := {
  sort_unstable_by_key {A : Type} : (A → Z * Z) → list A → list A;
  sort_unstable_perm {A : Type} (f : A → Z * Z) (l : list A) : sort_unstable_by_key f l ≡ₚ l;
  sort_unstable_sorted {A : Type} (f : A → Z * Z) (l : list A) :
    Sorted (λ x y, f x ≤ₖ f y) (sort_unstable_by_key f l)
}.

(** ** The merge *)

Definition to_level (ex : Exchange) (l : OrderBookLevel) : Level :=
  mkLevel (exchange_to_string ex) (price l) (amount l).

Definition tagged_bids (e : Exchange * OrderBook) : list Level := to_level e.1 <$> bids e.2.
Definition tagged_asks (e : Exchange * OrderBook) : list Level := to_level e.1 <$> asks e.2.

(** The [for (ex, ob) in self.data.clone().into_iter()] loop, appending each
    book's tagged levels to [merged_bids] and [merged_asks]. *)
Definition collect_levels (entries : list (Exchange * OrderBook)) : list Level * list Level :=
  foldl (λ acc e, (acc.1 ++ tagged_bids e, acc.2 ++ tagged_asks e)) ([], []) entries.

Definition bid_key (l : Level) : Z * Z :=
  (float_ord_key (f64_neg (level_price l)), float_ord_key (f64_neg (level_amount l))).
Definition ask_key (l : Level) : Z * Z :=
  (float_ord_key (level_price l), float_ord_key (f64_neg (level_amount l))).

(** [Vec::truncate]. *)
Definition truncate {A} (n : nat) (v : list A) : list A := take n v.

(** [v[i]]: panics out of bounds. *)
Definition vec_index {A} (v : list A) (i : nat) : outcome A :=
  match v !! i with
  | Some a => Ret a
  | None => Panic "index out of bounds"%string
  end.

Definition depth : nat := 10.

Section merge.
Context `{!HashMapIter, !SortUnstable}.

Definition merge (s : OrderbookStorage) : outcome (f64 * list Level * list Level) :=
  let '(merged_bids, merged_asks) := collect_levels (hash_iter (storage_data s)) in
  let merged_bids := truncate depth (sort_unstable_by_key bid_key merged_bids) in
  let merged_asks := truncate depth (sort_unstable_by_key ask_key merged_asks) in
  best_ask ← vec_index merged_asks 0;
  best_bid ← vec_index merged_bids 0;
  Ret (f64_sub (level_price best_ask) (level_price best_bid), merged_bids, merged_asks).
End merge.

(** ** Implementations used to run examples *)

#[export] Instance hash_iter_sorted : HashMapIter :=
  {| hash_iter := map_to_list; hash_iter_perm m := reflexivity _ |}.

#[export] Program Instance merge_sort_unstable : SortUnstable :=
  {| sort_unstable_by_key A f := merge_sort (λ x y, f x ≤ₖ f y) |}.
Next Obligation. intros. apply merge_sort_Permutation. Qed.
Next Obligation.
  intros A f l. apply Sorted_merge_sort. intros x y. apply key_le_total.
Qed.

(** ** The levels of a storage *)

(** All bid (ask) levels of the stored books, tagged, in the order of the
    map's own enumeration. *)
Definition all_bids (s : OrderbookStorage) : list Level :=
  concat (tagged_bids <$> map_to_list (storage_data s)).
Definition all_asks (s : OrderbookStorage) : list Level :=
  concat (tagged_asks <$> map_to_list (storage_data s)).

Lemma collect_levels_concat entries :
  collect_levels entries = (concat (tagged_bids <$> entries), concat (tagged_asks <$> entries)).
Proof.
  unfold collect_levels.
  assert (∀ acc, foldl (λ acc e, (acc.1 ++ tagged_bids e, acc.2 ++ tagged_asks e)) acc entries
    = (acc.1 ++ concat (tagged_bids <$> entries), acc.2 ++ concat (tagged_asks <$> entries))) as ->.
  { induction entries as [|e entries IH]; intros [b a]; simpl; [by rewrite !app_nil_r|].
    by rewrite IH, !app_assoc. }
  done.
Qed.

Lemma concat_fmap_perm {A B} (f : A → list B) (l1 l2 : list A) :
  l1 ≡ₚ l2 → concat (f <$> l1) ≡ₚ concat (f <$> l2).
Proof. intros Hp. by rewrite Hp. Qed.

Section merge_facts.
Context `{!HashMapIter, !SortUnstable}.

Definition sorted_bids (s : OrderbookStorage) : list Level :=
  sort_unstable_by_key bid_key (collect_levels (hash_iter (storage_data s))).1.
Definition sorted_asks (s : OrderbookStorage) : list Level :=
  sort_unstable_by_key ask_key (collect_levels (hash_iter (storage_data s))).2.

(** [merge], branch by branch: it returns when both sorted sides have a
    first element and panics otherwise. *)
Lemma merge_eq s :
  merge s =
  match sorted_asks s !! 0%nat, sorted_bids s !! 0%nat with
  | Some ba, Some bb =>
      Ret (f64_sub (level_price ba) (level_price bb),
           truncate depth (sorted_bids s), truncate depth (sorted_asks s))
  | _, _ => Panic "index out of bounds"%string
  end.
Proof.
  unfold merge, sorted_bids, sorted_asks.
  destruct (collect_levels _) as [mb ma]; cbn [fst snd]. unfold vec_index, truncate.
  rewrite !lookup_take by (unfold depth; lia).
  destruct (sort_unstable_by_key ask_key ma !! 0%nat), (sort_unstable_by_key bid_key mb !! 0%nat); done.
Qed.

Lemma sorted_bids_perm s : sorted_bids s ≡ₚ all_bids s.
Proof.
  unfold sorted_bids, all_bids. rewrite sort_unstable_perm, collect_levels_concat; simpl.
  apply concat_fmap_perm, hash_iter_perm.
Qed.

Lemma sorted_asks_perm s : sorted_asks s ≡ₚ all_asks s.
Proof.
  unfold sorted_asks, all_asks. rewrite sort_unstable_perm, collect_levels_concat; simpl.
  apply concat_fmap_perm, hash_iter_perm.
Qed.

Lemma sorted_bids_sorted s : Sorted (λ x y, bid_key x ≤ₖ bid_key y) (sorted_bids s).
Proof. apply sort_unstable_sorted. Qed.

Lemma sorted_asks_sorted s : Sorted (λ x y, ask_key x ≤ₖ ask_key y) (sorted_asks s).
Proof. apply sort_unstable_sorted. Qed.

Lemma sorted_nil_iff {A} (l1 l2 : list A) : l1 ≡ₚ l2 → (l1 !! 0%nat = None ↔ l2 = []).
Proof.
  intros Hp. rewrite lookup_ge_None, (Permutation_length Hp).
  destruct l2; simpl; split; intros; try done; lia.
Qed.

Lemma merge_Ret_inv s sp b a :
  merge s = Ret (sp, b, a) →
  b = truncate depth (sorted_bids s) ∧ a = truncate depth (sorted_asks s) ∧
  ∃ ba bb, sorted_asks s !! 0%nat = Some ba ∧ sorted_bids s !! 0%nat = Some bb ∧
           sp = f64_sub (level_price ba) (level_price bb).
Proof.
  rewrite merge_eq. destruct (sorted_asks s !! 0%nat) eqn:Ha, (sorted_bids s !! 0%nat) eqn:Hb;
    intros Heq; inversion Heq; subst; eauto 10.
Qed.
End merge_facts.

(** ** Order of levels in terms of [FloatOrd] *)

Definition level_ok (l : Level) : Prop := f64_wf (level_price l) ∧ f64_wf (level_amount l).

(** A bid comes before another when its price is greater in [FloatOrd], or the
    prices are equal and its amount is not smaller. *)
Definition bid_before (x y : Level) : Prop :=
  float_ord_key (level_price y) < float_ord_key (level_price x) ∨
  (level_price x = level_price y ∧ float_ord_le (level_amount y) (level_amount x)).

(** An ask comes before another when its price is smaller in [FloatOrd], or
    the prices are equal and its amount is not smaller. *)
Definition ask_before (x y : Level) : Prop :=
  float_ord_key (level_price x) < float_ord_key (level_price y) ∨
  (level_price x = level_price y ∧ float_ord_le (level_amount y) (level_amount x)).

Lemma bid_key_le_iff x y :
  level_ok x → level_ok y → bid_key x ≤ₖ bid_key y ↔ bid_before x y.
Proof.
  intros [Hpx Hax] [Hpy Hay]. unfold key_le, bid_key, bid_before, float_ord_le; simpl.
  rewrite !float_ord_key_neg by done.
  split; intros [H|[H1 H2]]; [left; lia| |left; lia|].
  - right. split; [apply float_ord_key_inj; auto; lia | lia].
  - right. split; [rewrite H1; lia | lia].
Qed.

Lemma ask_key_le_iff x y :
  level_ok x → level_ok y → ask_key x ≤ₖ ask_key y ↔ ask_before x y.
Proof.
  intros [Hpx Hax] [Hpy Hay]. unfold key_le, ask_key, ask_before, float_ord_le; simpl.
  rewrite !float_ord_key_neg by done.
  split; intros [H|[H1 H2]]; [left; lia| |left; lia|].
  - right. split; [apply float_ord_key_inj; auto | lia].
  - right. split; [rewrite H1; lia | lia].
Qed.

Lemma to_level_ok e l : level_wf l → level_ok (to_level e l).
Proof. done. Qed.

Lemma all_levels_ok s :
  storage_inv s → Forall level_ok (all_bids s) ∧ Forall level_ok (all_asks s).
Proof.
  intros Hs. unfold all_bids, all_asks. rewrite !Forall_concat, !Forall_fmap.
  apply map_Forall_to_list in Hs. split; eapply Forall_impl; try apply Hs;
    intros [e ob] [_ [Hb Ha]]; simpl; unfold tagged_bids, tagged_asks; simpl;
    rewrite Forall_fmap; eapply Forall_impl; eauto using to_level_ok.
Qed.

#[export] Hint Resolve to_level_ok : ob.

(** ** Theorems on [merge] *)

Section merge_theorems.
Context `{!HashMapIter, !SortUnstable}.

(** C8: [merge] panics (index out of bounds in [merged_asks[0]] or
    [merged_bids[0]]) exactly when no stored book has a bid, or none has an
    ask; otherwise it returns. *)
Theorem merge_panics_iff s :
  (∃ msg, merge s = Panic msg) ↔ all_bids s = [] ∨ all_asks s = [].
Proof.
  rewrite merge_eq.
  pose proof (sorted_nil_iff _ _ (sorted_bids_perm s)).
  pose proof (sorted_nil_iff _ _ (sorted_asks_perm s)).
  destruct (sorted_asks s !! 0%nat), (sorted_bids s !! 0%nat); naive_solver.
Qed.

Lemma merge_ok_depth s sp b a :
  merge s = Ret (sp, b, a) →
  length b = min depth (length (all_bids s)) ∧ length a = min depth (length (all_asks s)).
Proof.
  intros (-> & -> & _)%merge_Ret_inv. unfold truncate. rewrite !length_take.
  by rewrite (Permutation_length (sorted_bids_perm s)), (Permutation_length (sorted_asks_perm s)).
Qed.

(** C5: Each side of the summary has [min 10 n] levels, where [n] is the
    number of levels on that side across all stored books. *)
Theorem merge_depth s sp b a :
  merge s = Ret (sp, b, a) →
  length b = min 10 (length (all_bids s)) ∧ length a = min 10 (length (all_asks s)).
Proof. apply merge_ok_depth. Qed.

Lemma merge_ok_sorted s sp b a :
  storage_inv s → merge s = Ret (sp, b, a) →
  Sorted bid_before b ∧ Sorted ask_before a.
Proof.
  intros Hs (-> & -> & _)%merge_Ret_inv. unfold truncate. destruct (all_levels_ok s Hs) as [Hb Ha].
  split; apply Sorted_take.
  - eapply Sorted_weaken_Forall; [apply bid_key_le_iff| |apply sorted_bids_sorted].
    by rewrite sorted_bids_perm.
  - eapply Sorted_weaken_Forall; [apply ask_key_le_iff| |apply sorted_asks_sorted].
    by rewrite sorted_asks_perm.
Qed.

(** C4: The bids of a summary are in non-increasing [FloatOrd] price order,
    ties by non-increasing amount; the asks in non-decreasing price order,
    ties by non-increasing amount. *)
Theorem merge_sorted s sp b a :
  storage_inv s → merge s = Ret (sp, b, a) →
  Sorted bid_before b ∧ Sorted ask_before a.
Proof. apply merge_ok_sorted. Qed.

(** C6: The summary keeps the best levels: together with some [rest] the
    bids are all tagged bids of the storage, and every kept bid comes before
    (by the sort key) every level of [rest]; likewise for asks. *)
Theorem merge_best_levels s sp b a :
  merge s = Ret (sp, b, a) →
  (∃ rest, b ++ rest ≡ₚ all_bids s ∧ ∀ x y, x ∈ b → y ∈ rest → bid_key x ≤ₖ bid_key y) ∧
  (∃ rest, a ++ rest ≡ₚ all_asks s ∧ ∀ x y, x ∈ a → y ∈ rest → ask_key x ≤ₖ ask_key y).
Proof.
  intros (-> & -> & _)%merge_Ret_inv. unfold truncate. split.
  - apply Sorted_take_least; [intros ???; apply key_le_trans | apply sorted_bids_sorted | apply sorted_bids_perm].
  - apply Sorted_take_least; [intros ???; apply key_le_trans | apply sorted_asks_sorted | apply sorted_asks_perm].
Qed.

Lemma merge_ok_spread s sp b a :
  merge s = Ret (sp, b, a) →
  ∃ bb ba, b !! 0%nat = Some bb ∧ a !! 0%nat = Some ba ∧
           sp = f64_sub (level_price ba) (level_price bb).
Proof.
  intros (-> & -> & ba & bb & Ha & Hb & ->)%merge_Ret_inv.
  exists bb, ba. unfold truncate. rewrite !lookup_take by (unfold depth; lia). done.
Qed.

(** C7: The spread is the first ask's price minus the first bid's price
    ([f64] subtraction), and both sides are non-empty. *)
Theorem merge_spread s sp b a :
  merge s = Ret (sp, b, a) →
  ∃ bb ba, b !! 0%nat = Some bb ∧ a !! 0%nat = Some ba ∧
           sp = f64_sub (level_price ba) (level_price bb).
Proof. apply merge_ok_spread. Qed.
End merge_theorems.

(** ** Independence from the iteration order and from the sort *)

Lemma ask_key_price x y : level_ok x → level_ok y → ask_key x = ask_key y → level_price x = level_price y.
Proof. intros [] [] Heq. injection Heq as Hp _. by apply float_ord_key_inj. Qed.

Lemma bid_key_price x y : level_ok x → level_ok y → bid_key x = bid_key y → level_price x = level_price y.
Proof.
  intros [] [] Heq. injection Heq as Hp _.
  rewrite <-(f64_neg_involutive (level_price x)), <-(f64_neg_involutive (level_price y)).
  f_equal. apply float_ord_key_inj; auto using f64_neg_wf.
Qed.

Lemma perm_lookup_ok (l l' : list Level) i x :
  Forall level_ok l' → l ≡ₚ l' → l !! i = Some x → level_ok x.
Proof. intros Hok Hp Hx. rewrite <-Hp in Hok. by eapply Forall_lookup_1. Qed.

Lemma fmap_lookup_eq {A B} (f : A → B) (l1 l2 : list A) i x1 x2 :
  f <$> l1 = f <$> l2 → l1 !! i = Some x1 → l2 !! i = Some x2 → f x1 = f x2.
Proof. intros Heq H1 H2. apply (f_equal (.!! i)) in Heq. rewrite !list_lookup_fmap, H1, H2 in Heq. by injection Heq. Qed.

(** C12: Whatever order the [HashMap] is iterated in and however
    [sort_unstable_by_key] orders equal keys, two summaries of the same
    storage have the same spread and the same sequence of sort keys (hence of
    prices and amounts) on each side; only the exchange tags of tied levels
    may differ. *)
Theorem merge_independent (I1 I2 : HashMapIter) (S1 S2 : SortUnstable) s sp1 b1 a1 sp2 b2 a2 :
  storage_inv s →
  @merge I1 S1 s = Ret (sp1, b1, a1) → @merge I2 S2 s = Ret (sp2, b2, a2) →
  sp1 = sp2 ∧ bid_key <$> b1 = bid_key <$> b2 ∧ ask_key <$> a1 = ask_key <$> a2.
Proof.
  intros Hs (-> & -> & ba1 & bb1 & Ha1 & Hb1 & ->)%merge_Ret_inv
    (-> & -> & ba2 & bb2 & Ha2 & Hb2 & ->)%merge_Ret_inv. unfold truncate.
  destruct (all_levels_ok s Hs) as [Hokb Hoka].
  assert (bid_key <$> @sorted_bids I1 S1 s = bid_key <$> @sorted_bids I2 S2 s) as Hkb.
  { apply (Sorted_perm_keys bid_key key_le); try apply sorted_bids_sorted.
    by rewrite !sorted_bids_perm. }
  assert (ask_key <$> @sorted_asks I1 S1 s = ask_key <$> @sorted_asks I2 S2 s) as Hka.
  { apply (Sorted_perm_keys ask_key key_le); try apply sorted_asks_sorted.
    by rewrite !sorted_asks_perm. }
  split_and!; [|by rewrite !fmap_take, Hkb|by rewrite !fmap_take, Hka].
  f_equal.
  - apply ask_key_price.
    + exact (perm_lookup_ok _ _ _ _ Hoka (@sorted_asks_perm I1 S1 s) Ha1).
    + exact (perm_lookup_ok _ _ _ _ Hoka (@sorted_asks_perm I2 S2 s) Ha2).
    + eapply fmap_lookup_eq; [exact Hka|exact Ha1|exact Ha2].
  - apply bid_key_price.
    + exact (perm_lookup_ok _ _ _ _ Hokb (@sorted_bids_perm I1 S1 s) Hb1).
    + exact (perm_lookup_ok _ _ _ _ Hokb (@sorted_bids_perm I2 S2 s) Hb2).
    + eapply fmap_lookup_eq; [exact Hkb|exact Hb1|exact Hb2].
Qed.

(** ** The scenario of the specification

    Exchange A (Binance) reports bid (100.0, 2.0) and ask (101.0, 1.0);
    exchange B (Bitstamp) reports bid (100.5, 1.0) and ask (100.8, 0.5). *)

Definition lvl (p a : f64) : OrderBookLevel := mkOrderBookLevel p a.

Definition scenario_A : OrderBook :=
  mkOrderBook Binance 1 "btcusd" [lvl (f64_of_Z 100) (f64_of_Z 2)] [lvl (f64_of_Z 101) (f64_of_Z 1)].
Definition scenario_B : OrderBook :=
  mkOrderBook Bitstamp 1 "btcusd" [lvl (f64_of_decimal 1005 1) (f64_of_Z 1)]
    [lvl (f64_of_decimal 1008 1) (f64_of_decimal 5 1)].

Definition scenario_storage : OrderbookStorage := store_all storage_new [scenario_A; scenario_B].

Definition scenario_summary : f64 * list Level * list Level :=
  (f64_sub (f64_of_decimal 1008 1) (f64_of_decimal 1005 1),
   [mkLevel "Bitstamp" (f64_of_decimal 1005 1) (f64_of_Z 1); mkLevel "Binance" (f64_of_Z 100) (f64_of_Z 2)],
   [mkLevel "Bitstamp" (f64_of_decimal 1008 1) (f64_of_decimal 5 1); mkLevel "Binance" (f64_of_Z 101) (f64_of_Z 1)]).

Lemma scenario_storage_inv : storage_inv scenario_storage.
Proof.
  apply store_all_inv; [apply storage_new_inv|].
  apply (bool_decide_unpack _). vm_compute. reflexivity.
Qed.

(** The scenario of the specification: the bids are [(B,100.5,1.0),
    (A,100.0,2.0)], the asks [(B,100.8,0.5), (A,101.0,1.0)], and the spread is
    the [f64] difference [100.8 - 100.5]. *)
Theorem merge_scenario : merge scenario_storage = Ret scenario_summary.
Proof. vm_compute. reflexivity. Qed.

(** That spread is [0.29999999999999716], not the [0.3] the scenario of
    the specification states: [f64] subtraction of the two parsed prices. *)
Theorem scenario_spread_value :
  (scenario_summary.1.1 = f64_of_decimal 29999999999999716 17) ∧
  (scenario_summary.1.1 ≠ f64_of_decimal 3 1).
Proof. vm_compute. split; [reflexivity | discriminate]. Qed.

(** A first snapshot with bids but no asks makes [merge] panic: the
    aggregation task dies on [merged_asks[0]] instead of omitting the spread. *)
Theorem merge_one_sided_panics :
  merge (store_all storage_new [mkOrderBook Binance 1 "btcusd" [lvl (f64_of_Z 100) (f64_of_Z 2)] []])
  = Panic "index out of bounds".
Proof. vm_compute. reflexivity. Qed.

(** Another enumeration order of the map: the reverse one. *)
Definition hash_iter_reversed : HashMapIter :=
  {| hash_iter m := reverse (map_to_list m); hash_iter_perm m := reverse_Permutation _ |}.

Definition tie_storage : OrderbookStorage :=
  store_all storage_new
    [mkOrderBook Binance 1 "btcusd" [lvl (f64_of_Z 100) (f64_of_Z 1)] [lvl (f64_of_Z 101) (f64_of_Z 1)];
     mkOrderBook Bitstamp 1 "btcusd" [lvl (f64_of_Z 100) (f64_of_Z 1)] [lvl (f64_of_Z 101) (f64_of_Z 1)]].

(** The exchange tags of levels with equal price and amount depend on the
    order the [HashMap] is iterated in: two iteration orders of the same
    storage give summaries that differ. *)
Theorem merge_tags_depend_on_iteration :
  @merge hash_iter_sorted merge_sort_unstable tie_storage ≠
  @merge hash_iter_reversed merge_sort_unstable tie_storage.
Proof. vm_compute. congruence. Qed.

(** ** Witnesses: the theorems applied to the scenario *)

Lemma merge_depth_witness :
  length scenario_summary.1.2 = min 10 (length (all_bids scenario_storage)) ∧
  length scenario_summary.2 = min 10 (length (all_asks scenario_storage)).
Proof. apply (merge_depth scenario_storage scenario_summary.1.1). vm_compute. reflexivity. Defined.

Lemma merge_sorted_witness :
  Sorted bid_before scenario_summary.1.2 ∧ Sorted ask_before scenario_summary.2.
Proof.
  apply (merge_sorted scenario_storage scenario_summary.1.1).
  - apply scenario_storage_inv.
  - vm_compute. reflexivity.
Defined.

Lemma merge_best_levels_witness :
  (∃ rest, scenario_summary.1.2 ++ rest ≡ₚ all_bids scenario_storage ∧
     ∀ x y, x ∈ scenario_summary.1.2 → y ∈ rest → bid_key x ≤ₖ bid_key y) ∧
  (∃ rest, scenario_summary.2 ++ rest ≡ₚ all_asks scenario_storage ∧
     ∀ x y, x ∈ scenario_summary.2 → y ∈ rest → ask_key x ≤ₖ ask_key y).
Proof. apply (merge_best_levels scenario_storage scenario_summary.1.1). vm_compute. reflexivity. Defined.

Lemma merge_spread_witness :
  ∃ bb ba, scenario_summary.1.2 !! 0%nat = Some bb ∧ scenario_summary.2 !! 0%nat = Some ba ∧
           scenario_summary.1.1 = f64_sub (level_price ba) (level_price bb).
Proof. apply (merge_spread scenario_storage). vm_compute. reflexivity. Defined.

Lemma merge_independent_witness :
  scenario_summary.1.1 = scenario_summary.1.1 ∧
  bid_key <$> scenario_summary.1.2 = bid_key <$> scenario_summary.1.2 ∧
  ask_key <$> scenario_summary.2 = ask_key <$> scenario_summary.2.
Proof.
  apply (merge_independent hash_iter_sorted hash_iter_reversed merge_sort_unstable merge_sort_unstable
           scenario_storage).
  - apply scenario_storage_inv.
  - vm_compute. reflexivity.
  - vm_compute. reflexivity.
Defined.
