(* ===== verification/Broadcast.v ===== *)
(** * Broadcast: the [tokio::sync::broadcast] channels the program is built on

    Both channels of the program are broadcast channels of capacity 16: the
    update channel from the connectors to the aggregator
    ([Subscriptions::init], [data-streamer/src/lib.rs]) and the summary channel
    from the aggregator to the per-client forwarding tasks ([main.rs],
    [OrderbookAggregatorService::book_summary]).

    [Chan] is the contract: the channel is the log of every value sent, a
    receiver is the position of the next value it reads.  [send] never waits;
    it fails when no receiver exists.  A receiver that is more than [cap]
    values behind gets [Lagged n] and jumps to the oldest retained value.
    [Ring] is tokio's implementation: a ring buffer of [cap] slots, each with
    the position it holds, read by [recv_ref]'s comparisons of positions;
    [ring_refines] is the simulation that relates the two. *)

From stdpp Require Import base numbers list relations.
From S2P Require Import Prelude.

(** ** Results of [try_recv] *)

Inductive RecvError := Closed | Lagged (missed : nat).

Inductive TryRecv (A : Type) :=
| RecvOk (v : A)
| RecvEmpty
| RecvErr (e : RecvError).
Arguments RecvOk {A} v.
Arguments RecvEmpty {A}.
Arguments RecvErr {A} e.

(** ** The contract: a log and positions *)

Module Chan.
Record t (A : Type) := mk { cap : nat; log : list A; rx_cnt : nat; closed : bool }.
Arguments mk {A}.
Arguments cap {A}. Arguments log {A}. Arguments rx_cnt {A}. Arguments closed {A}.

(** [broadcast::channel(capacity)] returns a sender and one receiver. *)
Definition channel {A} (capacity : nat) : t A * nat := (mk capacity [] 1 false, 0%nat).

Definition tail {A} (c : t A) : nat := length (log c).

(** [Sender::send]: [Err] (the value is dropped) when no receiver is alive,
    otherwise the value is appended and the number of receivers returned. *)
Definition send {A} (c : t A) (v : A) : t A * option nat :=
  if decide (rx_cnt c = 0%nat) then (c, None)
  else (mk (cap c) (log c ++ [v]) (rx_cnt c) (closed c), Some (rx_cnt c)).

(** [Sender::subscribe]: a new receiver positioned at the tail. *)
Definition subscribe {A} (c : t A) : t A * nat :=
  (mk (cap c) (log c) (S (rx_cnt c)) (closed c), tail c).

(** Dropping a receiver. *)
Definition drop_rx {A} (c : t A) : t A := mk (cap c) (log c) (pred (rx_cnt c)) (closed c).

(** Dropping the last sender closes the channel. *)
Definition close {A} (c : t A) : t A := mk (cap c) (log c) (rx_cnt c) true.

(** [Receiver::try_recv] from position [next]: the new position and the
    result. *)
Definition try_recv {A} (c : t A) (next : nat) : nat * TryRecv A :=
  if decide (tail c ≤ next)%nat then
    (next, if closed c then RecvErr Closed else RecvEmpty)
  else if decide (next + cap c < tail c)%nat then
    (tail c - cap c, RecvErr (Lagged (tail c - cap c - next)))
  else match log c !! next with
       | Some v => (S next, RecvOk v)
       | None => (next, RecvEmpty)
       end.
End Chan.

(** ** tokio's ring buffer *)

Module Ring.
Local Open Scope Z_scope.

(** A ring of [2^k] slots, each holding the position of the value it
    stores (positions are [u64] in tokio; they never wrap in a run, so they
    are kept as unbounded integers here). *)
Record t (A : Type) := mk {
  kbits : nat;
  buf : list (Z * option A);
  tail : Z;
  rx_cnt : nat;
  closed : bool
}.
Arguments mk {A}.
Arguments kbits {A}. Arguments buf {A}. Arguments tail {A}.
Arguments rx_cnt {A}. Arguments closed {A}.

Definition cap {A} (r : t A) : Z := 2 ^ Z.of_nat (kbits r).
Definition mask {A} (r : t A) : Z := cap r - 1.

(** [channel]: slot [i] starts with position [i - capacity], so that a
    receiver at position 0 finds it one lap behind and waits. *)
Definition channel {A} (k : nat) : t A * Z :=
  let c := 2 ^ Z.of_nat k in
  (mk k ((λ i, (Z.of_nat i - c, None)) <$> seq 0 (Z.to_nat c)) 0 1 false, 0).

(** [Sender::send]: write slot [tail & mask], advance the tail. *)
Definition send {A} (r : t A) (v : A) : t A * option nat :=
  if decide (rx_cnt r = 0%nat) then (r, None)
  else
    let idx := Z.to_nat (Z.land (tail r) (mask r)) in
    (mk (kbits r) (<[idx := (tail r, Some v)]> (buf r)) (tail r + 1) (rx_cnt r) (closed r),
     Some (rx_cnt r)).

Definition subscribe {A} (r : t A) : t A * Z :=
  (mk (kbits r) (buf r) (tail r) (S (rx_cnt r)) (closed r), tail r).

Definition drop_rx {A} (r : t A) : t A := mk (kbits r) (buf r) (tail r) (pred (rx_cnt r)) (closed r).

Definition close {A} (r : t A) : t A := mk (kbits r) (buf r) (tail r) (rx_cnt r) true.

(** [Receiver::recv_ref]: compare the slot's position with [next]. *)
Definition try_recv {A} (r : t A) (next : Z) : Z * TryRecv A :=
  let idx := Z.to_nat (Z.land next (mask r)) in
  match buf r !! idx with
  | None => (next, RecvEmpty)
  | Some (pos, v) =>
      if pos =? next then
        match v with Some x => (next + 1, RecvOk x) | None => (next, RecvEmpty) end
      else if pos + cap r =? next then
        (next, if closed r then RecvErr Closed else RecvEmpty)
      else
        let nxt := tail r - cap r in
        let missed := nxt - next in
        if missed =? 0 then
          match v with Some x => (next + 1, RecvOk x) | None => (next, RecvEmpty) end
        else (nxt, RecvErr (Lagged (Z.to_nat missed)))
  end.
End Ring.

(** ** Sequences of channel operations

    The operations the program performs on a channel other than receiving:
    sending, subscribing a receiver, dropping a receiver, dropping the
    sender.  A run returns the final channel and the result of every send. *)

Inductive Op (A : Type) := OpSend (v : A) | OpSubscribe | OpDropRx | OpClose.
Arguments OpSend {A} v. Arguments OpSubscribe {A}. Arguments OpDropRx {A}. Arguments OpClose {A}.

Definition chan_exec {A} (c : Chan.t A) (o : Op A) : Chan.t A * list (option nat) :=
  match o with
  | OpSend v => let '(c', r) := Chan.send c v in (c', [r])
  | OpSubscribe => ((Chan.subscribe c).1, [])
  | OpDropRx => (Chan.drop_rx c, [])
  | OpClose => (Chan.close c, [])
  end.

Definition ring_exec {A} (r : Ring.t A) (o : Op A) : Ring.t A * list (option nat) :=
  match o with
  | OpSend v => let '(r', res) := Ring.send r v in (r', [res])
  | OpSubscribe => ((Ring.subscribe r).1, [])
  | OpDropRx => (Ring.drop_rx r, [])
  | OpClose => (Ring.close r, [])
  end.

Fixpoint chan_run {A} (c : Chan.t A) (ops : list (Op A)) : Chan.t A * list (option nat) :=
  match ops with
  | [] => (c, [])
  | o :: ops' => let '(c1, r1) := chan_exec c o in let '(c2, r2) := chan_run c1 ops' in (c2, r1 ++ r2)
  end.

Fixpoint ring_run {A} (r : Ring.t A) (ops : list (Op A)) : Ring.t A * list (option nat) :=
  match ops with
  | [] => (r, [])
  | o :: ops' => let '(r1, x1) := ring_exec r o in let '(r2, x2) := ring_run r1 ops' in (r2, x1 ++ x2)
  end.

(** ** The ring buffer implements the contract *)

Section refinement.
Local Open Scope Z_scope.
Context {A : Type}.

(** The position held by slot [i] after [tail] sends: the last position
    below [tail] that is [i] modulo the capacity, or [i - cap] when no value
    has reached that slot yet. *)
Definition slot_pos (c tl i : Z) : Z := tl - 1 - ((tl - 1 - i) mod c).

Definition slot_of (ch : Chan.t A) (c : Z) (i : Z) : Z * option A :=
  let p := slot_pos c (Z.of_nat (Chan.tail ch)) i in
  (p, if decide (0 ≤ p) then Chan.log ch !! Z.to_nat p else None).

Definition ring_refines (r : Ring.t A) (ch : Chan.t A) : Prop :=
  Z.of_nat (Chan.cap ch) = Ring.cap r ∧
  Ring.tail r = Z.of_nat (Chan.tail ch) ∧
  Ring.rx_cnt r = Chan.rx_cnt ch ∧ Ring.closed r = Chan.closed ch ∧
  length (Ring.buf r) = Z.to_nat (Ring.cap r) ∧
  ∀ i, (i < Z.to_nat (Ring.cap r))%nat → Ring.buf r !! i = Some (slot_of ch (Ring.cap r) (Z.of_nat i)).

Lemma ring_cap_pos (r : Ring.t A) : 0 < Ring.cap r.
Proof. unfold Ring.cap. apply Z.pow_pos_nonneg; lia. Qed.

Lemma ring_land_mask (r : Ring.t A) x : 0 ≤ x → Z.land x (Ring.mask r) = x mod Ring.cap r.
Proof.
  intros Hx. unfold Ring.mask, Ring.cap.
  rewrite <-Z.land_ones by lia. f_equal. rewrite Z.ones_equiv. lia.
Qed.

Lemma mod_pred_nonzero c x : 0 < c → x mod c ≠ 0 → (x - 1) mod c = x mod c - 1.
Proof.
  intros Hc Hx. symmetry. apply (Z.mod_unique_pos _ _ (x / c)).
  - pose proof (Z.mod_pos_bound x c Hc). lia.
  - pose proof (Z.div_mod x c ltac:(lia)). lia.
Qed.

Lemma mod_minus_one c : 0 < c → (-1) mod c = c - 1.
Proof. intros Hc. symmetry. apply (Z.mod_unique_pos _ _ (-1)); lia. Qed.

Lemma mod_self_diff c x : 0 < c → (x - x mod c) mod c = 0.
Proof.
  intros Hc. rewrite Zminus_mod_idemp_r. by rewrite Z.sub_diag, Z.mod_0_l by lia.
Qed.
End refinement.

Section refinement_proofs.
Local Open Scope Z_scope.
Context {A : Type}.

Lemma mod_sub_zero c t i : 0 < c → 0 ≤ i < c → (t - i) mod c = 0 → t mod c = i.
Proof.
  intros Hc Hi H. rewrite Zminus_mod, (Z.mod_small i) in H by done.
  pose proof (Z.mod_pos_bound t c Hc).
  destruct (Z_le_gt_dec i (t mod c)).
  - rewrite Z.mod_small in H by lia. lia.
  - rewrite <-(Z.mod_unique_pos (t mod c - i) c (-1) (t mod c - i + c)) in H by lia. lia.
Qed.

Lemma slot_pos_send c t i :
  0 < c → 0 ≤ i < c →
  slot_pos c (t + 1) i = if decide (i = t mod c) then t else slot_pos c t i.
Proof.
  intros Hc Hi. unfold slot_pos. replace (t + 1 - 1 - i) with (t - i) by lia.
  replace (t - 1 - i) with (t - i - 1) by lia.
  case_decide as Heq.
  - subst i. rewrite mod_self_diff by done. lia.
  - rewrite mod_pred_nonzero; [lia|done|].
    intros H0. apply Heq. symmetry. by apply mod_sub_zero.
Qed.

Lemma slot_of_send (ch : Chan.t A) v c i :
  0 < c → 0 ≤ i < c → Chan.rx_cnt ch ≠ 0%nat →
  slot_of (Chan.send ch v).1 c i =
  if decide (i = Z.of_nat (Chan.tail ch) mod c) then (Z.of_nat (Chan.tail ch), Some v)
  else slot_of ch c i.
Proof.
  intros Hc Hi Hrx. unfold Chan.send. rewrite decide_False by done. unfold slot_of, Chan.tail; simpl.
  rewrite length_app, Nat2Z.inj_add. simpl Z.of_nat. rewrite slot_pos_send by done.
  case_decide.
  - rewrite decide_True by lia. rewrite Nat2Z.id, lookup_app_r, Nat.sub_diag by lia. done.
  - assert (slot_pos c (Z.of_nat (length (Chan.log ch))) i < Z.of_nat (length (Chan.log ch))).
    { unfold slot_pos. pose proof (Z.mod_pos_bound (Z.of_nat (length (Chan.log ch)) - 1 - i) c Hc). lia. }
    case_decide; [|done]. rewrite lookup_app_l by lia. done.
Qed.
End refinement_proofs.

Section refinement_theorems.
Local Open Scope Z_scope.
Context {A : Type}.

Lemma slot_pos_initial c i : 0 ≤ i < c → slot_pos c 0 i = i - c.
Proof.
  intros Hi. unfold slot_pos. rewrite <-(Z.mod_unique_pos (0 - 1 - i) c (-1) (c - 1 - i)) by lia.
  lia.
Qed.

Lemma ring_new_refines (k : nat) :
  ring_refines (A:=A) (Ring.channel k).1 (Chan.channel (Z.to_nat (2 ^ Z.of_nat k))).1.
Proof.
  pose proof (Z.pow_pos_nonneg 2 (Z.of_nat k) ltac:(lia) ltac:(lia)) as Hc.
  unfold Ring.channel, Chan.channel, ring_refines, Ring.cap; simpl.
  split_and!; try done; [lia|by rewrite length_fmap, length_seq|].
  intros i Hi. rewrite list_lookup_fmap, lookup_seq_lt by done. simpl. f_equal.
  unfold slot_of, Chan.tail; simpl. rewrite slot_pos_initial by lia.
  by rewrite decide_False by lia.
Qed.

(** [send] on the ring and on the channel give the same result and related
    states. *)
Lemma ring_send_step (r : Ring.t A) ch v :
  ring_refines r ch →
  ring_refines (Ring.send r v).1 (Chan.send ch v).1 ∧ (Ring.send r v).2 = (Chan.send ch v).2.
Proof.
  intros (Hcap & Htail & Hrx & Hcl & Hlen & Hbuf). pose proof (ring_cap_pos r) as Hc.
  destruct (decide (Chan.rx_cnt ch = 0%nat)) as [H0|H0].
  { unfold Ring.send, Chan.send. rewrite Hrx, !decide_True by done. split; [|done].
    repeat split; done. }
  pose proof (slot_of_send ch v (Ring.cap r)) as Hslot.
  unfold Ring.send. rewrite Hrx, decide_False by done.
  unfold Chan.send in *. rewrite decide_False in * by done.
  unfold ring_refines, Ring.cap, Chan.tail in *; simpl in *.
  rewrite ring_land_mask by lia. unfold Ring.cap. rewrite Htail.
  split; [|done]. split_and!; try done.
  - rewrite length_app, Nat2Z.inj_add. simpl. lia.
  - by rewrite length_insert.
  - intros i Hi. rewrite Hslot by lia. case_decide as Heq.
    + rewrite <-Heq, Nat2Z.id, list_lookup_insert_eq; [done|lia].
    + rewrite list_lookup_insert_ne; [by apply Hbuf|].
      intros E. apply Heq. rewrite <-E, Z2Nat.id by (apply Z.mod_pos_bound; lia). done.
Qed.

(** [try_recv] on the ring, from a position not beyond the tail, returns what
    the channel's contract returns and moves the receiver to the same
    position: the slot comparisons of [recv_ref] detect exactly the empty,
    ready and lagged cases. *)
Lemma ring_try_recv_step (r : Ring.t A) ch (next : nat) :
  ring_refines r ch → (next ≤ Chan.tail ch)%nat →
  Ring.try_recv r (Z.of_nat next) =
  (Z.of_nat (Chan.try_recv ch next).1, (Chan.try_recv ch next).2).
Proof.
  intros (Hcap & Htail & Hrx & Hcl & Hlen & Hbuf) Hnext. pose proof (ring_cap_pos r) as Hc.
  set (c := Ring.cap r) in *. set (t := Chan.tail ch) in *.
  pose proof (Z.mod_pos_bound (Z.of_nat next) c Hc) as Hm.
  unfold Ring.try_recv. rewrite ring_land_mask by lia. fold c.
  rewrite Hbuf by (apply Nat2Z.inj_lt; rewrite !Z2Nat.id; lia).
  rewrite Z2Nat.id by lia. unfold slot_of, slot_pos. fold t.
  rewrite Zminus_mod_idemp_r. rewrite Htail, Hcl.
  pose proof (Z.mod_pos_bound (Z.of_nat t - 1 - Z.of_nat next) c Hc) as Hm'.
  unfold Chan.try_recv. fold t. rewrite <-Hcap in *.
  destruct (decide (t ≤ next)%nat) as [Hle|Hle].
  - assert (next = t) as -> by lia.
    replace (Z.of_nat t - 1 - Z.of_nat t) with (-1) by lia. rewrite mod_minus_one by lia.
    rewrite Z_eqb_false by lia. rewrite Z_eqb_true by lia. done.
  - destruct (decide (next + Chan.cap ch < t)%nat) as [Hlag|Hlag].
    + rewrite !Z_eqb_false by lia.
      simpl. f_equal; [lia|]. do 2 f_equal. lia.
    + rewrite Z.mod_small by lia. replace (Z.of_nat t - 1 - (Z.of_nat t - 1 - Z.of_nat next))
        with (Z.of_nat next) by lia.
      rewrite Z_eqb_true by lia. rewrite decide_True by lia. rewrite Nat2Z.id.
      destruct (Chan.log ch !! next) eqn:E; [simpl; f_equal; lia|].
      apply lookup_ge_None in E. unfold t, Chan.tail in *. lia.
Qed.
Lemma ring_subscribe_step (r : Ring.t A) ch :
  ring_refines r ch →
  ring_refines (Ring.subscribe r).1 (Chan.subscribe ch).1 ∧
  (Ring.subscribe r).2 = Z.of_nat (Chan.subscribe ch).2.
Proof. intros (Hcap & Htail & Hrx & Hcl & Hlen & Hbuf). unfold ring_refines; simpl. rewrite Hrx. by split_and!. Qed.

Lemma ring_exec_step (r : Ring.t A) ch o :
  ring_refines r ch →
  ring_refines (ring_exec r o).1 (chan_exec ch o).1 ∧ (ring_exec r o).2 = (chan_exec ch o).2.
Proof.
  intros Hr. destruct o as [v| | |]; simpl.
  { destruct (ring_send_step r ch v Hr) as [Hr' Hres].
    destruct (Ring.send r v), (Chan.send ch v). simpl in *. by subst. }
  { split; [|done]. apply (ring_subscribe_step r ch Hr). }
  all: destruct Hr as (Hcap & Htail & Hrx & Hcl & Hlen & Hbuf); unfold ring_refines; simpl.
  all: rewrite ?Hrx; by split_and!.
Qed.

Lemma ring_run_step (r : Ring.t A) ch ops :
  ring_refines r ch →
  ring_refines (ring_run r ops).1 (chan_run ch ops).1 ∧ (ring_run r ops).2 = (chan_run ch ops).2.
Proof.
  revert r ch. induction ops as [|o ops IH]; intros r ch Hr; [done|]. simpl.
  destruct (ring_exec_step r ch o Hr) as [Hr1 Hx1].
  destruct (ring_exec r o) as [r1 x1], (chan_exec ch o) as [c1 y1]. simpl in *.
  destruct (IH r1 c1 Hr1) as [Hr2 Hx2].
  destruct (ring_run r1 ops), (chan_run c1 ops). simpl in *. by subst.
Qed.

(** C26: From [broadcast::channel] with [2^k] slots, after any sequence of
    sends, subscriptions, receiver drops and sender drop, tokio's ring is
    related to the contract's log ([ring_refines]: same tail, so every
    subscription gets the same position, same receiver count, and every slot
    holds the value the log has at the slot's position) and every [send]
    returned the same result. *)
Theorem ring_run_refines (k : nat) (ops : list (Op A)) :
  let '(r, xs) := ring_run (Ring.channel k).1 ops in
  let '(c, ys) := chan_run (Chan.channel (Z.to_nat (2 ^ Z.of_nat k))).1 ops in
  ring_refines r c ∧ xs = ys.
Proof.
  destruct (ring_run_step _ _ ops (ring_new_refines k)) as [Hr Hx].
  destruct (ring_run _ ops), (chan_run _ ops). by split.
Qed.

(** C25: After any sequence of operations from a new channel of [2^k] slots,
    [recv_ref] on tokio's ring, from any receiver position not beyond the
    tail, returns what the contract's [try_recv] returns (the value, [Empty],
    [Closed] or [Lagged n]) and moves the receiver to the same position. *)
Theorem ring_run_try_recv (k : nat) (ops : list (Op A)) (next : nat) :
  (next ≤ Chan.tail (chan_run (Chan.channel (Z.to_nat (2 ^ Z.of_nat k))).1 ops).1)%nat →
  Ring.try_recv (ring_run (Ring.channel k).1 ops).1 (Z.of_nat next) =
  (Z.of_nat (Chan.try_recv (chan_run (Chan.channel (Z.to_nat (2 ^ Z.of_nat k))).1 ops).1 next).1,
   (Chan.try_recv (chan_run (Chan.channel (Z.to_nat (2 ^ Z.of_nat k))).1 ops).1 next).2).
Proof.
  intros Hnext. apply ring_try_recv_step; [|done].
  apply (ring_run_step _ _ ops (ring_new_refines k)).
Qed.
End refinement_theorems.

(** ** What one receiver sees *)

Section receiver.
Context {A : Type}.

(** The life of one receiver: values are sent by anyone, the receiver reads
    ([RecvOk]) or is told it lagged. *)
Inductive rx_step : Chan.t A * nat * list A → Chan.t A * nat * list A → Prop :=
| rx_send c n got v : rx_step (c, n, got) ((Chan.send c v).1, n, got)
| rx_recv c n got n' v :
    Chan.try_recv c n = (n', RecvOk v) → rx_step (c, n, got) (c, n', got ++ [v])
| rx_lag c n got n' k :
    Chan.try_recv c n = (n', RecvErr (Lagged k)) → rx_step (c, n, got) (c, n', got).

(** Steps where the receiver never lags. *)
Inductive rx_step_nolag : Chan.t A * nat * list A → Chan.t A * nat * list A → Prop :=
| rxn_send c n got v : rx_step_nolag (c, n, got) ((Chan.send c v).1, n, got)
| rxn_recv c n got n' v :
    Chan.try_recv c n = (n', RecvOk v) → rx_step_nolag (c, n, got) (c, n', got ++ [v]).

Lemma send_log_prefix (c : Chan.t A) v : ∃ l, Chan.log (Chan.send c v).1 = Chan.log c ++ l.
Proof. unfold Chan.send. case_decide; simpl; [exists []; by rewrite app_nil_r|by eexists]. Qed.

Lemma try_recv_ok (c : Chan.t A) n n' v :
  Chan.try_recv c n = (n', RecvOk v) →
  n' = S n ∧ Chan.log c !! n = Some v ∧ Chan.tail c ≤ n + Chan.cap c.
Proof.
  unfold Chan.try_recv. repeat case_decide; [by destruct (Chan.closed c)|done|].
  destruct (Chan.log c !! n) eqn:E; intros Heq; inversion Heq; subst. split_and!; auto; lia.
Qed.

Lemma try_recv_lag (c : Chan.t A) n n' k :
  Chan.try_recv c n = (n', RecvErr (Lagged k)) →
  n + Chan.cap c < Chan.tail c ∧ n' = Chan.tail c - Chan.cap c ∧ k = n' - n.
Proof.
  unfold Chan.try_recv. repeat case_decide; [by destruct (Chan.closed c)| |].
  - intros Heq; inversion Heq; subst. split_and!; auto; lia.
  - by destruct (Chan.log c !! n).
Qed.

(** Invariant of a receiver subscribed at position [start]: it is between
    [start] and the tail, and what it got is a subsequence of the values
    sent from [start] up to its position. *)
Definition rx_inv (start : nat) (s : Chan.t A * nat * list A) : Prop :=
  let '(c, n, got) := s in
  start ≤ n ≤ Chan.tail c ∧ got `sublist_of` take (n - start) (drop start (Chan.log c)).

Lemma rx_step_inv start s s' : rx_step s s' → rx_inv start s → rx_inv start s'.
Proof.
  intros Hs. destruct Hs as [c n got v|c n got n' v Hr|c n got n' k Hr]; simpl.
  - intros [Hn Hsub]. destruct (send_log_prefix c v) as [l Hl].
    unfold Chan.tail in *. rewrite Hl, length_app. split; [lia|].
    rewrite drop_app_le, take_app_le by (rewrite ?length_drop; lia). done.
  - apply try_recv_ok in Hr as (-> & Hv & _). intros [Hn Hsub].
    apply lookup_lt_Some in Hv as Hlt. unfold Chan.tail in *. split; [lia|].
    replace (S n - start) with (S (n - start)) by lia.
    rewrite (take_S_r _ _ v); [by apply sublist_app|].
    rewrite lookup_drop. replace (start + (n - start)) with n by lia. done.
  - apply try_recv_lag in Hr as (Hlag & -> & ->). intros [Hn Hsub]. split; [lia|].
    etrans; [exact Hsub|]. apply sublist_take_le. lia.
Qed.
End receiver.

Section receiver_theorems.
Context {A : Type}.

Lemma rx_step_nolag_step s s' : rx_step_nolag (A:=A) s s' → rx_step s s'.
Proof. destruct 1; econstructor; eauto. Qed.

Definition rx_exact (start : nat) (s : Chan.t A * nat * list A) : Prop :=
  let '(c, n, got) := s in
  start ≤ n ≤ Chan.tail c ∧ got = take (n - start) (drop start (Chan.log c)).

Lemma rx_step_nolag_exact start s s' : rx_step_nolag s s' → rx_exact start s → rx_exact start s'.
Proof.
  intros Hs. destruct Hs as [c n got v|c n got n' v Hr]; simpl.
  - intros [Hn ->]. destruct (send_log_prefix c v) as [l Hl].
    unfold Chan.tail in *. rewrite Hl, length_app. split; [lia|].
    rewrite drop_app_le, take_app_le by (rewrite ?length_drop; lia). done.
  - apply try_recv_ok in Hr as (-> & Hv & _). intros [Hn ->].
    apply lookup_lt_Some in Hv as Hlt. unfold Chan.tail in *. split; [lia|].
    replace (S n - start) with (S (n - start)) by lia.
    rewrite (take_S_r _ _ v); [done|].
    rewrite lookup_drop. replace (start + (n - start)) with n by lia. done.
Qed.

(** C23: A subscriber receives only values sent after it subscribed, in the
    order they were sent and each at most once (what it gets is a
    subsequence of the values sent since its subscription), however the
    sends, its receives and its lags interleave. *)
Theorem subscriber_no_replay (c : Chan.t A) c' n got :
  rtc rx_step ((Chan.subscribe c).1, (Chan.subscribe c).2, []) (c', n, got) →
  got `sublist_of` drop (Chan.tail c) (Chan.log c').
Proof.
  intros Hrtc.
  assert (rx_inv (Chan.tail c) (c', n, got)) as [_ Hsub].
  { eapply rtc_invariant; [|exact Hrtc|].
    - intros x y Hxy. by apply rx_step_inv.
    - simpl. unfold Chan.tail. simpl. split; [lia|]. apply sublist_nil_l. }
  etrans; [exact Hsub|]. apply sublist_take.
Qed.

(** A subscriber that never lags receives every value sent after it
    subscribed, in order, with none skipped, up to its position. *)
Theorem subscriber_no_lag_exact (c : Chan.t A) c' n got :
  rtc rx_step_nolag ((Chan.subscribe c).1, (Chan.subscribe c).2, []) (c', n, got) →
  got = take (n - Chan.tail c) (drop (Chan.tail c) (Chan.log c')).
Proof.
  intros Hrtc.
  assert (rx_exact (Chan.tail c) (c', n, got)) as [_ Hex]; [|done].
  eapply rtc_invariant; [|exact Hrtc|].
  - intros x y Hxy. by apply rx_step_nolag_exact.
  - simpl. unfold Chan.tail. simpl. split; [lia|]. by rewrite Nat.sub_diag.
Qed.

(** C24: A receiver lags exactly when more than [cap] values were sent since
    its position; it then skips to the oldest value still held, and the
    number it reports missing is the number skipped. *)
Theorem try_recv_lagged_iff (c : Chan.t A) n :
  n ≤ Chan.tail c →
  (∃ k, (Chan.try_recv c n).2 = RecvErr (Lagged k)) ↔ n + Chan.cap c < Chan.tail c.
Proof.
  intros Hn. unfold Chan.try_recv. repeat case_decide; simpl.
  - destruct (Chan.closed c); split; [intros [k Hk]; discriminate|lia|intros [k Hk]; discriminate|lia].
  - split; [done|]. intros _. by eexists.
  - destruct (Chan.log c !! n); split; try (intros [k Hk]; discriminate); lia.
Qed.
End receiver_theorems.

(** ** Witnesses *)

Definition demo_chan : Chan.t nat := Chan.mk 2 [1; 2] 1 false.

Lemma subscriber_no_replay_witness : [3] `sublist_of` drop (Chan.tail demo_chan) [1; 2; 3].
Proof.
  apply (subscriber_no_replay demo_chan (Chan.mk 2 [1; 2; 3] 2 false) 3 [3]).
  eapply rtc_l; [apply (rx_send _ _ _ 3)|]. simpl.
  eapply rtc_l; [apply (rx_recv _ _ _ 3 3); vm_compute; reflexivity|]. simpl.
  apply rtc_refl.
Defined.

Lemma subscriber_no_lag_exact_witness :
  [3] = take (3 - Chan.tail demo_chan) (drop (Chan.tail demo_chan) [1; 2; 3]).
Proof.
  apply (subscriber_no_lag_exact demo_chan (Chan.mk 2 [1; 2; 3] 2 false) 3 [3]).
  eapply rtc_l; [apply (rxn_send _ _ _ 3)|]. simpl.
  eapply rtc_l; [apply (rxn_recv _ _ _ 3 3); vm_compute; reflexivity|]. simpl.
  apply rtc_refl.
Defined.

Lemma try_recv_lagged_iff_witness :
  (∃ k, (Chan.try_recv (Chan.mk 2 [1; 2; 3; 4] 1 false) 1).2 = RecvErr (Lagged k)) ↔
  1 + Chan.cap (Chan.mk 2 [1; 2; 3; 4] 1 false) < Chan.tail (Chan.mk 2 [1; 2; 3; 4] 1 false).
Proof. apply try_recv_lagged_iff. vm_compute. lia. Defined.

Definition demo_ops : list (Op nat) := [OpSend 1; OpSubscribe; OpSend 2; OpSend 3; OpDropRx; OpClose].

Lemma ring_run_try_recv_witness :
  (0 ≤ Chan.tail (chan_run (Chan.channel (Z.to_nat (2 ^ Z.of_nat 1))).1 demo_ops).1)%nat ∧
  Ring.try_recv (ring_run (Ring.channel 1).1 demo_ops).1 (Z.of_nat 0) =
  (Z.of_nat (Chan.try_recv (chan_run (Chan.channel (Z.to_nat (2 ^ Z.of_nat 1))).1 demo_ops).1 0).1,
   (Chan.try_recv (chan_run (Chan.channel (Z.to_nat (2 ^ Z.of_nat 1))).1 demo_ops).1 0).2).
Proof. split; [vm_compute; lia|]. apply ring_run_try_recv. vm_compute. lia. Defined.
