(* ===== verification/Decode.v ===== *)
(** * Decode: turning exchange messages into order books

    The connectors receive JSON text, which [Json] parses to the syntax tree
    [json] declared here; the decoders below are what [#[derive(Deserialize)]] generates
    for [BinanceOrderBook], [BitStampOrderBookWrapper], [BitStampOrderBook]
    and [OrderBookLevel], with the field deserializers [de_float_from_str] and
    [de_usize_from_str] of [data-streamer/src/model.rs].  [parse_usize] is
    [str::parse::<usize>] on a 64-bit target; [parse_f64] is
    [str::parse::<f64>] ([core::num::dec2flt]) in full: an optional sign,
    [inf], [infinity] or [nan] in any case, or digits with an optional point
    and an optional exponent whose value saturates ([parse_scientific]), the
    decimal being rounded once by [F64.dec2flt].

    Theorems: [parse_usize] reads back stdpp's decimal [pretty] of every
    number below [2^64] and rejects larger ones; the decoders give the same
    result on messages related by [json_perm] (object fields reordered at
    any depth); every decoded price and amount is a 64-bit pattern
    ([de_binance_wf], [de_bitstamp_wf]); the exponent stays below [655360]
    in absolute value ([parse_scientific_bounds]); a minus sign flips the
    sign bit of what follows ([parse_f64_neg]). *)

From stdpp Require Import base numbers list strings pretty.
From Stdlib Require Import ZArith Ascii String.
From S2P Require Import Prelude F64 Model.

Local Open Scope Z_scope.

(** A [serde_json] value.  A number is [JNum z] when [serde_json] reads it as
    an integer ([u64] for [0 <= z < 2^64], [i64] for [-2^63 <= z < 0]);
    any other number (a fraction, an exponent, [-0], an integer out of those
    ranges) is an [f64] for [serde_json], kept here as its literal text
    [JFloat]: no decoder of this program accepts one, so its value never
    matters. *)
#[warnings="-register-all"]
Inductive json :=
| JNull
| JBool (b : bool)
| JNum (z : Z)
| JFloat (lit : string)
| JStr (s : string)
| JArr (l : list json)
| JObj (fields : list (string * json)).

(** ** Numbers in strings *)

Definition digit_val (c : ascii) : option Z :=
  let n := nat_of_ascii c in
  if (48 <=? n)%nat && (n <=? 57)%nat then Some (Z.of_nat n - 48) else None.

(** The value of a non-empty string of decimal digits, accumulated left to
    right, with the number of digits. *)
Fixpoint digits_acc (s : string) (acc : Z) (n : nat) : option (Z * nat) :=
  match s with
  | EmptyString => Some (acc, n)
  | String c s' => d ← digit_val c; digits_acc s' (acc * 10 + d) (S n)
  end.

Definition parse_digits (s : string) : option (Z * nat) :=
  match s with EmptyString => None | _ => digits_acc s 0 0 end.

(** [usize::from_str]: an optional [+], then digits; overflow is an error. *)
Definition parse_usize (s : string) : option Z :=
  let body := match s with
              | String c s' => if decide (c = "+"%char) then s' else s
              | EmptyString => s
              end in
  '(v, _) ← parse_digits body;
  if v <? 2 ^ 64 then Some v else None.

(** ** [str::parse::<f64>] ([core::num::dec2flt])

    The text is an optional sign and then either [inf], [infinity] or [nan]
    in any case, or a decimal: digits, an optional ['.'] and digits (one
    digit at least in all), an optional exponent [e]/[E] with an optional
    sign and at least one digit.  Nothing may follow.  The decimal
    [m * 10^(x - n)], [n] the number of fraction digits, is rounded once
    ([dec2flt] of [F64]). *)

Definition is_digit (c : ascii) : bool :=
  let n := nat_of_ascii c in (48 <=? n)%nat && (n <=? 57)%nat.

(** The longest prefix of decimal digits, and the rest. *)
Fixpoint digits_run (s : string) : string * string :=
  match s with
  | String c s' => if is_digit c then let '(d, r) := digits_run s' in (String c d, r) else ("", s)
  | EmptyString => ("", "")
  end.

Definition digits_value (ds : string) : Z :=
  match digits_acc ds 0 0 with Some (v, _) => v | None => 0 end.

(** The optional sign of an exponent. *)
Definition exp_sign (s : string) : bool * string :=
  match s with
  | String c s' => if Ascii.eqb c "-"%char then (true, s') else if Ascii.eqb c "+"%char then (false, s') else (false, s)
  | EmptyString => (false, s)
  end.


(** [parse_scientific]: the exponent's digits are accumulated while the
    value is below [0x10000] and skipped after, so the exponent saturates. *)
Fixpoint sat_exp_acc (s : string) (acc : Z) : Z :=
  match s with
  | EmptyString => acc
  | String c s' =>
      sat_exp_acc s' (if acc <? 65536 then 10 * acc + (Z.of_nat (nat_of_ascii c) - 48) else acc)
  end.

Definition parse_scientific (s : string) : option (Z * string) :=
  let '(neg, s1) := exp_sign s in
  let '(ds, s2) := digits_run s1 in
  if String.eqb ds "" then None
  else let x := sat_exp_acc ds 0 in Some (if neg then - x else x, s2).

(** [parse_number]: the mantissa [m] and exponent [e] of [m * 10^e], when
    the whole text is a decimal. *)
Definition parse_decimal (s : string) : option (Z * Z) :=
  let '(ids, s1) := digits_run s in
  let '(fds, s2) := match s1 with
                    | String c s1' => if Ascii.eqb c "."%char then digits_run s1' else ("", s1)
                    | EmptyString => ("", s1)
                    end in
  if String.eqb (ids +:+ fds) "" then None
  else
    '(x, s3) ← match s2 with
               | String c s2' =>
                   if Ascii.eqb c "e"%char || Ascii.eqb c "E"%char then parse_scientific s2' else Some (0, s2)
               | EmptyString => Some (0, s2)
               end;
    if String.eqb s3 "" then Some (digits_value (ids +:+ fds), x - Z.of_nat (String.length fds))
    else None.

(** [eq_ignore_ascii_case]: ASCII letters compared in lower case. *)
Definition ascii_lower (c : ascii) : ascii :=
  let n := nat_of_ascii c in
  if (65 <=? n)%nat && (n <=? 90)%nat then ascii_of_nat (n + 32) else c.

Fixpoint string_lower (s : string) : string :=
  match s with
  | EmptyString => EmptyString
  | String c s' => String (ascii_lower c) (string_lower s')
  end.

(** [parse_inf_nan]: [f64::INFINITY] or [f64::NAN]. *)
Definition parse_inf_nan (s : string) : option f64 :=
  let l := string_lower s in
  if String.eqb l "inf" || String.eqb l "infinity" then Some f64_infinity
  else if String.eqb l "nan" then Some canonical_nan
  else None.

(** [dec2flt]: the sign, then a decimal or else [inf]/[nan]; a negative
    result is the negation of the positive one ([-0.0], [-inf], and [-NaN]
    with its sign bit set). *)
Definition parse_f64 (s : string) : option f64 :=
  match s with
  | EmptyString => None
  | String c s' =>
      let '(neg, body) := if Ascii.eqb c "-"%char then (true, s')
                          else if Ascii.eqb c "+"%char then (false, s') else (false, s) in
      if String.eqb body "" then None
      else
        x ← match parse_decimal body with
            | Some (m, e) => Some (dec2flt m e)
            | None => parse_inf_nan body
            end;
        Some (if neg then f64_neg x else x)
  end.

(** ** serde: fields, sequences, structs *)

(** The value of a field of a JSON object; a field given twice is an error
    ([duplicate field]), as in the derived [Deserialize]. *)
Definition json_field (name : string) (fields : list (string * json)) : option json :=
  match filter (λ kv, kv.1 = name) fields with
  | [(_, v)] => Some v
  | _ => None
  end.

Definition de_float_from_str (j : json) : option f64 :=
  match j with JStr s => parse_f64 s | _ => None end.

Definition de_usize_from_str (j : json) : option Z :=
  match j with JStr s => parse_usize s | _ => None end.

Definition de_usize (j : json) : option Z :=
  match j with JNum z => if (0 <=? z) && (z <? 2 ^ 64) then Some z else None | _ => None end.

Definition de_string (j : json) : option string :=
  match j with JStr s => Some s | _ => None end.

(** [OrderBookLevel]: a struct read from an object [{price, amount}] or a
    two-element array [[price, amount]]. *)
Definition de_level (j : json) : option OrderBookLevel :=
  match j with
  | JArr [p; a] => p' ← de_float_from_str p; a' ← de_float_from_str a; Some (mkOrderBookLevel p' a')
  | JObj fs =>
      p ← json_field "price" fs; a ← json_field "amount" fs;
      p' ← de_float_from_str p; a' ← de_float_from_str a; Some (mkOrderBookLevel p' a')
  | _ => None
  end.

Definition de_levels (j : json) : option (list OrderBookLevel) :=
  match j with JArr l => mapM de_level l | _ => None end.

Definition de_binance (j : json) : option BinanceOrderBook :=
  match j with
  | JObj fs =>
      u ← json_field "lastUpdateId" fs; b ← json_field "bids" fs; a ← json_field "asks" fs;
      u' ← de_usize u; b' ← de_levels b; a' ← de_levels a;
      Some (mkBinanceOrderBook u' b' a')
  | _ => None
  end.

Definition de_bitstamp_book (j : json) : option BitStampOrderBook :=
  match j with
  | JObj fs =>
      t ← json_field "timestamp" fs; m ← json_field "microtimestamp" fs;
      b ← json_field "bids" fs; a ← json_field "asks" fs;
      t' ← de_usize_from_str t; m' ← de_usize_from_str m; b' ← de_levels b; a' ← de_levels a;
      Some (mkBitStampOrderBook t' m' b' a')
  | _ => None
  end.

Definition de_bitstamp (j : json) : option BitStampOrderBookWrapper :=
  match j with
  | JObj fs =>
      e ← json_field "event" fs; c ← json_field "channel" fs; d ← json_field "data" fs;
      e' ← de_string e; c' ← de_string c; d' ← de_bitstamp_book d;
      Some (mkBitStampOrderBookWrapper e' c' d')
  | _ => None
  end.

(** [serde_json::from_str::<HashMap<String, Value>>]: any object; a repeated
    key keeps its last value. *)
Definition de_hashmap (j : json) : option (list (string * json)) :=
  match j with JObj fs => Some fs | _ => None end.

Definition hashmap_get (fs : list (string * json)) (k : string) : option json :=
  snd <$> last (filter (λ kv, kv.1 = k) fs).

(** ** Printing and parsing a [usize]

    [pretty] of stdpp renders an [N] in decimal as Rust's [Display] does for
    [usize]. *)

Lemma digit_val_pretty_char m : (m < 10)%N → digit_val (pretty_N_char m) = Some (Z.of_N m).
Proof.
  intros Hm. assert (m = 0 ∨ m = 1 ∨ m = 2 ∨ m = 3 ∨ m = 4 ∨ m = 5 ∨ m = 6 ∨ m = 7 ∨ m = 8 ∨ m = 9)%N
    as Hc by lia.
  by repeat destruct Hc as [->|Hc]; [..|subst].
Qed.

Lemma digits_acc_pretty_go x s acc k :
  ∃ d, digits_acc (pretty_N_go x s) acc k = digits_acc s (acc * 10 ^ Z.of_nat d + Z.of_N x) (k + d).
Proof.
  revert s acc k. induction (N.lt_wf_0 x) as [x _ IH]; intros s acc k.
  destruct (decide (x = 0%N)) as [->|Hx].
  { exists 0%nat. rewrite pretty_N_go_0, Nat.add_0_r. f_equal. lia. }
  rewrite pretty_N_go_step by lia.
  destruct (IH (x `div` 10)%N ltac:(apply N.div_lt; lia)
              (String (pretty_N_char (x `mod` 10)) s) acc k) as [d ->].
  exists (S d). simpl. rewrite digit_val_pretty_char by (apply N.mod_lt; lia). simpl.
  rewrite Nat.add_succ_r. f_equal.
  rewrite N2Z.inj_div, N2Z.inj_mod, Nat2Z.inj_succ, Z.pow_succ_r by lia.
  pose proof (Z.div_mod (Z.of_N x) 10 ltac:(lia)). simpl (Z.of_N 10). lia.
Qed.

Lemma parse_usize_digits s v d :
  s ≠ "" → digits_acc s 0 0 = Some (v, d) → parse_usize s = if v <? 2 ^ 64 then Some v else None.
Proof.
  intros Hne Hs. destruct s as [|c s']; [done|].
  unfold parse_usize. case_decide as Hc.
  - subst c. discriminate Hs.
  - unfold parse_digits. by rewrite Hs.
Qed.

Lemma pretty_N_go_nonempty n : n ≠ 0%N → pretty_N_go n "" ≠ "".
Proof.
  intros Hn E. destruct (digits_acc_pretty_go n "" 0 0) as [d Hd].
  rewrite E in Hd. simpl in Hd. injection Hd. lia.
Qed.

(** C32: [str::parse::<usize>] reads back the decimal rendering of every
    natural number below [2^64] and rejects (overflow) every one above: the
    Bitstamp [timestamp] and [microtimestamp] fields, which the exchange
    sends as decimal strings, decode to their value. *)
Theorem parse_usize_pretty (n : N) :
  parse_usize (pretty n) = if (n <? 2 ^ 64)%N then Some (Z.of_N n) else None.
Proof.
  unfold pretty, pretty_N. case_decide as H0; [by subst|].
  destruct (digits_acc_pretty_go n "" 0 0) as [d Hd]. simpl in Hd.
  rewrite (parse_usize_digits _ (Z.of_N n) d); [|by apply pretty_N_go_nonempty|rewrite Hd; do 2 f_equal; lia].
  destruct (N.ltb_spec n (2 ^ 64)), (Z.ltb_spec (Z.of_N n) (2 ^ 64)); try done; lia.
Qed.

(** ** Field order does not matter

    [json_perm j1 j2]: [j2] is [j1] with the fields of its objects reordered,
    at any depth.  A JSON object is a map for every producer the connectors
    talk to, so the decoders must not depend on the order of its fields. *)

Inductive json_perm : json → json → Prop :=
| jp_null : json_perm JNull JNull
| jp_bool b : json_perm (JBool b) (JBool b)
| jp_num z : json_perm (JNum z) (JNum z)
| jp_float s : json_perm (JFloat s) (JFloat s)
| jp_str s : json_perm (JStr s) (JStr s)
| jp_arr l1 l2 : Forall2 json_perm l1 l2 → json_perm (JArr l1) (JArr l2)
| jp_obj fs1 fs2 fs2' :
    Forall2 (λ kv1 kv2, kv1.1 = kv2.1 ∧ json_perm kv1.2 kv2.2) fs1 fs2' → fs2' ≡ₚ fs2 →
    json_perm (JObj fs1) (JObj fs2).

Definition fields_rel : list (string * json) → list (string * json) → Prop :=
  Forall2 (λ kv1 kv2, kv1.1 = kv2.1 ∧ json_perm kv1.2 kv2.2).

Definition single_value (l : list (string * json)) : option json :=
  match l with [(_, v)] => Some v | _ => None end.

Lemma json_field_single name fs : json_field name fs = single_value (filter (λ kv, kv.1 = name) fs).
Proof. unfold json_field, single_value. by repeat case_match. Qed.

Lemma fields_rel_filter name fs1 fs2 :
  fields_rel fs1 fs2 → fields_rel (filter (λ kv, kv.1 = name) fs1) (filter (λ kv, kv.1 = name) fs2).
Proof.
  induction 1 as [|kv1 kv2 fs1 fs2 [Hk Hv] _ IH]; [constructor|].
  rewrite !filter_cons, Hk. case_decide; [by constructor|done].
Qed.

Lemma single_value_rel l1 l2 : fields_rel l1 l2 → option_Forall2 json_perm (single_value l1) (single_value l2).
Proof.
  intros Hl. destruct Hl as [|[k1 v1] [k2 v2] l1 l2 [_ Hv] Hl]; [constructor|].
  destruct Hl as [|[] [] ? ? _ _]; simpl; by constructor.
Qed.

Lemma single_value_perm l1 l2 : l1 ≡ₚ l2 → single_value l1 = single_value l2.
Proof.
  intros Hp. destruct l1 as [|x [|y l1]].
  - by apply Permutation_nil_l in Hp as <-.
  - by apply Permutation_singleton_l in Hp as <-.
  - destruct l2 as [|x' [|y' l2]]; [| |destruct x, x'; reflexivity]; apply Permutation_length in Hp; simpl in Hp; lia.
Qed.

Lemma json_field_rel name fs1 fs2 fs2' :
  fields_rel fs1 fs2' → fs2' ≡ₚ fs2 → option_Forall2 json_perm (json_field name fs1) (json_field name fs2).
Proof.
  intros Hr Hp. rewrite !json_field_single.
  rewrite (single_value_perm (filter (λ kv, kv.1 = name) fs2) (filter (λ kv, kv.1 = name) fs2')) by (by rewrite Hp).
  by apply single_value_rel, fields_rel_filter.
Qed.

Lemma bind_rel {A B C} (R : A → B → Prop) (o1 : option A) (o2 : option B) (f : A → option C) g :
  option_Forall2 R o1 o2 → (∀ x y, R x y → f x = g y) → (o1 ≫= f) = (o2 ≫= g).
Proof. intros [x y Hxy|] Hfg; simpl; auto. Qed.

Lemma mapM_rel {A B} (R : A → A → Prop) (f : A → option B) l1 l2 :
  (∀ x y, R x y → f x = f y) → Forall2 R l1 l2 → mapM f l1 = mapM f l2.
Proof. intros Hf. induction 1 as [|x y l1 l2 Hxy _ IH]; [done|]. simpl. by rewrite (Hf x y Hxy), IH. Qed.

(** The value of a field, in two objects related by [json_perm]. *)
Ltac with_field Hr Hp Hx :=
  eapply bind_rel; [eapply json_field_rel; [exact Hr|exact Hp]|]; intros ?? Hx.

Ltac scalar_perm := intros Hj; inversion Hj; subst; done.

Lemma de_float_from_str_perm j1 j2 : json_perm j1 j2 → de_float_from_str j1 = de_float_from_str j2.
Proof. scalar_perm. Qed.
Lemma de_usize_from_str_perm j1 j2 : json_perm j1 j2 → de_usize_from_str j1 = de_usize_from_str j2.
Proof. scalar_perm. Qed.
Lemma de_usize_perm j1 j2 : json_perm j1 j2 → de_usize j1 = de_usize j2.
Proof. scalar_perm. Qed.
Lemma de_string_perm j1 j2 : json_perm j1 j2 → de_string j1 = de_string j2.
Proof. scalar_perm. Qed.

Lemma de_level_perm j1 j2 : json_perm j1 j2 → de_level j1 = de_level j2.
Proof.
  destruct 1 as [| | | | |l1 l2 Hl|fs1 fs2 fs2' Hr Hp]; try done.
  - destruct Hl as [|p1 p2 l1 l2 Hpp Hl]; [done|].
    destruct Hl as [|a1 a2 l1 l2 Ha Hl]; [done|]. destruct Hl; [|done]. simpl.
    by rewrite (de_float_from_str_perm _ _ Hpp), (de_float_from_str_perm _ _ Ha).
  - simpl. with_field Hr Hp Hpp. with_field Hr Hp Ha.
    by rewrite (de_float_from_str_perm _ _ Hpp), (de_float_from_str_perm _ _ Ha).
Qed.

Lemma de_levels_perm j1 j2 : json_perm j1 j2 → de_levels j1 = de_levels j2.
Proof. destruct 1; try done. simpl. by eapply mapM_rel; [apply de_level_perm|]. Qed.

Lemma de_bitstamp_book_perm j1 j2 : json_perm j1 j2 → de_bitstamp_book j1 = de_bitstamp_book j2.
Proof.
  destruct 1 as [| | | | | |fs1 fs2 fs2' Hr Hp]; try done. simpl.
  with_field Hr Hp Ht. with_field Hr Hp Hm. with_field Hr Hp Hb. with_field Hr Hp Ha.
  by rewrite (de_usize_from_str_perm _ _ Ht), (de_usize_from_str_perm _ _ Hm),
    (de_levels_perm _ _ Hb), (de_levels_perm _ _ Ha).
Qed.

(** C30: The derived decoders of the two exchange messages do not depend on
    the order of the fields of any JSON object in the message: reordering
    fields, at any depth, gives the same decoded book or the same error. *)
Theorem decode_field_order j1 j2 :
  json_perm j1 j2 → de_binance j1 = de_binance j2 ∧ de_bitstamp j1 = de_bitstamp j2.
Proof.
  destruct 1 as [| | | | | |fs1 fs2 fs2' Hr Hp]; try done. simpl. split.
  - with_field Hr Hp Hu. with_field Hr Hp Hb. with_field Hr Hp Ha.
    by rewrite (de_usize_perm _ _ Hu), (de_levels_perm _ _ Hb), (de_levels_perm _ _ Ha).
  - with_field Hr Hp He. with_field Hr Hp Hc. with_field Hr Hp Hd.
    by rewrite (de_string_perm _ _ He), (de_string_perm _ _ Hc), (de_bitstamp_book_perm _ _ Hd).
Qed.

(** A Binance depth message and the same message with its fields in another
    order (the [Deserialize] derive accepts any order). *)
Definition binance_msg : json :=
  JObj [("lastUpdateId", JNum 160); ("bids", JArr [JArr [JStr "0.0024"; JStr "10"]]);
        ("asks", JArr [JArr [JStr "0.0026"; JStr "100"]])].
Definition binance_msg_reordered : json :=
  JObj [("asks", JArr [JArr [JStr "0.0026"; JStr "100"]]); ("lastUpdateId", JNum 160);
        ("bids", JArr [JArr [JStr "0.0024"; JStr "10"]])].

Lemma decode_field_order_witness :
  json_perm binance_msg binance_msg_reordered ∧
  de_binance binance_msg = de_binance binance_msg_reordered ∧
  de_bitstamp binance_msg = de_bitstamp binance_msg_reordered.
Proof.
  assert (json_perm binance_msg binance_msg_reordered) as Hj.
  { unfold binance_msg, binance_msg_reordered.
    apply (jp_obj _ _ (match binance_msg with JObj fs => fs | _ => [] end));
      [repeat constructor | simpl; solve_Permutation]. }
  split; [exact Hj|]. apply decode_field_order. exact Hj.
Defined.

(** ** Decoded digits are non-negative *)

Lemma digits_acc_nonneg s acc k v d : 0 ≤ acc → digits_acc s acc k = Some (v, d) → 0 ≤ v.
Proof.
  revert acc k. induction s as [|c s IH]; intros acc k Hacc Hs; cbn [digits_acc] in Hs.
  - by injection Hs as <- _.
  - unfold digit_val in Hs.
    destruct ((48 <=? nat_of_ascii c)%nat && _) eqn:Hc; [|done]. cbn [mbind option_bind] in Hs.
    apply andb_prop in Hc as [Hc%Nat.leb_le _]. eapply IH; [|exact Hs]. lia.
Qed.

(** ** Decoded prices and amounts are 64-bit patterns *)

Lemma digits_value_nonneg ds : 0 ≤ digits_value ds.
Proof.
  unfold digits_value. destruct (digits_acc ds 0 0) as [[v d]|] eqn:Hd; [|lia].
  by apply (digits_acc_nonneg ds 0 0 v d).
Qed.

Lemma parse_decimal_nonneg s m e : parse_decimal s = Some (m, e) → 0 ≤ m.
Proof.
  unfold parse_decimal. intros H. repeat case_match; simplify_option_eq;
    try (destruct select (Z * string)%type; case_match); simplify_option_eq; apply digits_value_nonneg.
Qed.

Lemma parse_inf_nan_wf s b : parse_inf_nan s = Some b → f64_wf b.
Proof.
  unfold parse_inf_nan. repeat case_match; intros; simplify_eq;
    unfold f64_wf, f64_infinity, canonical_nan; lia.
Qed.

Lemma parse_f64_wf s b : parse_f64 s = Some b → f64_wf b.
Proof.
  assert (∀ body x, match parse_decimal body with Some (m, e) => Some (dec2flt m e)
                    | None => parse_inf_nan body end = Some x → f64_wf x) as Hbody.
  { intros body x. destruct (parse_decimal body) as [[m e]|] eqn:Hd; [|apply parse_inf_nan_wf].
    intros [= <-]. by eapply dec2flt_wf, parse_decimal_nonneg. }
  unfold parse_f64. destruct s as [|c s']; [done|].
  destruct (if Ascii.eqb c "-"%char then _ else _) as [neg body].
  destruct (String.eqb body ""); [done|]. intros Hs.
  destruct (match parse_decimal body with Some _ => _ | None => _ end) as [x|] eqn:Hx; [|done].
  apply Hbody in Hx. destruct neg; simplify_option_eq; auto using f64_neg_wf.
Qed.

Lemma de_level_wf j l : de_level j = Some l → level_wf l.
Proof.
  assert (∀ j x, de_float_from_str j = Some x → f64_wf x) as Hf
    by (intros [| | | | | |] x; try done; apply parse_f64_wf).
  destruct j as [| | | | |ls|fs]; cbn [de_level]; try done;
    repeat case_match; intros; simplify_option_eq; split; eauto.
Qed.

Lemma de_levels_wf j ls : de_levels j = Some ls → Forall level_wf ls.
Proof.
  destruct j as [| | | | |l|]; try done. cbn [de_levels]. intros Hl%mapM_Some.
  induction Hl; constructor; eauto using de_level_wf.
Qed.

Lemma de_binance_wf j b : de_binance j = Some b → Forall level_wf (bn_bids b) ∧ Forall level_wf (bn_asks b).
Proof.
  destruct j as [| | | | | |fs]; try done. cbn [de_binance]. intros.
  simplify_option_eq. split; eauto using de_levels_wf.
Qed.

Lemma de_bitstamp_wf j w :
  de_bitstamp j = Some w → Forall level_wf (bs_bids (data w)) ∧ Forall level_wf (bs_asks (data w)).
Proof.
  destruct j as [| | | | | |fs]; try done. cbn [de_bitstamp]. intros.
  simplify_option_eq. match goal with H : de_bitstamp_book ?d = Some _ |- _ => destruct d as [| | | | | |gs] end;
    try discriminate. cbn [de_bitstamp_book] in *.
  simplify_option_eq. split; eauto using de_levels_wf.
Qed.

(** ** The exponent of a float literal saturates *)

Lemma sat_exp_acc_bound s acc : 0 ≤ acc < 655360 → 0 ≤ sat_exp_acc (digits_run s).1 acc < 655360.
Proof.
  revert acc. induction s as [|c s IH]; intros acc Hacc; simpl; [lia|].
  destruct (is_digit c) eqn:Hc; simpl; [|lia].
  destruct (digits_run s) as [d r] eqn:E. simpl in *. apply IH.
  unfold is_digit in Hc. apply andb_prop in Hc as [Hlo%Nat.leb_le Hhi%Nat.leb_le].
  destruct (Z.ltb_spec acc 65536); lia.
Qed.

(** C29: [parse_scientific] keeps the exponent within [(-655360, 655360)]
    however many digits it has (digits read once the value reaches [0x10000]
    are skipped), so its [i64] arithmetic never overflows. *)
Theorem parse_scientific_bounds s x r : parse_scientific s = Some (x, r) → -655360 < x < 655360.
Proof.
  unfold parse_scientific. destruct (exp_sign s) as [neg s1].
  pose proof (sat_exp_acc_bound s1 0 ltac:(lia)) as Hb.
  destruct (digits_run s1) as [ds s2]. simpl in Hb.
  destruct (String.eqb ds ""); [done|]. intros [= <- _]. destruct neg; lia.
Qed.

Lemma parse_scientific_bounds_witness :
  parse_scientific "99999999999999999999" = Some (99999, "") ∧ -655360 < 99999 < 655360.
Proof.
  split; [reflexivity|]. apply (parse_scientific_bounds "99999999999999999999" _ ""). reflexivity.
Defined.

(** ** The sign of a float literal *)

(** A leading minus gives the sign-flipped bits of what the rest reads
    to, for decimals, [inf] and [nan] alike ([-0] is negative zero, [-nan]
    a NaN with its sign bit set). *)
Theorem parse_f64_neg body :
  (∀ c s, body = String c s → c ≠ "-"%char ∧ c ≠ "+"%char) →
  parse_f64 (String "-" body) = f64_neg <$> parse_f64 body.
Proof.
  intros Hc. destruct body as [|c s]; [done|]. destruct (Hc c s eq_refl) as [Hm Hp].
  cbn [parse_f64]. rewrite (proj2 (Ascii.eqb_neq c "-") Hm), (proj2 (Ascii.eqb_neq c "+") Hp). simpl.
  destruct (match parse_decimal (String c s) with Some _ => _ | None => _ end); done.
Qed.

Lemma parse_f64_neg_witness : parse_f64 "-0.5" = f64_neg <$> parse_f64 "0.5".
Proof. apply parse_f64_neg. intros c s [= <- <-]. split; discriminate. Defined.
