(* ===== verification/Json.v ===== *)
(** * Json: the JSON text of the exchange messages

    The connectors receive text frames and read them with [serde_json]:
    [serde_json::from_str::<BinanceOrderBook>(&msg)],
    [serde_json::from_str::<HashMap<String, Value>>(&msg)] and
    [serde_json::from_str::<BitStampOrderBookWrapper>(&msg)] in
    [data-streamer/src/lib.rs]; the Bitstamp subscription is
    [json!({..}).to_string()].  This file models the text layer of those
    calls, as [serde_json] implements it ([de.rs], [read.rs], [ser.rs]):

    - [json_parse]: [from_str] without the target type: whitespace (space,
      tab, line feed, carriage return), the literals, strings with their
      escapes ([\uXXXX] with UTF-16 surrogate pairs, encoded to UTF-8; a
      control character or a lone surrogate is an error), numbers (no
      leading zero, a fraction and an exponent need a digit; an integer is a
      [u64] or [i64] when it fits, other numbers are [f64] and an error when
      that [f64] is infinite), arrays and objects (no trailing comma, keys
      are strings), the recursion limit of 128, and no trailing characters.
      The result is the syntax tree [json] of [Decode], fields in text order
      with repetitions, which the derived decoders of [Decode] then read as
      the typed [from_str] does.
    - [json_print]: [Value]'s compact [to_string]: strings escaped as
      [format_escaped_str] does, integers in decimal.

    [parse_value] recurses on a fuel: [json_parse] gives it the length of
    the text plus one, and [json_parse_fuel] shows that this never runs out.
    [json_print_parse] is the round trip. *)

From stdpp Require Import base numbers list strings pretty.
From Stdlib Require Import ZArith Ascii String.
From S2P Require Import Prelude Decode.

Local Open Scope Z_scope.

(** ** Characters *)

Definition dq : ascii := ascii_of_nat 34.
Definition bs : ascii := ascii_of_nat 92.

Definition is_ws (c : ascii) : bool :=
  let n := nat_of_ascii c in (n =? 32)%nat || (n =? 10)%nat || (n =? 9)%nat || (n =? 13)%nat.

Fixpoint skip_ws (s : string) : string :=
  match s with
  | String c s' => if is_ws c then skip_ws s' else s
  | EmptyString => s
  end.

Definition hex_val (c : ascii) : option Z :=
  let n := Z.of_nat (nat_of_ascii c) in
  if (48 <=? n) && (n <=? 57) then Some (n - 48)
  else if (97 <=? n) && (n <=? 102) then Some (n - 87)
  else if (65 <=? n) && (n <=? 70) then Some (n - 55)
  else None.

(** [decode_hex_escape]: four hex digits. *)
Definition hex4 (a b c d : ascii) : option Z :=
  a' ← hex_val a; b' ← hex_val b; c' ← hex_val c; d' ← hex_val d;
  Some (Z.lor (Z.shiftl a' 12) (Z.lor (Z.shiftl b' 8) (Z.lor (Z.shiftl c' 4) d'))).

Definition byte (n : Z) : ascii := ascii_of_nat (Z.to_nat n).

(** [char::encode_utf8]. *)
Definition utf8 (cp : Z) : string :=
  if cp <? 128 then String (byte cp) ""
  else if cp <? 2048 then
    String (byte (Z.lor 192 (Z.shiftr cp 6))) (String (byte (Z.lor 128 (Z.land cp 63))) "")
  else if cp <? 65536 then
    String (byte (Z.lor 224 (Z.shiftr cp 12)))
      (String (byte (Z.lor 128 (Z.land (Z.shiftr cp 6) 63))) (String (byte (Z.lor 128 (Z.land cp 63))) ""))
  else
    String (byte (Z.lor 240 (Z.shiftr cp 18)))
      (String (byte (Z.lor 128 (Z.land (Z.shiftr cp 12) 63)))
        (String (byte (Z.lor 128 (Z.land (Z.shiftr cp 6) 63))) (String (byte (Z.lor 128 (Z.land cp 63))) ""))).

(** The one-character escapes: a backslash followed by a quote, a backslash,
    a slash, [b], [f], [n], [r] or [t]. *)
Definition escape_byte (e : ascii) : option ascii :=
  let n := nat_of_ascii e in
  if (n =? 34)%nat then Some dq
  else if (n =? 92)%nat then Some bs
  else if (n =? 47)%nat then Some "/"%char
  else if (n =? 98)%nat then Some (ascii_of_nat 8)
  else if (n =? 102)%nat then Some (ascii_of_nat 12)
  else if (n =? 110)%nat then Some (ascii_of_nat 10)
  else if (n =? 114)%nat then Some (ascii_of_nat 13)
  else if (n =? 116)%nat then Some (ascii_of_nat 9)
  else None.

Definition is_surrogate_lo (n : Z) : bool := (56320 <=? n) && (n <=? 57343).
Definition is_surrogate_hi (n : Z) : bool := (55296 <=? n) && (n <=? 56319).

(** [parse_str] after the opening quote: the bytes of the string and the
    text after the closing quote. *)
Fixpoint parse_chars (s : string) : option (string * string) :=
  match s with
  | EmptyString => None
  | String c s1 =>
      if Ascii.eqb c dq then Some (EmptyString, s1)
      else if Ascii.eqb c bs then
        match s1 with
        | EmptyString => None
        | String e s2 =>
            match escape_byte e with
            | Some b => '(t, r) ← parse_chars s2; Some (String b t, r)
            | None =>
                if Ascii.eqb e "u"%char then
                  match s2 with
                  | String h1 (String h2 (String h3 (String h4 s3))) =>
                      n ← hex4 h1 h2 h3 h4;
                      if is_surrogate_lo n then None
                      else if is_surrogate_hi n then
                        match s3 with
                        | String b1 (String u1 (String k1 (String k2 (String k3 (String k4 s4))))) =>
                            if Ascii.eqb b1 bs && Ascii.eqb u1 "u"%char then
                              n2 ← hex4 k1 k2 k3 k4;
                              if is_surrogate_lo n2 then
                                '(t, r) ← parse_chars s4;
                                Some (utf8 (Z.lor (Z.shiftl (n - 55296) 10) (n2 - 56320) + 65536) +:+ t, r)
                              else None
                            else None
                        | _ => None
                        end
                      else '(t, r) ← parse_chars s3; Some (utf8 n +:+ t, r)
                  | _ => None
                  end
                else None
            end
        end
      else if (nat_of_ascii c <? 32)%nat then None
      else '(t, r) ← parse_chars s1; Some (String c t, r)
  end.

(** ** Numbers *)

(** [f64] overflow: a positive decimal [m * 10^e] rounds to infinity when it
    is at least [2^1024 - 2^970], half way between [f64::MAX] and [2^1024]
    (ties go to the even neighbour, [2^1024]). *)
Definition f64_overflow_bound : Z := 2 ^ 1024 - 2 ^ 970.

Definition decimal_overflows (m e : Z) : bool :=
  if m =? 0 then false
  else
    let nd := Z.of_nat (String.length (pretty (Z.to_N m))) in
    if nd + e <=? 308 then false
    else if 309 <=? nd - 1 + e then true
    else if 0 <=? e then f64_overflow_bound <=? m * 10 ^ e
    else f64_overflow_bound * 10 ^ (- e) <=? m.

(** The optional exponent [e], [E] with an optional sign and at least one
    digit; [None] when malformed. *)
Definition exp_part (s : string) : option (Z * string) :=
  match s with
  | String e s1 =>
      if Ascii.eqb e "e"%char || Ascii.eqb e "E"%char then
        let '(neg, s2) := exp_sign s1 in
        let '(ds, s3) := digits_run s2 in
        if String.eqb ds "" then None
        else Some (if neg then - digits_value ds else digits_value ds, s3)
      else Some (0, s)
  | EmptyString => Some (0, s)
  end.

(** The optional fraction: its digits, then the exponent. *)
Definition frac_exp (s : string) : option (string * Z * string) :=
  match s with
  | String c s1 =>
      if Ascii.eqb c "."%char then
        let '(ds, s2) := digits_run s1 in
        if String.eqb ds "" then None
        else '(e, s3) ← exp_part s2; Some (ds, e, s3)
      else '(e, s3) ← exp_part s; Some ("", e, s3)
  | EmptyString => Some ("", 0, s)
  end.

Inductive presult (A : Type) := POk (a : A) (rest : string) | PErr | PFuel.
Arguments POk {A} a rest.
Arguments PErr {A}.
Arguments PFuel {A}.

Definition starts_float (s : string) : bool :=
  match s with
  | String c _ => Ascii.eqb c "."%char || Ascii.eqb c "e"%char || Ascii.eqb c "E"%char
  | EmptyString => false
  end.

(** The optional minus sign of a number. *)
Definition num_sign (s : string) : bool * string :=
  match s with
  | String c s' => if Ascii.eqb c "-"%char then (true, s') else (false, s)
  | EmptyString => (false, s)
  end.

(** [parse_integer]/[parse_number]: an optional minus, the integer part
    ([0] alone or no leading zero), then a fraction and an exponent.  An
    integer is a [u64] ([0 <= v < 2^64]) or a negative [i64]
    ([-2^63 <= -v < 0]); [-0], larger integers and numbers with a fraction
    or an exponent are [f64]: an error when infinite, else [JFloat]. *)
Definition parse_number (s : string) : presult json :=
  let '(neg, s1) := num_sign s in
  let '(ids, s2) := digits_run s1 in
  match ids with
  | EmptyString => PErr
  | String d0 ids' =>
      if Ascii.eqb d0 "0"%char && negb (String.eqb ids' "") then PErr
      else
        match frac_exp s2 with
        | None => PErr
        | Some (fds, e, s3) =>
            let lit := substring 0 (String.length s - String.length s3) s in
            let v := digits_value ids in
            let float := if decimal_overflows (digits_value (ids +:+ fds)) (e - Z.of_nat (String.length fds))
                         then PErr else POk (JFloat lit) s3 in
            if starts_float s2 then float
            else if neg then (if (v =? 0) || (2 ^ 63 <? v) then float else POk (JNum (- v)) s3)
            else if v <? 2 ^ 64 then POk (JNum v) s3 else float
        end
  end.

(** ** Values *)

Fixpoint strip_prefix (p s : string) : option string :=
  match p, s with
  | EmptyString, _ => Some s
  | String a p', String b s' => if Ascii.eqb a b then strip_prefix p' s' else None
  | String _ _, EmptyString => None
  end.

(** [parse_ident]: the rest of [null], [true] or [false]. *)
Definition parse_ident (p : string) (v : json) (s : string) : presult json :=
  match strip_prefix p s with Some r => POk v r | None => PErr end.

(** [peek] and [eat_char]: the text after [c] when it comes next. *)
Definition starts_with (c : ascii) (s : string) : option string :=
  match s with String c' r => if Ascii.eqb c' c then Some r else None | EmptyString => None end.

(** [parse_value fuel depth s]: one value after optional whitespace;
    [depth] is [remaining_depth], which entering an array or an object
    decrements and which must not reach 0 ([RecursionLimitExceeded]).
    [parse_elems] and [parse_fields] read the rest of an array or object
    after its first element ([, value] until the closing bracket),
    [parse_member] one [key : value] pair. *)
Fixpoint parse_value (fuel depth : nat) (s : string) {struct fuel} : presult json :=
  match fuel with
  | O => PFuel
  | S k =>
      match skip_ws s with
      | EmptyString => PErr
      | String c s1 =>
          if Ascii.eqb c "n"%char then parse_ident "ull" JNull s1
          else if Ascii.eqb c "t"%char then parse_ident "rue" (JBool true) s1
          else if Ascii.eqb c "f"%char then parse_ident "alse" (JBool false) s1
          else if Ascii.eqb c dq then
            match parse_chars s1 with Some (t, r) => POk (JStr t) r | None => PErr end
          else if Ascii.eqb c "["%char then
            match depth with
            | O | S O => PErr
            | S d =>
                match starts_with "]" (skip_ws s1) with
                | Some r => POk (JArr []) r
                | None => match parse_value k d s1 with
                          | POk v r => parse_elems k d r [v]
                          | PErr => PErr
                          | PFuel => PFuel
                          end
                end
            end
          else if Ascii.eqb c "{"%char then
            match depth with
            | O | S O => PErr
            | S d =>
                match starts_with "}" (skip_ws s1) with
                | Some r => POk (JObj []) r
                | None => match parse_member k d s1 with
                          | POk kv r => parse_fields k d r [kv]
                          | PErr => PErr
                          | PFuel => PFuel
                          end
                end
            end
          else if Ascii.eqb c "-"%char || is_digit c then parse_number (String c s1)
          else PErr
      end
  end
with parse_elems (fuel depth : nat) (s : string) (acc : list json) {struct fuel} : presult json :=
  match fuel with
  | O => PFuel
  | S k =>
      match starts_with "]" (skip_ws s) with
      | Some r => POk (JArr (reverse acc)) r
      | None =>
          match starts_with "," (skip_ws s) with
          | Some r =>
              match parse_value k depth r with
              | POk v r' => parse_elems k depth r' (v :: acc)
              | PErr => PErr
              | PFuel => PFuel
              end
          | None => PErr
          end
      end
  end
with parse_member (fuel depth : nat) (s : string) {struct fuel} : presult (string * json) :=
  match fuel with
  | O => PFuel
  | S k =>
      match starts_with dq (skip_ws s) with
      | Some s1 =>
          match parse_chars s1 with
          | Some (key, r) =>
              match starts_with ":" (skip_ws r) with
              | Some r' =>
                  match parse_value k depth r' with
                  | POk v r'' => POk (key, v) r''
                  | PErr => PErr
                  | PFuel => PFuel
                  end
              | None => PErr
              end
          | None => PErr
          end
      | None => PErr
      end
  end
with parse_fields (fuel depth : nat) (s : string) (acc : list (string * json)) {struct fuel}
  : presult json :=
  match fuel with
  | O => PFuel
  | S k =>
      match starts_with "}" (skip_ws s) with
      | Some r => POk (JObj (reverse acc)) r
      | None =>
          match starts_with "," (skip_ws s) with
          | Some r =>
              match parse_member k depth r with
              | POk kv r' => parse_fields k depth r' (kv :: acc)
              | PErr => PErr
              | PFuel => PFuel
              end
          | None => PErr
          end
      end
  end.

(** The recursion limit [serde_json] starts with. *)
Definition recursion_limit : nat := 128.

(** [serde_json::from_str]: one value, then only whitespace ([end()]). *)
Definition json_parse (s : string) : option json :=
  match parse_value (S (String.length s)) recursion_limit s with
  | POk v r => if String.eqb (skip_ws r) "" then Some v else None
  | _ => None
  end.

(** ** Printing *)

Definition hex_digit (n : nat) : ascii := if (n <? 10)%nat then ascii_of_nat (48 + n) else ascii_of_nat (87 + n).

(** [format_escaped_str]: the quote and the backslash are escaped, control
    characters as [\b \t \n \f \r] or [\u00XX] (lower-case hex); every other
    byte is written as is. *)
Definition escape_out (c : ascii) : string :=
  let n := nat_of_ascii c in
  if (n =? 34)%nat then String bs (String dq "")
  else if (n =? 92)%nat then String bs (String bs "")
  else if (n =? 8)%nat then String bs "b"
  else if (n =? 9)%nat then String bs "t"
  else if (n =? 10)%nat then String bs "n"
  else if (n =? 12)%nat then String bs "f"
  else if (n =? 13)%nat then String bs "r"
  else if (n <? 32)%nat then String bs ("u00" +:+ String (hex_digit (n / 16)) (String (hex_digit (n mod 16)) ""))
  else String c "".

Fixpoint print_chars (s : string) : string :=
  match s with EmptyString => "" | String c s' => escape_out c +:+ print_chars s' end.

Definition print_str (s : string) : string := String dq (print_chars s +:+ String dq "").

(** [itoa]: an integer in decimal. *)
Definition print_int (z : Z) : string :=
  if z <? 0 then "-" +:+ pretty (Z.to_N (- z)) else pretty (Z.to_N z).

(** The compact formatter writes a comma between the elements of an array or
    the members of an object. *)
Definition print_seq (l : list string) : string :=
  match l with [] => "" | x :: xs => x +:+ foldr (λ y acc, "," +:+ y +:+ acc) "" xs end.

(** [Value]'s [to_string]: the compact serialization.  A [JFloat] is written
    as its literal; the program never serializes a float. *)
Fixpoint json_print (j : json) : string :=
  match j with
  | JNull => "null"
  | JBool true => "true"
  | JBool false => "false"
  | JNum z => print_int z
  | JFloat lit => lit
  | JStr s => print_str s
  | JArr l => "[" +:+ print_seq (map json_print l) +:+ "]"
  | JObj fs => "{" +:+ print_seq (map (λ kv, print_str kv.1 +:+ ":" +:+ json_print kv.2) fs) +:+ "}"
  end.

(** ** Fuel *)

(** Case analysis on everything but the recursive calls. *)
Ltac split_nonrec :=
  match goal with
  | |- context [match ?x with _ => _ end] =>
      lazymatch x with
      | parse_value _ _ _ => fail | parse_elems _ _ _ _ => fail
      | parse_member _ _ _ => fail | parse_fields _ _ _ _ => fail
      | _ => destruct x eqn:?
      end
  end.

Lemma parse_fuel_mono n :
  (∀ d s m, parse_value n d s ≠ PFuel → parse_value (n + m) d s = parse_value n d s) ∧
  (∀ d s acc m, parse_elems n d s acc ≠ PFuel → parse_elems (n + m) d s acc = parse_elems n d s acc) ∧
  (∀ d s m, parse_member n d s ≠ PFuel → parse_member (n + m) d s = parse_member n d s) ∧
  (∀ d s acc m, parse_fields n d s acc ≠ PFuel → parse_fields (n + m) d s acc = parse_fields n d s acc).
Proof.
  induction n as [|n IH]; [split_and!; by intros|].
  destruct IH as (IHv & IHe & IHm & IHf).
  split_and!; intros; revert select (_ ≠ PFuel); cbn [Nat.add parse_value parse_elems parse_member parse_fields];
    repeat split_nonrec; try done;
    repeat match goal with
    | |- context [parse_value (n + ?m) ?d ?s] =>
        let E := fresh "E" in destruct (parse_value n d s) eqn:E;
        [rewrite (IHv d s m) by (by rewrite E); rewrite E|rewrite (IHv d s m) by (by rewrite E); rewrite E|
         let HH := fresh in intros HH; exfalso; by apply HH]
    | |- context [parse_member (n + ?m) ?d ?s] =>
        let E := fresh "E" in destruct (parse_member n d s) eqn:E;
        [rewrite (IHm d s m) by (by rewrite E); rewrite E|rewrite (IHm d s m) by (by rewrite E); rewrite E|
         let HH := fresh in intros HH; exfalso; by apply HH]
    end; try done; first [apply IHe|apply IHf].
Qed.

(** ** The rest of the input is shorter *)

Lemma skip_ws_length s : (String.length (skip_ws s) ≤ String.length s)%nat.
Proof. induction s as [|c s IH]; simpl; [lia|]. destruct (is_ws c); simpl; lia. Qed.

Lemma starts_with_inv c s r : starts_with c s = Some r → s = String c r.
Proof. destruct s as [|c' s]; simpl; [done|]. destruct (Ascii.eqb_spec c' c); naive_solver. Qed.

Lemma starts_with_length c s r : starts_with c s = Some r → (String.length r < String.length s)%nat.
Proof. intros ->%starts_with_inv. simpl. lia. Qed.

Lemma digits_run_app s : s = (digits_run s).1 +:+ (digits_run s).2.
Proof.
  induction s as [|c s IH]; simpl; [done|]. destruct (is_digit c); [|done].
  rewrite IH at 1. by destruct (digits_run s).
Qed.

Lemma length_app_string s1 s2 : String.length (s1 +:+ s2) = (String.length s1 + String.length s2)%nat.
Proof. induction s1 as [|c s1 IH]; simpl; [done|]. by rewrite IH. Qed.

Lemma digits_run_length s d r :
  digits_run s = (d, r) → (String.length r + String.length d = String.length s)%nat.
Proof. intros E. rewrite (digits_run_app s), E, length_app_string. simpl. lia. Qed.

Lemma exp_part_length s e r : exp_part s = Some (e, r) → (String.length r ≤ String.length s)%nat.
Proof.
  unfold exp_part. destruct s as [|c s1]; [naive_solver|].
  destruct (_ || _); [|naive_solver].
  destruct (exp_sign s1) as [neg s2] eqn:Hs2.
  destruct (digits_run s2) as [ds s3] eqn:Hd. apply digits_run_length in Hd.
  destruct (String.eqb ds ""); [done|]. intros [= _ <-].
  assert (String.length s2 ≤ String.length s1)%nat
    by (destruct s1; simpl in Hs2; repeat case_match; simplify_eq/=; lia).
  simpl. lia.
Qed.

Lemma frac_exp_length s f e r : frac_exp s = Some (f, e, r) → (String.length r ≤ String.length s)%nat.
Proof.
  unfold frac_exp. destruct s as [|c s1]; [naive_solver|].
  destruct (Ascii.eqb c "."); [|destruct (exp_part _) as [[e' r']|] eqn:He; [|done]; intros [= _ _ <-];
                                by eapply exp_part_length].
  destruct (digits_run s1) as [ds s2] eqn:Hd. apply digits_run_length in Hd.
  destruct (String.eqb ds ""); [done|]. destruct (exp_part s2) as [[e' r']|] eqn:He; [|done].
  intros [= _ _ <-]. apply exp_part_length in He. simpl. lia.
Qed.

(** A recursive call of [parse_chars] on a shorter string. *)
Ltac rec_call IH :=
  match goal with
  | |- context [parse_chars ?x] =>
      let E := fresh "E" in
      destruct (parse_chars x) as [[??]|] eqn:E; simpl; [|done]; intros [= _ <-];
      pose proof (IH x ltac:(simpl; lia) _ _ E); simpl; lia
  end.

Lemma parse_chars_length s t r : parse_chars s = Some (t, r) → (String.length r < String.length s)%nat.
Proof.
  revert t r. induction s as [s IH] using (induction_ltof1 _ String.length). unfold ltof in IH.
  intros t r. destruct s as [|c s1]; [done|]. cbn [parse_chars].
  destruct (Ascii.eqb c dq); [intros [= _ <-]; simpl; lia|].
  destruct (Ascii.eqb c bs).
  - destruct s1 as [|e s2]; [done|]. destruct (escape_byte e); [rec_call IH|].
    destruct (Ascii.eqb e "u"); [|done]. destruct s2 as [|h1 [|h2 [|h3 [|h4 s3]]]]; try done.
    destruct (hex4 h1 h2 h3 h4) as [n|]; simpl; [|done].
    destruct (is_surrogate_lo n); [done|]. destruct (is_surrogate_hi n); [|rec_call IH].
    destruct s3 as [|b1 [|u1 [|k1 [|k2 [|k3 [|k4 s4]]]]]]; try done.
    destruct (_ && _); [|done]. destruct (hex4 k1 k2 k3 k4) as [n2|]; simpl; [|done].
    destruct (is_surrogate_lo n2); [rec_call IH|done].
  - destruct (nat_of_ascii c <? 32)%nat; [done|rec_call IH].
Qed.

Lemma strip_prefix_length p s r : strip_prefix p s = Some r → (String.length r ≤ String.length s)%nat.
Proof.
  revert s. induction p as [|a p IH]; intros [|b s]; simpl; try naive_solver.
  destruct (Ascii.eqb a b); [|done]. intros H. specialize (IH s H). lia.
Qed.

Lemma num_sign_length s : (String.length (num_sign s).2 ≤ String.length s)%nat.
Proof. destruct s; simpl; [lia|]. case_match; simpl; lia. Qed.

Lemma parse_number_length s v r : parse_number s = POk v r → (String.length r < String.length s)%nat.
Proof.
  unfold parse_number. pose proof (num_sign_length s) as Hs1.
  destruct (num_sign s) as [neg s1]. simpl in Hs1.
  destruct (digits_run s1) as [ids s2] eqn:Hd. apply digits_run_length in Hd.
  destruct ids as [|d0 ids']; [done|]. destruct (_ && _); [done|].
  destruct (frac_exp s2) as [[[fds e] s3]|] eqn:Hf; [|done]. apply frac_exp_length in Hf.
  simpl in Hd. repeat case_match; intros; simplify_eq; lia.
Qed.

(** Turn what is known of the scanners into facts on lengths. *)
Ltac len_facts :=
  repeat match goal with
  | H : skip_ws ?x = ?y |- _ =>
      let L := fresh "L" in pose proof (skip_ws_length x) as L; rewrite H in L; clear H
  | H : starts_with _ ?x = Some _ |- _ => apply starts_with_length in H
  | H : parse_chars _ = Some (_, _) |- _ => apply parse_chars_length in H
  | H : strip_prefix _ _ = Some _ |- _ => apply strip_prefix_length in H
  | H : parse_number _ = POk _ _ |- _ => apply parse_number_length in H
  | H : context [String.length (skip_ws ?x)] |- _ =>
      let L := fresh "L" in pose proof (skip_ws_length x) as L; revert H L; generalize (skip_ws x); intros
  | |- context [String.length (skip_ws ?x)] =>
      let L := fresh "L" in pose proof (skip_ws_length x) as L; revert L; generalize (skip_ws x); intros
  end.

Lemma parse_length n :
  (∀ d s v r, parse_value n d s = POk v r → (String.length r < String.length s)%nat) ∧
  (∀ d s acc v r, parse_elems n d s acc = POk v r → (String.length r < String.length s)%nat) ∧
  (∀ d s kv r, parse_member n d s = POk kv r → (String.length r < String.length s)%nat) ∧
  (∀ d s acc v r, parse_fields n d s acc = POk v r → (String.length r < String.length s)%nat).
Proof.
  induction n as [|n IH]; [split_and!; by intros|].
  destruct IH as (IHv & IHe & IHm & IHf).
  split_and!; intros *; cbn [parse_value parse_elems parse_member parse_fields]; unfold parse_ident;
    repeat split_nonrec; try done;
    repeat match goal with
    | |- context [parse_value n ?d ?s] =>
        let E := fresh "E" in destruct (parse_value n d s) eqn:E; [apply IHv in E| |]
    | |- context [parse_member n ?d ?s] =>
        let E := fresh "E" in destruct (parse_member n d s) eqn:E; [apply IHm in E| |]
    end; try done; intros H;
    try (apply IHe in H || apply IHf in H); simplify_eq; len_facts; simpl in *; lia.
Qed.

Lemma parse_number_not_fuel s : parse_number s ≠ PFuel.
Proof. unfold parse_number. by repeat case_match. Qed.

Lemma parse_fuel_enough n :
  (∀ d s, (String.length s < n)%nat → parse_value n d s ≠ PFuel) ∧
  (∀ d s acc, (String.length s < n)%nat → parse_elems n d s acc ≠ PFuel) ∧
  (∀ d s, (String.length s < n)%nat → parse_member n d s ≠ PFuel) ∧
  (∀ d s acc, (String.length s < n)%nat → parse_fields n d s acc ≠ PFuel).
Proof.
  induction n as [|n IH]; [split_and!; intros; lia|].
  destruct IH as (IHv & IHe & IHm & IHf).
  split_and!; intros * Hlen; cbn [parse_value parse_elems parse_member parse_fields]; unfold parse_ident;
    repeat split_nonrec; try done;
    repeat match goal with
    | |- context [parse_value n ?d ?x] =>
        let E := fresh "E" in destruct (parse_value n d x) eqn:E;
        [pose proof (proj1 (parse_length n) _ _ _ _ E)| |exfalso; apply (IHv d x); [|exact E]]
    | |- context [parse_member n ?d ?x] =>
        let E := fresh "E" in destruct (parse_member n d x) eqn:E;
        [pose proof (proj1 (proj2 (proj2 (parse_length n))) _ _ _ _ E)| |exfalso; apply (IHm d x); [|exact E]]
    end; try done; try apply parse_number_not_fuel; try first [apply IHe | apply IHf]; len_facts; simpl in *; lia.
Qed.

(** ** Round trip *)

Lemma string_app_cons c (a b : string) : String c a +:+ b = String c (a +:+ b).
Proof. done. Qed.

Lemma append_assoc_string (a b c : string) : (a +:+ b) +:+ c = a +:+ (b +:+ c).
Proof. induction a as [|x a IH]; [done|]. by rewrite !string_app_cons, IH. Qed.

(** One escaped character reads back as itself. *)
Lemma parse_chars_escape c x :
  parse_chars (escape_out c +:+ x) = '(t, r) ← parse_chars x; Some (String c t, r).
Proof. destruct c as [[] [] [] [] [] [] [] []]; reflexivity. Qed.

Lemma parse_print_chars t rest : parse_chars (print_chars t +:+ String dq rest) = Some (t, rest).
Proof.
  induction t as [|c t IH]; [done|]. cbn [print_chars].
  by rewrite append_assoc_string, parse_chars_escape, IH.
Qed.

(** Decimal renderings of [N] *)

Fixpoint all_digits (s : string) : bool :=
  match s with EmptyString => true | String c s' => is_digit c && all_digits s' end.

Lemma pretty_N_char_digit m : is_digit (pretty_N_char m) = true.
Proof. unfold pretty_N_char. by repeat case_match. Qed.

Lemma pretty_N_go_digits x s : all_digits s = true → all_digits (pretty_N_go x s) = true.
Proof.
  revert s. induction (N.lt_wf_0 x) as [x _ IH]; intros s Hs.
  destruct (decide (x = 0%N)) as [->|Hx]; [by rewrite pretty_N_go_0|].
  rewrite pretty_N_go_step by lia. apply IH; [apply N.div_lt; lia|]. simpl. by rewrite pretty_N_char_digit.
Qed.

Lemma pretty_N_go_head x s : (0 < x)%N → ∃ c t, pretty_N_go x s = String c t ∧ c ≠ "0"%char.
Proof.
  revert s. induction (N.lt_wf_0 x) as [x _ IH]; intros s Hx.
  rewrite pretty_N_go_step by lia.
  destruct (decide (x `div` 10 = 0)%N) as [Hd|Hd].
  - rewrite Hd, pretty_N_go_0. eexists _, _. split; [done|].
    assert (x `mod` 10 = x)%N as -> by (apply N.mod_small; apply N.div_small_iff in Hd; lia).
    assert (x < 10)%N by (apply N.div_small_iff in Hd; lia).
    assert (x = 1 ∨ x = 2 ∨ x = 3 ∨ x = 4 ∨ x = 5 ∨ x = 6 ∨ x = 7 ∨ x = 8 ∨ x = 9)%N as Hc by lia.
    by repeat destruct Hc as [->|Hc]; [..|subst].
  - apply IH; [apply N.div_lt; [exact Hx|done]|apply N.neq_0_lt_0; exact Hd].
Qed.

Definition digit_free (rest : string) : bool :=
  match rest with String c _ => negb (is_digit c) | EmptyString => true end.

Lemma digits_run_all p rest :
  all_digits p = true → digit_free rest = true → digits_run (p +:+ rest) = (p, rest).
Proof.
  intros Hp Hr. induction p as [|c p IH].
  - destruct rest as [|c rest]; [done|]. simpl in *. by destruct (is_digit c).
  - simpl in Hp. apply andb_prop in Hp as [Hc Hp]. rewrite string_app_cons. simpl. rewrite Hc, IH; done.
Qed.

Lemma pretty_digits (m : N) : all_digits (pretty m) = true.
Proof. unfold pretty, pretty_N. case_decide; [done|]. by apply pretty_N_go_digits. Qed.

Lemma pretty_value (m : N) : digits_value (pretty m) = Z.of_N m.
Proof.
  unfold digits_value, pretty, pretty_N. case_decide as H0; [by subst|].
  destruct (digits_acc_pretty_go m "" 0 0) as [d ->]. simpl. lia.
Qed.

(** The integer part of [pretty m] has no leading zero. *)
Lemma pretty_shape (m : N) :
  ∃ c t, pretty m = String c t ∧ (Ascii.eqb c "0"%char && negb (String.eqb t "") = false).
Proof.
  unfold pretty, pretty_N. case_decide as H0; [by exists "0"%char, ""|].
  destruct (pretty_N_go_head m "" ltac:(lia)) as (c & t & -> & Hc).
  exists c, t. split; [done|]. by destruct (Ascii.eqb_spec c "0").
Qed.

(** What may follow a number: no digit, no [.], no exponent. *)
Definition num_delim (rest : string) : bool :=
  match rest with
  | String c _ => negb (is_digit c || Ascii.eqb c "."%char || Ascii.eqb c "e"%char || Ascii.eqb c "E"%char)
  | EmptyString => true
  end.

Lemma num_delim_facts rest :
  num_delim rest = true →
  digit_free rest = true ∧ starts_float rest = false ∧ frac_exp rest = Some ("", 0, rest).
Proof.
  destruct rest as [|c rest]; [done|]. simpl.
  destruct (is_digit c), (Ascii.eqb c "."), (Ascii.eqb c "e"), (Ascii.eqb c "E"); done.
Qed.

Lemma digit_not_minus c : is_digit c = true → Ascii.eqb c "-"%char = false.
Proof. intros H. destruct (Ascii.eqb_spec c "-"); [subst; done|done]. Qed.

Lemma parse_number_int s neg m rest :
  num_sign s = (neg, pretty m +:+ rest) → num_delim rest = true →
  (if neg then 0 < Z.of_N m ≤ 2 ^ 63 else Z.of_N m < 2 ^ 64) →
  parse_number s = POk (JNum (if neg then - Z.of_N m else Z.of_N m)) rest.
Proof.
  intros Hs (Hdf & Hsf & Hfe)%num_delim_facts Hm.
  pose proof (pretty_digits m) as Hdig. pose proof (pretty_value m) as Hval.
  destruct (pretty_shape m) as (c & t & Hp & Hc).
  unfold parse_number. rewrite Hs.
  rewrite digits_run_all by done. rewrite Hval, Hp. cbn iota beta. rewrite Hc, Hfe, Hsf.
  cbn iota beta. destruct neg.
  - destruct (Z.eqb_spec (Z.of_N m) 0), (Z.ltb_spec (2 ^ 63) (Z.of_N m)); simpl; [lia..|done].
  - destruct (Z.ltb_spec (Z.of_N m) (2 ^ 64)); [done|lia].
Qed.

Lemma parse_print_int z rest :
  - 2 ^ 63 ≤ z < 2 ^ 64 → num_delim rest = true → parse_number (print_int z +:+ rest) = POk (JNum z) rest.
Proof.
  intros Hz Hr. unfold print_int. destruct (Z.ltb_spec z 0).
  - rewrite (parse_number_int _ true (Z.to_N (- z)) rest); [by rewrite Z2N.id, Z.opp_involutive by lia|done|done|].
    rewrite Z2N.id; lia.
  - rewrite (parse_number_int _ false (Z.to_N z) rest); [by rewrite Z2N.id by lia| |done|rewrite Z2N.id; lia].
    pose proof (pretty_digits (Z.to_N z)) as Hdig. destruct (pretty_shape (Z.to_N z)) as (c & t & Hp & _).
    rewrite Hp in Hdig |- *. simpl in Hdig. apply andb_prop in Hdig as [Hcd _].
    rewrite string_app_cons. simpl. by rewrite digit_not_minus.
Qed.

(** The values the printer round-trips: integers in the [u64]/[i64] range,
    no [f64], nesting within the recursion limit. *)
Fixpoint json_wf (j : json) : bool :=
  match j with
  | JNum z => (- 2 ^ 63 <=? z) && (z <? 2 ^ 64)
  | JFloat _ => false
  | JArr l => forallb json_wf l
  | JObj fs => forallb (λ kv, json_wf kv.2) fs
  | _ => true
  end.

Fixpoint json_depth (j : json) : nat :=
  match j with
  | JArr l => S (foldr (λ x m, max (json_depth x) m) 0%nat l)
  | JObj fs => S (foldr (λ kv m, max (json_depth kv.2) m) 0%nat fs)
  | _ => 0%nat
  end.

(** Induction on [json] with hypotheses on the elements of arrays and the
    values of objects. *)
Definition json_ind' (P : json → Prop) (fnull : P JNull) (fbool : ∀ b, P (JBool b))
    (fnum : ∀ z, P (JNum z)) (ffloat : ∀ s, P (JFloat s)) (fstr : ∀ s, P (JStr s))
    (farr : ∀ l, Forall P l → P (JArr l)) (fobj : ∀ fs, Forall (λ kv, P kv.2) fs → P (JObj fs)) :
    ∀ j, P j :=
  fix F (j : json) : P j :=
    match j with
    | JNull => fnull
    | JBool b => fbool b
    | JNum z => fnum z
    | JFloat s => ffloat s
    | JStr s => fstr s
    | JArr l => farr l ((fix G (l : list json) : Forall P l :=
                         match l with [] => Forall_nil_2 _ | x :: l => Forall_cons_2 _ x l (F x) (G l) end) l)
    | JObj fs => fobj fs ((fix G (fs : list (string * json)) : Forall (λ kv, P kv.2) fs :=
                           match fs with
                           | [] => Forall_nil_2 _
                           | kv :: fs => Forall_cons_2 _ kv fs (F kv.2) (G fs)
                           end) fs)
    end.

Lemma string_app_nil_l (s : string) : "" +:+ s = s.
Proof. done. Qed.

Lemma number_head c :
  (Ascii.eqb c "-"%char || is_digit c) = true →
  is_ws c = false ∧ Ascii.eqb c "n"%char = false ∧ Ascii.eqb c "t"%char = false ∧
  Ascii.eqb c "f"%char = false ∧ Ascii.eqb c dq = false ∧ Ascii.eqb c "["%char = false ∧
  Ascii.eqb c "{"%char = false ∧ Ascii.eqb c "]"%char = false ∧ Ascii.eqb c "}"%char = false.
Proof. destruct c as [[] [] [] [] [] [] [] []]; intros H; (discriminate H || split_and!; reflexivity). Qed.

Lemma print_int_head z : ∃ c t, print_int z = String c t ∧ (Ascii.eqb c "-"%char || is_digit c) = true.
Proof.
  unfold print_int. destruct (z <? 0); [by eexists _, _|].
  pose proof (pretty_digits (Z.to_N z)) as Hdig. destruct (pretty_shape (Z.to_N z)) as (c & t & Hp & _).
  rewrite Hp in Hdig |- *. simpl in Hdig. apply andb_prop in Hdig as [Hcd _].
  exists c, t. split; [done|]. by rewrite Hcd, orb_true_r.
Qed.

Lemma parse_value_number n d c s :
  (Ascii.eqb c "-"%char || is_digit c) = true → parse_value (S n) d (String c s) = parse_number (String c s).
Proof.
  intros H. destruct (number_head c H) as (Hws & Hn & Ht & Hf & Hq & Hb & Hc & _).
  cbn [parse_value skip_ws]. by rewrite Hws, Hn, Ht, Hf, Hq, Hb, Hc, H.
Qed.

Lemma print_head j :
  json_wf j = true →
  ∃ c t, json_print j = String c t ∧ is_ws c = false ∧ Ascii.eqb c "]"%char = false ∧ Ascii.eqb c "}"%char = false.
Proof.
  destruct j as [|[]|z|lit|s|l|fs]; intros Hwf; try discriminate Hwf; try by eexists _, _.
  destruct (print_int_head z) as (c & t & Hp & Hc). exists c, t. cbn [json_print]. rewrite Hp.
  destruct (number_head c Hc) as (? & _ & _ & _ & _ & _ & _ & ? & ?). done.
Qed.

Lemma skip_ws_print j r : json_wf j = true → skip_ws (json_print j +:+ r) = json_print j +:+ r.
Proof. intros (c & t & -> & Hws & _)%print_head. rewrite string_app_cons. simpl. by rewrite Hws. Qed.

Lemma starts_with_print j r c' :
  json_wf j = true → c' = "]"%char ∨ c' = "}"%char → starts_with c' (json_print j +:+ r) = None.
Proof.
  intros (c & t & -> & _ & Hb & Hc)%print_head Hc'. rewrite string_app_cons. simpl.
  by destruct Hc' as [->| ->]; [rewrite Hb|rewrite Hc].
Qed.

Lemma fuel_le_value n m d s v r : (n ≤ m)%nat → parse_value n d s = POk v r → parse_value m d s = POk v r.
Proof.
  intros Hle H. replace m with (n + (m - n))%nat by lia. rewrite (proj1 (parse_fuel_mono n)); [done|by rewrite H].
Qed.

Lemma fuel_le_elems n m d s acc v r :
  (n ≤ m)%nat → parse_elems n d s acc = POk v r → parse_elems m d s acc = POk v r.
Proof.
  intros Hle H. replace m with (n + (m - n))%nat by lia.
  rewrite (proj1 (proj2 (parse_fuel_mono n))); [done|by rewrite H].
Qed.

Definition print_parses (j : json) : Prop :=
  ∀ d rest, json_wf j = true → (json_depth j < d)%nat → num_delim rest = true →
  ∃ n, parse_value n d (json_print j +:+ rest) = POk j rest.

Definition sep_tail (l : list string) : string := foldr (λ y acc, "," +:+ y +:+ acc) "" l.

Lemma sep_tail_cons y l : sep_tail (y :: l) = "," +:+ y +:+ sep_tail l.
Proof. done. Qed.

Lemma num_delim_sep_tail l c rest : c = "]"%char ∨ c = "}"%char → num_delim (sep_tail l +:+ String c rest) = true.
Proof. intros [-> | ->]; by destruct l. Qed.

Lemma parse_elems_print d xs rest acc :
  Forall print_parses xs → forallb json_wf xs = true → Forall (λ x, json_depth x < d)%nat xs →
  ∃ n, parse_elems n d (sep_tail (map json_print xs) +:+ String "]" rest) acc = POk (JArr (reverse acc ++ xs)) rest.
Proof.
  revert acc. induction xs as [|y ys IH]; intros acc Hp Hwf Hd.
  - exists 1%nat. rewrite app_nil_r. reflexivity.
  - apply Forall_cons in Hp as [Hy Hp]. apply Forall_cons in Hd as [Hdy Hd].
    simpl in Hwf. apply andb_prop in Hwf as [Hwy Hwf].
    destruct (Hy d (sep_tail (map json_print ys) +:+ String "]" rest) Hwy Hdy
                (num_delim_sep_tail _ _ _ (or_introl eq_refl))) as [n1 Hn1].
    destruct (IH (y :: acc) Hp Hwf Hd) as [n2 Hn2].
    exists (S (n1 + n2)). cbn [map]. rewrite sep_tail_cons.
    repeat progress rewrite ?string_app_cons, ?string_app_nil_l, ?append_assoc_string. cbn [parse_elems].
    simpl (skip_ws _). cbn [starts_with Ascii.eqb Bool.eqb andb].
    rewrite (fuel_le_value n1 (n1 + n2) _ _ _ _ ltac:(lia) Hn1).
    rewrite (fuel_le_elems n2 (n1 + n2) _ _ _ _ _ ltac:(lia) Hn2).
    by rewrite reverse_cons, <-app_assoc.
Qed.

Lemma fuel_le_fields n m d s acc v r :
  (n ≤ m)%nat → parse_fields n d s acc = POk v r → parse_fields m d s acc = POk v r.
Proof.
  intros Hle H. replace m with (n + (m - n))%nat by lia.
  rewrite (proj2 (proj2 (proj2 (parse_fuel_mono n)))); [done|by rewrite H].
Qed.

Lemma fuel_le_member n m d s v r : (n ≤ m)%nat → parse_member n d s = POk v r → parse_member m d s = POk v r.
Proof.
  intros Hle H. replace m with (n + (m - n))%nat by lia.
  rewrite (proj1 (proj2 (proj2 (parse_fuel_mono n)))); [done|by rewrite H].
Qed.

Ltac norm_app := repeat progress rewrite ?string_app_cons, ?string_app_nil_l, ?append_assoc_string.

Definition print_member (kv : string * json) : string := print_str kv.1 +:+ ":" +:+ json_print kv.2.

Lemma skip_ws_member kv x : skip_ws (print_member kv +:+ x) = print_member kv +:+ x.
Proof. reflexivity. Qed.

Lemma starts_with_member kv x : starts_with "}" (print_member kv +:+ x) = None.
Proof. reflexivity. Qed.

Lemma parse_member_print d kv rest :
  print_parses kv.2 → json_wf kv.2 = true → (json_depth kv.2 < d)%nat → num_delim rest = true →
  ∃ n, parse_member n d (print_member kv +:+ rest) = POk kv rest.
Proof.
  intros Hp Hw Hd Hr. destruct (Hp d rest Hw Hd Hr) as [n1 Hn1]. exists (S n1).
  destruct kv as [k v]. unfold print_member, print_str. cbn [fst snd] in *. norm_app.
  cbn [parse_member]. simpl (skip_ws _). cbn [starts_with]. rewrite Ascii.eqb_refl.
  rewrite parse_print_chars. simpl (skip_ws _). cbn [starts_with]. simpl (Ascii.eqb _ _). cbn iota.
  by rewrite Hn1.
Qed.

Lemma parse_fields_print d fs rest acc :
  Forall (λ kv, print_parses kv.2) fs → forallb (λ kv, json_wf kv.2) fs = true →
  Forall (λ kv, json_depth kv.2 < d)%nat fs →
  ∃ n, parse_fields n d (sep_tail (map print_member fs) +:+ String "}" rest) acc = POk (JObj (reverse acc ++ fs)) rest.
Proof.
  revert acc. induction fs as [|kv fs IH]; intros acc Hp Hwf Hd.
  - exists 1%nat. rewrite app_nil_r. reflexivity.
  - apply Forall_cons in Hp as [Hy Hp]. apply Forall_cons in Hd as [Hdy Hd].
    simpl in Hwf. apply andb_prop in Hwf as [Hwy Hwf].
    destruct (parse_member_print d kv (sep_tail (map print_member fs) +:+ String "}" rest) Hy Hwy Hdy
                (num_delim_sep_tail _ _ _ (or_intror eq_refl))) as [n1 Hn1].
    destruct (IH (kv :: acc) Hp Hwf Hd) as [n2 Hn2].
    exists (S (n1 + n2)). cbn [map]. rewrite sep_tail_cons. norm_app. cbn [parse_fields].
    simpl (skip_ws _). cbn [starts_with Ascii.eqb Bool.eqb andb].
    rewrite (fuel_le_member n1 (n1 + n2) _ _ _ _ ltac:(lia) Hn1).
    rewrite (fuel_le_fields n2 (n1 + n2) _ _ _ _ _ ltac:(lia) Hn2).
    by rewrite reverse_cons, <-app_assoc.
Qed.

Lemma foldr_max_lt {A} (f : A → nat) l k :
  (foldr (λ x m, max (f x) m) 0%nat l < k)%nat → Forall (λ x, f x < k)%nat l.
Proof. induction l as [|x l IH]; simpl; intros H; constructor; [lia|apply IH; lia]. Qed.

Lemma print_seq_cons x l : print_seq (x :: l) = x +:+ sep_tail l.
Proof. done. Qed.

Lemma print_parses_all j : print_parses j.
Proof.
  induction j as [| b | z | lit | s | l IH | fs IH] using json_ind'; intros d rest Hwf Hd Hr.
  - by exists 1%nat.
  - exists 1%nat. by destruct b.
  - exists 1%nat. destruct (print_int_head z) as (c & t & Hp & Hc). cbn [json_print].
    rewrite Hp, string_app_cons, parse_value_number by done. rewrite <-string_app_cons, <-Hp.
    apply parse_print_int; [|done]. simpl in Hwf. apply andb_prop in Hwf as [H1 H2]. lia.
  - done.
  - exists 1%nat. cbn [json_print]. unfold print_str. norm_app. cbn [parse_value].
    simpl (skip_ws _). simpl (Ascii.eqb _ _). cbn iota. by rewrite parse_print_chars.
  - simpl in Hd. destruct d as [|[|d]]; [lia|lia|].
    assert (Forall (λ x, json_depth x < S d)%nat l) as Hd2 by (apply (foldr_max_lt json_depth); lia).
    clear Hd; rename Hd2 into Hd.
    destruct l as [|x xs]; [by exists 1%nat|].
    apply Forall_cons in IH as [Hx IH]. pose proof Hd as Hd'. apply Forall_cons in Hd as [Hdx Hd].
    simpl in Hwf. apply andb_prop in Hwf as [Hwx Hwf].
    destruct (Hx (S d) (sep_tail (map json_print xs) +:+ String "]" rest) Hwx Hdx
                (num_delim_sep_tail _ _ _ (or_introl eq_refl))) as [n1 Hn1].
    destruct (parse_elems_print (S d) xs rest [x] IH Hwf Hd) as [n2 Hn2].
    exists (S (n1 + n2)). cbn [json_print map]. rewrite print_seq_cons. norm_app.
    cbn [parse_value]. simpl (skip_ws (String _ _)). simpl (Ascii.eqb _ _). cbn iota.
    rewrite skip_ws_print, starts_with_print by auto.
    rewrite (fuel_le_value n1 (n1 + n2) _ _ _ _ ltac:(lia) Hn1).
    by rewrite (fuel_le_elems n2 (n1 + n2) _ _ _ _ _ ltac:(lia) Hn2).
  - simpl in Hd. destruct d as [|[|d]]; [lia|lia|].
    assert (Forall (λ kv, json_depth kv.2 < S d)%nat fs) as Hd2
      by (apply (foldr_max_lt (λ kv : string * json, json_depth kv.2)); lia).
    clear Hd; rename Hd2 into Hd.
    destruct fs as [|kv fs]; [by exists 1%nat|].
    apply Forall_cons in IH as [Hx IH]. apply Forall_cons in Hd as [Hdx Hd].
    simpl in Hwf. apply andb_prop in Hwf as [Hwx Hwf].
    destruct (parse_member_print (S d) kv (sep_tail (map print_member fs) +:+ String "}" rest) Hx Hwx Hdx
                (num_delim_sep_tail _ _ _ (or_intror eq_refl))) as [n1 Hn1].
    destruct (parse_fields_print (S d) fs rest [kv] IH Hwf Hd) as [n2 Hn2].
    exists (S (n1 + n2)).
    change (json_print (JObj (kv :: fs))) with ("{" +:+ print_seq (map print_member (kv :: fs)) +:+ "}").
    cbn [map]. rewrite print_seq_cons. norm_app.
    cbn [parse_value]. simpl (skip_ws (String _ _)). simpl (Ascii.eqb _ _). cbn iota.
    rewrite skip_ws_member, starts_with_member.
    rewrite (fuel_le_member n1 (n1 + n2) _ _ _ _ ltac:(lia) Hn1).
    by rewrite (fuel_le_fields n2 (n1 + n2) _ _ _ _ _ ltac:(lia) Hn2).
Qed.

Lemma string_app_nil_r (s : string) : s +:+ "" = s.
Proof. induction s as [|c s IH]; [done|]. by rewrite string_app_cons, IH. Qed.

Lemma foldr_max_bound {A} (f : A → nat) l k :
  (0 < k)%nat → Forall (λ x, f x < k)%nat l → (foldr (λ x m, max (f x) m) 0%nat l < k)%nat.
Proof. intros Hk. induction 1; simpl; lia. Qed.

(** The parser never builds a value nested deeper than its remaining depth. *)
Lemma parse_depth n :
  (∀ d s v r, (0 < d)%nat → parse_value n d s = POk v r → (json_depth v < d)%nat) ∧
  (∀ d s acc v r, (0 < d)%nat → Forall (λ x, json_depth x < d)%nat acc →
     parse_elems n d s acc = POk v r → (json_depth v < S d)%nat) ∧
  (∀ d s kv r, (0 < d)%nat → parse_member n d s = POk kv r → (json_depth kv.2 < d)%nat) ∧
  (∀ d s acc v r, (0 < d)%nat → Forall (λ kv, json_depth kv.2 < d)%nat acc →
     parse_fields n d s acc = POk v r → (json_depth v < S d)%nat).
Proof.
  induction n as [|n IH]; [split_and!; by intros|].
  destruct IH as (IHv & IHe & IHm & IHf).
  split_and!; intros * Hd0; cbn [parse_value parse_elems parse_member parse_fields]; unfold parse_ident;
    repeat split_nonrec; try done;
    repeat match goal with
    | |- context [parse_value n ?d ?s] =>
        let E := fresh "E" in destruct (parse_value n d s) eqn:E; [apply IHv in E; [|lia]| |]
    | |- context [parse_member n ?d ?s] =>
        let E := fresh "E" in destruct (parse_member n d s) eqn:E; [apply IHm in E; [|lia]| |]
    | H : context [parse_value n ?d ?s] |- _ =>
        revert H; let E := fresh "E" in destruct (parse_value n d s) eqn:E; [apply IHv in E; [|lia]| |]; intros H
    | H : context [parse_member n ?d ?s] |- _ =>
        revert H; let E := fresh "E" in destruct (parse_member n d s) eqn:E; [apply IHm in E; [|lia]| |]; intros H
    end; try done; intros; simplify_eq/=; try lia;
    try match goal with
    | H : parse_number _ = POk _ _ |- _ => unfold parse_number in H; repeat case_match; simplify_eq/=; lia
    end.
  all: try first
    [ by repeat constructor; simpl; lia
    | apply -> Nat.succ_lt_mono; apply foldr_max_bound; [lia|by apply Forall_reverse]
    | match goal with
      | H : parse_elems _ _ _ (_ :: _) = _ |- _ => eapply IHe; [..|exact H]; [lia|constructor; [simpl; lia|done]]
      | H : parse_fields _ _ _ (_ :: _) = _ |- _ => eapply IHf; [..|exact H]; [lia|constructor; [simpl; lia|done]]
      end
    | simpl; lia ].
Qed.

(** ** Theorems *)

(** C21: Termination: the parser that [json_parse] runs on a text [s] never
    runs out of fuel, and any fuel above the length of [s] gives the same
    result: [from_str] always returns a value or an error. *)
Theorem json_parse_fuel s d m :
  (String.length s < m)%nat →
  parse_value m d s ≠ PFuel ∧ parse_value m d s = parse_value (S (String.length s)) d s.
Proof.
  intros Hm. pose proof (proj1 (parse_fuel_enough m) d s Hm) as Hf. split; [done|].
  pose proof (proj1 (parse_fuel_enough (S (String.length s))) d s ltac:(lia)) as Hf'.
  replace m with (S (String.length s) + (m - S (String.length s)))%nat at 1 by lia.
  by rewrite (proj1 (parse_fuel_mono _)).
Qed.

(** C31: Round trip: every value with integers in the [u64]/[i64] range, no
    [f64] and fewer than 128 levels of nesting is read back by [from_str]
    from its [to_string] text, strings with any bytes included. *)
Theorem json_print_parse j :
  json_wf j = true → (json_depth j < recursion_limit)%nat → json_parse (json_print j) = Some j.
Proof.
  intros Hw Hd. destruct (print_parses_all j recursion_limit "" Hw Hd eq_refl) as [n Hn].
  rewrite string_app_nil_r in Hn. unfold json_parse.
  set (L := S (String.length (json_print j))).
  assert (parse_value L recursion_limit (json_print j) = POk j "") as ->; [|done].
  rewrite <-(proj1 (parse_fuel_mono L) _ _ n)
    by (apply (proj1 (parse_fuel_enough L)); unfold L; lia).
  rewrite Nat.add_comm, (proj1 (parse_fuel_mono n)); [done|by rewrite Hn].
Qed.

(** C28: Bounds: [serde_json]'s recursion limit: a document [from_str]
    accepts nests arrays and objects at most 127 deep. *)
Theorem json_parse_depth s v : json_parse s = Some v → (json_depth v < recursion_limit)%nat.
Proof.
  unfold json_parse. destruct (parse_value _ _ s) as [v' r| |] eqn:E; [|done|done].
  destruct (String.eqb _ _); [intros [= <-]|done].
  apply (proj1 (parse_depth (S (String.length s))) recursion_limit s v' r); [unfold recursion_limit; lia|exact E].
Qed.

(** ** Witnesses *)

Definition nested (n : nat) : string := Nat.iter n (λ s, "[" +:+ s +:+ "]") "".

Lemma json_parse_fuel_witness :
  parse_value 100 recursion_limit (nested 3) = POk (JArr [JArr [JArr []]]) "" ∧
  parse_value 100 recursion_limit (nested 3) = parse_value 7 recursion_limit (nested 3).
Proof.
  split; [reflexivity|]. apply (json_parse_fuel (nested 3) recursion_limit 100). vm_compute. lia.
Defined.

Definition subscribe_value : json :=
  JObj [("data", JObj [("channel", JStr "order_book_btcusd")]); ("event", JStr "bts:subscribe")].

Lemma json_print_parse_witness : json_parse (json_print subscribe_value) = Some subscribe_value.
Proof. apply json_print_parse; [reflexivity|vm_compute; lia]. Defined.

(** 127 nested arrays are accepted, 128 are not. *)
Lemma json_parse_depth_witness :
  json_parse (nested 128) = None ∧
  ∃ v, json_parse (nested 127) = Some v ∧ (json_depth v < recursion_limit)%nat.
Proof.
  split; [vm_compute; reflexivity|].
  destruct (json_parse (nested 127)) as [v|] eqn:E; [|vm_compute in E; discriminate E].
  exists v. split; [done|]. exact (json_parse_depth _ _ E).
Defined.
