(* ===== verification/Connector.v ===== *)
(** * Connector: [consume_binance] and [consume_bitstamp] of [data-streamer/src/lib.rs]

    A connector loops forever: connect ([connect_async(..).await.expect(..)]),
    for Bitstamp send the subscription message, then read events until the
    stream fails or ends, then sleep [sleep] milliseconds and double [sleep]
    (a [u64]).  Each event is handled by [binance_event] or [bitstamp_event],
    which returns whether to go on reading, the new [sleep] and the effects
    it performed.  A run is driven by the list of sessions the network offers;
    the connector's observable behaviour is the trace of its effects,
    ending with a panic message when it panics; [emitted] is the sequence of
    books it sent on the update channel.

    Theorems: the backoff doubles between sessions ([u64], wrap-around or
    panic by build profile); a failed connect or a panicking frame ends the
    task; every emitted book is stamped with the connector's exchange and the
    compact symbol, and every price and amount in it is a 64-bit pattern
    ([consume_binance_wf], [consume_bitstamp_wf]). *)

From stdpp Require Import base numbers list strings sets.
From Stdlib Require Import ZArith.
From S2P Require Import Prelude F64 Model Decode Json.

Local Open Scope Z_scope.

(** [tungstenite::Message]; a text frame carries its text, and a ping
    carries the outcome of sending the [Pong] reply to it. *)
Inductive Message :=
| MText (payload : string)
| MBinary (payload : list Z)
| MPing (payload : list Z) (pong_sent : bool)
| MPong (payload : list Z)
| MClose
| MFrame.

(** An item of the websocket stream: [Ok(msg)] or [Err(err)]. *)
Inductive WsEvent := EvOk (m : Message) | EvErr.

Inductive Effect :=
| Connect (url : string)
| SendText (payload : string)
| SendPong
| Emit (ob : OrderBook)
| Sleep (ms : Z).

Inductive Ctrl := Continue | Break.

(** Whether the binary is built with overflow checks ([debug]) or not. *)
Inductive Profile := Debug | Release.

(** [sleep *= 2] on a [u64]. *)
Definition u64_double (p : Profile) (x : Z) : outcome Z :=
  if x * 2 <? 2 ^ 64 then Ret (x * 2)
  else match p with
       | Debug => Panic "attempt to multiply with overflow"
       | Release => Ret ((x * 2) mod 2 ^ 64)
       end.

Definition base_sleep : Z := 100.

(** ** Binance *)

Definition binance_url (inst : Instrument) : string :=
  "wss://stream.binance.com:9443/ws/" +:+ get_symbol_compact_usdt inst +:+ "@depth20@100ms".

Definition binance_event (inst : Instrument) (sleep : Z) (ev : WsEvent)
  : outcome (Ctrl * Z * list Effect) :=
  match ev with
  | EvOk (MText msg) =>
      raw_ob ← expect (json_parse msg ≫= de_binance) "Can't parse";
      Ret (Continue, base_sleep, [Emit (orderbook_from_binance Binance (get_symbol_compact inst) raw_ob)])
  | EvOk (MBinary _) => Ret (Continue, base_sleep, [])
  | EvOk (MPing _ ok) =>
      if ok then Ret (Continue, base_sleep, [SendPong]) else Ret (Break, sleep, [SendPong])
  | EvOk _ => Ret (Continue, base_sleep, [])
  | EvErr => Ret (Break, sleep, [])
  end.

(** ** Bitstamp *)

Definition bitstamp_url : string := "wss://ws.bitstamp.net".

(** [json!({"event": .., "data": {"channel": ..}})]: serde_json's map keeps
    its keys sorted, so ["data"] comes first. *)
Definition bitstamp_subscribe (inst : Instrument) : json :=
  JObj [("data", JObj [("channel", JStr ("order_book_" +:+ get_symbol_compact inst))]);
        ("event", JStr "bts:subscribe")].

Definition unwrap_err_msg : string := "called `Result::unwrap()` on an `Err` value".
Definition unwrap_none_msg : string := "called `Option::unwrap()` on a `None` value".

Definition bitstamp_event (inst : Instrument) (sleep : Z) (ev : WsEvent)
  : outcome (Ctrl * Z * list Effect) :=
  match ev with
  | EvOk (MText msg) =>
      obj ← expect (json_parse msg ≫= de_hashmap) unwrap_err_msg;
      v ← expect (hashmap_get obj "event") unwrap_none_msg;
      event ← expect (de_string v) unwrap_none_msg;
      effs ← (if String.eqb event "data" then
                raw_ob ← expect (json_parse msg ≫= de_bitstamp) "Can't parse";
                Ret [Emit (orderbook_from_bitstamp Bitstamp (get_symbol_compact inst) raw_ob)]
              else Ret []);
      Ret (Continue, base_sleep, effs)
  | EvOk (MBinary _) => Ret (Continue, sleep, [])
  | EvOk (MPing _ ok) =>
      if ok then Ret (Continue, base_sleep, [SendPong]) else Ret (Break, sleep, [SendPong])
  | EvOk _ => Ret (Continue, base_sleep, [])
  | EvErr => Ret (Break, sleep, [])
  end.

(** ** The two connectors as one loop with exchange-specific parts *)

Record ConnectorImpl := {
  conn_open : Instrument → list Effect;
  conn_event : Instrument → Z → WsEvent → outcome (Ctrl * Z * list Effect);
  conn_connect_msg : string
}.

Definition binance_impl : ConnectorImpl := {|
  conn_open inst := [Connect (binance_url inst)];
  conn_event := binance_event;
  conn_connect_msg := "Expected connection with Binance to work" |}.

Definition bitstamp_impl : ConnectorImpl := {|
  conn_open inst := [Connect bitstamp_url; SendText (json_print (bitstamp_subscribe inst))];
  conn_event := bitstamp_event;
  conn_connect_msg := "Expected connection with Bitstamp to work" |}.

(** A session offered by the network: whether [connect_async] succeeds, and
    the items [stream.next()] yields before it returns [None]. *)
Record Session := mkSession { connect_ok : bool; events : list WsEvent }.

(** The [while let Some(event) = stream.next().await] loop: effects, the
    final [sleep], and the panic message if a handler panicked. *)
Fixpoint run_session (ci : ConnectorImpl) (inst : Instrument) (sleep : Z) (evs : list WsEvent)
  : list Effect * Z * option string :=
  match evs with
  | [] => ([], sleep, None)
  | ev :: evs' =>
      match conn_event ci inst sleep ev with
      | Panic m => ([], sleep, Some m)
      | Ret (Break, s', effs) => (effs, s', None)
      | Ret (Continue, s', effs) =>
          let '(effs', s'', p) := run_session ci inst s' evs' in (effs ++ effs', s'', p)
      end
  end.

(** The outer [loop], over the sessions the network offers. *)
Fixpoint run_connector (ci : ConnectorImpl) (prof : Profile) (inst : Instrument) (sleep : Z)
    (sessions : list Session) : list Effect * option string :=
  match sessions with
  | [] => ([], None)
  | ses :: rest =>
      if negb (connect_ok ses) then ([], Some (conn_connect_msg ci))
      else
        let '(effs, s', p) := run_session ci inst sleep (events ses) in
        match p with
        | Some m => (conn_open ci inst ++ effs, Some m)
        | None =>
            match u64_double prof s' with
            | Panic m => (conn_open ci inst ++ effs ++ [Sleep s'], Some m)
            | Ret s'' =>
                let '(effs', p') := run_connector ci prof inst s'' rest in
                (conn_open ci inst ++ effs ++ [Sleep s'] ++ effs', p')
            end
        end
  end.

Definition consume_binance (prof : Profile) (inst : Instrument) (sessions : list Session) :=
  run_connector binance_impl prof inst base_sleep sessions.
Definition consume_bitstamp (prof : Profile) (inst : Instrument) (sessions : list Session) :=
  run_connector bitstamp_impl prof inst base_sleep sessions.

(** ** Which events reset the backoff *)

(** Binance resets [sleep] on every message but a ping whose pong failed. *)
Definition binance_resets (ev : WsEvent) : bool :=
  match ev with EvOk (MPing _ false) => false | EvOk _ => true | EvErr => false end.

(** Bitstamp also leaves it on a binary message. *)
Definition bitstamp_resets (ev : WsEvent) : bool :=
  match ev with
  | EvOk (MBinary _) | EvOk (MPing _ false) => false
  | EvOk _ => true
  | EvErr => false
  end.

Definition sleeps (effs : list Effect) : list Z :=
  omap (λ e, match e with Sleep ms => Some ms | _ => None end) effs.

(** What the backoff proofs need of an event handler: it sets [sleep] to the
    base delay exactly on resetting events, never sleeps itself, and returns
    without panicking on the events that do not reset. *)
Definition handler_sleep_spec (ci : ConnectorImpl) (resets : WsEvent → bool) : Prop :=
  (∀ inst s ev c s' effs, conn_event ci inst s ev = Ret (c, s', effs) →
     s' = (if resets ev then base_sleep else s) ∧ sleeps effs = []) ∧
  (∀ inst s ev, resets ev = false → ∃ c effs, conn_event ci inst s ev = Ret (c, s, effs)).

Lemma binance_sleep_spec : handler_sleep_spec binance_impl binance_resets.
Proof.
  split.
  - intros inst s [[j|b|b [|]|b| |]|] c s' effs; simpl; try (intros H; inversion H; done).
    destruct (json_parse j ≫= de_binance); simpl; intros H; inversion H; done.
  - intros inst s [[j|b|b [|]|b| |]|]; simpl; try discriminate; eauto.
Qed.

Lemma bitstamp_sleep_spec : handler_sleep_spec bitstamp_impl bitstamp_resets.
Proof.
  split.
  - intros inst s [[j|b|b [|]|b| |]|] c s' effs; simpl; try (intros H; inversion H; done).
    destruct (json_parse j ≫= de_hashmap) as [obj|]; simpl; [|done].
    destruct (hashmap_get obj "event") as [v|]; simpl; [|done].
    destruct (de_string v) as [e|]; simpl; [|done].
    destruct (String.eqb e "data"); simpl; [|intros H; inversion H; done].
    destruct (json_parse j ≫= de_bitstamp); simpl; intros H; inversion H; done.
  - intros inst s [[j|b|b [|]|b| |]|]; simpl; try discriminate; eauto.
Qed.

Lemma u64_double_release x : 0 ≤ x → u64_double Release x = Ret ((x * 2) mod 2 ^ 64).
Proof.
  intros Hx. unfold u64_double. destruct (Z.ltb_spec (x * 2) (2 ^ 64)); [|done].
  by rewrite Z.mod_small by lia.
Qed.

Lemma sleeps_app l1 l2 : sleeps (l1 ++ l2) = sleeps l1 ++ sleeps l2.
Proof. apply omap_app. Qed.

Section backoff.
Context (ci : ConnectorImpl) (resets : WsEvent → bool) (Hspec : handler_sleep_spec ci resets).
Context (Hopen : ∀ inst, sleeps (conn_open ci inst) = []).

(** A session leaves [sleep] as it was unless one of its events resets it,
    and sleeps nowhere; with no resetting event it neither panics nor
    changes [sleep]. *)
Lemma run_session_sleep inst s evs effs s' p :
  run_session ci inst s evs = (effs, s', p) →
  sleeps effs = [] ∧ (s' = s ∨ s' = base_sleep) ∧
  (Forall (λ ev, resets ev = false) evs → s' = s ∧ p = None).
Proof.
  destruct Hspec as [Hret Htot].
  revert s effs s' p. induction evs as [|ev evs IH]; intros s effs s' p; simpl.
  { intros H; inversion H; subst. split_and!; auto. }
  destruct (conn_event ci inst s ev) as [[[[] s1] e1]|m] eqn:He.
  - destruct (run_session ci inst s1 evs) as [[e2 s2] p2] eqn:Hr. intros H; inversion H; subst.
    destruct (Hret _ _ _ _ _ _ He) as [-> Hs1].
    destruct (IH _ _ _ _ Hr) as (Hs2 & Hcase & Hno).
    rewrite sleeps_app, Hs1, Hs2. split_and!; [done| |].
    + destruct (resets ev); naive_solver.
    + intros [Hev Hall]%Forall_cons. rewrite Hev in Hno. by apply Hno.
  - intros H; inversion H; subst. destruct (Hret _ _ _ _ _ _ He) as [-> Hs1].
    split_and!; [done|destruct (resets ev); auto|].
    intros [Hev _]%Forall_cons. by rewrite Hev.
  - intros H. split_and!; [by inversion H|inversion H; auto|].
    intros [Hev _]%Forall_cons. destruct (Htot inst s ev Hev) as (c & e & He'). congruence.
Qed.

Definition no_reset_session (ses : Session) : Prop :=
  connect_ok ses = true ∧ Forall (λ ev, resets ev = false) (events ses).

(** C13: Backoff: when every session connects and no event resets the delay,
    a connector that starts from [s] sleeps [s], [2s], [4s], ... between
    sessions, each product taken modulo [2^64] (release build). *)
Theorem backoff_doubling inst s sessions :
  0 ≤ s < 2 ^ 64 → Forall no_reset_session sessions →
  sleeps (run_connector ci Release inst s sessions).1 =
  (λ i, (s * 2 ^ Z.of_nat i) mod 2 ^ 64) <$> seq 0 (length sessions).
Proof.
  revert s. induction sessions as [|ses rest IH]; intros s Hs Hall; [done|].
  apply Forall_cons in Hall as [[Hok Hev] Hall]. simpl. rewrite Hok; simpl.
  destruct (run_session ci inst s (events ses)) as [[effs s'] p] eqn:Hr.
  destruct (run_session_sleep _ _ _ _ _ _ Hr) as (Hse & _ & Hno).
  destruct (Hno Hev) as [-> ->].
  rewrite u64_double_release by lia.
  destruct (run_connector ci Release inst ((s * 2) mod 2 ^ 64) rest) as [effs' p'] eqn:Hrest.
  simpl. rewrite !sleeps_app, Hopen, Hse. simpl.
  rewrite Z.mul_1_r, Z.mod_small by lia. f_equal.
  pose proof (Z.mod_pos_bound (s * 2) (2 ^ 64) ltac:(lia)).
  specialize (IH ((s * 2) mod 2 ^ 64) ltac:(lia) Hall). rewrite Hrest in IH. simpl in IH.
  rewrite IH, <-fmap_S_seq, <-list_fmap_compose. apply list_fmap_ext. intros _ i _. simpl.
  rewrite Z.mul_mod_idemp_l by lia. f_equal. rewrite Nat2Z.inj_succ, Z.pow_succ_r by lia. lia.
Qed.
End backoff.

Lemma binance_open_sleeps inst : sleeps (conn_open binance_impl inst) = [].
Proof. done. Qed.
Lemma bitstamp_open_sleeps inst : sleeps (conn_open bitstamp_impl inst) = [].
Proof. done. Qed.

(** Bounds of the [u64] delay [100 * 2^n] after [n] doublings: exact up
    to [n = 57], past [2^64] from [n = 58] on (a debug build panics on that
    doubling), and wrapped to [0] from [n = 62] on (a release build then
    reconnects without waiting). *)
Theorem backoff_u64_bounds (n : nat) :
  ((n ≤ 57)%nat → (base_sleep * 2 ^ Z.of_nat n) mod 2 ^ 64 = base_sleep * 2 ^ Z.of_nat n) ∧
  ((58 ≤ n)%nat → 2 ^ 64 ≤ base_sleep * 2 ^ Z.of_nat n) ∧
  ((62 ≤ n)%nat → (base_sleep * 2 ^ Z.of_nat n) mod 2 ^ 64 = 0).
Proof.
  unfold base_sleep. split_and!; intros Hn.
  - apply Z.mod_small. split; [pose proof (Z.pow_nonneg 2 (Z.of_nat n)); lia|].
    apply (Z.le_lt_trans _ (100 * 2 ^ 57)); [|done].
    apply Z.mul_le_mono_nonneg_l; [lia|]. apply Z.pow_le_mono_r; lia.
  - apply (Z.le_trans _ (100 * 2 ^ 58)); [done|].
    apply Z.mul_le_mono_nonneg_l; [lia|]. apply Z.pow_le_mono_r; lia.
  - replace (Z.of_nat n) with (62 + (Z.of_nat n - 62)) by lia.
    rewrite Z.pow_add_r by lia. apply Z.mod_divide; [done|].
    exists (25 * 2 ^ (Z.of_nat n - 62)). generalize (2 ^ (Z.of_nat n - 62)). intros x. lia.
Qed.

(** C14: A failed [connect_async] panics the connector task: nothing the
    network offers afterwards is used, and the run ends in a panic. *)
Theorem connector_dies_on_connect_failure ci prof inst s ss1 evs ss2 :
  run_connector ci prof inst s (ss1 ++ mkSession false evs :: ss2) =
  run_connector ci prof inst s (ss1 ++ [mkSession false evs]) ∧
  (run_connector ci prof inst s (ss1 ++ mkSession false evs :: ss2)).2 ≠ None.
Proof.
  revert s. induction ss1 as [|ses ss1 IH]; intros s; simpl; [done|].
  destruct (connect_ok ses); simpl; [|done].
  destruct (run_session ci inst s (events ses)) as [[effs s'] [m|]]; [done|].
  destruct (u64_double prof s') as [s''|m]; [|done].
  destruct (IH s'') as [IH1 IH2]. rewrite IH1 in IH2 |- *.
  destruct (run_connector ci prof inst s'' (ss1 ++ [mkSession false evs])) as [e p] eqn:E.
  simpl in *. done.
Qed.

(** ** A panicking event ends the task

    [expect("Can't parse")] on a message that does not decode, and the
    [unwrap]s on Bitstamp's [event] field, panic inside the read loop; the
    panic ends the connector task. *)

Definition continues (ci : ConnectorImpl) (inst : Instrument) (ev : WsEvent) : Prop :=
  ∀ s, ∃ s' effs, conn_event ci inst s ev = Ret (Continue, s', effs).

Definition panics (ci : ConnectorImpl) (inst : Instrument) (ev : WsEvent) : Prop :=
  ∀ s, ∃ m, conn_event ci inst s ev = Panic m.

Lemma run_session_panic ci inst s pre ev post :
  Forall (continues ci inst) pre → panics ci inst ev →
  run_session ci inst s (pre ++ ev :: post) = run_session ci inst s (pre ++ [ev]) ∧
  (run_session ci inst s (pre ++ [ev])).2 ≠ None.
Proof.
  intros Hpre Hev. revert s. induction Hpre as [|e pre He _ IH]; intros s; simpl.
  - by destruct (Hev s) as [m ->].
  - destruct (He s) as (s' & effs & ->). destruct (IH s') as [IH1 IH2]. rewrite IH1.
    by destruct (run_session ci inst s' (pre ++ [ev])) as [[??]?].
Qed.

(** A handler panic ends the run: the rest of the session and every later
    session are never used, and the run ends in a panic. *)
Lemma run_connector_panic ci prof inst s ss1 pre ev post ss2 :
  Forall (continues ci inst) pre → panics ci inst ev →
  run_connector ci prof inst s (ss1 ++ mkSession true (pre ++ ev :: post) :: ss2) =
  run_connector ci prof inst s (ss1 ++ [mkSession true (pre ++ [ev])]) ∧
  (run_connector ci prof inst s (ss1 ++ [mkSession true (pre ++ [ev])])).2 ≠ None.
Proof.
  intros Hpre Hev. revert s. induction ss1 as [|ses ss1 IH]; intros s; simpl.
  - destruct (run_session_panic ci inst s pre ev post Hpre Hev) as [-> Hp].
    by destruct (run_session ci inst s (pre ++ [ev])) as [[effs s'] [m|]].
  - destruct (connect_ok ses); simpl; [|done].
    destruct (run_session ci inst s (events ses)) as [[effs s'] [m|]]; [done|].
    destruct (u64_double prof s') as [s''|m]; [|done].
    destruct (IH s'') as [-> IH2].
    by destruct (run_connector ci prof inst s'' (ss1 ++ [mkSession true (pre ++ [ev])])).
Qed.

Lemma binance_malformed_panics inst msg :
  json_parse msg ≫= de_binance = None → panics binance_impl inst (EvOk (MText msg)).
Proof. intros Hj s. exists "Can't parse"%string. simpl. by rewrite Hj. Qed.

Lemma bitstamp_malformed_panics inst msg :
  json_parse msg ≫= de_hashmap = None → panics bitstamp_impl inst (EvOk (MText msg)).
Proof. intros Hj s. exists unwrap_err_msg. simpl. by rewrite Hj. Qed.

(** C15: A text frame the connector cannot read ends the task for good:
    for Binance a frame that does not decode as a [BinanceOrderBook]
    ([expect("Can't parse")]), for Bitstamp one that is not a JSON object
    ([unwrap()] on [from_str::<HashMap<String, Value>>]).  The rest of its
    session and every later session are never used, and the run ends in a
    panic; the frames before it are ones the loop reads on from. *)
Theorem malformed_frame_kills_connector prof inst ss1 pre msg post ss2 :
  (Forall (continues binance_impl inst) pre → json_parse msg ≫= de_binance = None →
   consume_binance prof inst (ss1 ++ mkSession true (pre ++ EvOk (MText msg) :: post) :: ss2) =
   consume_binance prof inst (ss1 ++ [mkSession true (pre ++ [EvOk (MText msg)])]) ∧
   (consume_binance prof inst (ss1 ++ [mkSession true (pre ++ [EvOk (MText msg)])])).2 ≠ None) ∧
  (Forall (continues bitstamp_impl inst) pre → json_parse msg ≫= de_hashmap = None →
   consume_bitstamp prof inst (ss1 ++ mkSession true (pre ++ EvOk (MText msg) :: post) :: ss2) =
   consume_bitstamp prof inst (ss1 ++ [mkSession true (pre ++ [EvOk (MText msg)])]) ∧
   (consume_bitstamp prof inst (ss1 ++ [mkSession true (pre ++ [EvOk (MText msg)])])).2 ≠ None).
Proof.
  split; intros Hpre Hj; apply run_connector_panic;
    auto using binance_malformed_panics, bitstamp_malformed_panics.
Qed.

(** C35: Binary frames never change Bitstamp's delay, where each resets
    Binance's to 100 ms: after any number of binary frames and a failure,
    Bitstamp's session ends with the delay it started with and Binance's with
    100 ms (unless there was no frame), so the two connectors that the
    specification describes as symmetric back off differently. *)
Theorem bitstamp_binary_keeps_backoff inst s bs :
  run_session bitstamp_impl inst s (map (λ b, EvOk (MBinary b)) bs ++ [EvErr]) = ([], s, None) ∧
  run_session binance_impl inst s (map (λ b, EvOk (MBinary b)) bs ++ [EvErr]) =
    ([], (if bs is [] then s else base_sleep), None).
Proof.
  split.
  - induction bs as [|b bs IH]; simpl in *; [done|]. by rewrite IH.
  - revert s. induction bs as [|b bs IH]; intros s; simpl in *; [done|].
    rewrite IH. by destruct bs.
Qed.

(** ** What the connectors emit *)

(** A property [P inst ob] of every book a handler emits holds of every
    book a whole run emits. *)
Section emits.
Context (ci : ConnectorImpl) (P : Instrument → OrderBook → Prop).
Context (Hemit : ∀ inst s ev c s' effs, conn_event ci inst s ev = Ret (c, s', effs) →
           ∀ ob, Emit ob ∈ effs → P inst ob).
Context (Hopen : ∀ inst ob, Emit ob ∉ conn_open ci inst).

Lemma run_session_emits inst s evs effs s' p ob :
  run_session ci inst s evs = (effs, s', p) → Emit ob ∈ effs → P inst ob.
Proof.
  revert s effs s' p. induction evs as [|ev evs IH]; intros s effs s' p; simpl.
  { intros H; inversion H; subst. by intros ?%elem_of_nil. }
  destruct (conn_event ci inst s ev) as [[[[] s1] e1]|m] eqn:He.
  - destruct (run_session ci inst s1 evs) as [[e2 s2] p2] eqn:Hr. intros H; inversion H; subst.
    intros [Hin|Hin]%elem_of_app; [by eapply Hemit|by eapply IH].
  - intros H; inversion H; subst. by eapply Hemit.
  - intros H; inversion H; subst. by intros ?%elem_of_nil.
Qed.

Lemma run_connector_emits prof inst s sessions ob :
  Emit ob ∈ (run_connector ci prof inst s sessions).1 → P inst ob.
Proof.
  revert s. induction sessions as [|ses rest IH]; intros s; simpl; [by intros ?%elem_of_nil|].
  destruct (connect_ok ses); simpl; [|by intros ?%elem_of_nil].
  destruct (run_session ci inst s (events ses)) as [[effs s'] p] eqn:Hr.
  destruct p as [m|].
  { intros [Hin|Hin]%elem_of_app; [by apply Hopen in Hin|by eapply run_session_emits]. }
  destruct (u64_double prof s') as [s''|m].
  - destruct (run_connector ci prof inst s'' rest) as [e p'] eqn:E. simpl.
    intros [Hin|Hin]%elem_of_app; [by apply Hopen in Hin|].
    apply elem_of_app in Hin as [Hin|Hin]; [by eapply run_session_emits|].
    apply elem_of_cons in Hin as [Hin|Hin]; [done|].
    specialize (IH s''). rewrite E in IH. by apply IH.
  - simpl. intros [Hin|Hin]%elem_of_app; [by apply Hopen in Hin|].
    apply elem_of_app in Hin as [Hin|Hin]; [by eapply run_session_emits|].
    by apply list_elem_of_singleton in Hin.
Qed.
End emits.

Lemma binance_emit_spec inst s ev c s' effs :
  binance_event inst s ev = Ret (c, s', effs) →
  ∀ ob, Emit ob ∈ effs → exchange ob = Binance ∧ instrument ob = get_symbol_compact inst.
Proof.
  destruct ev as [[j|b|b [|]|b| |]|]; simpl; try (intros H; inversion H; subst; set_solver).
  destruct (json_parse j ≫= de_binance); simpl; intros H; inversion H; subst.
  intros ob Hin%list_elem_of_singleton. by injection Hin as ->.
Qed.

Lemma bitstamp_emit_spec inst s ev c s' effs :
  bitstamp_event inst s ev = Ret (c, s', effs) →
  ∀ ob, Emit ob ∈ effs → exchange ob = Bitstamp ∧ instrument ob = get_symbol_compact inst.
Proof.
  destruct ev as [[j|b|b [|]|b| |]|]; simpl; try (intros H; inversion H; subst; set_solver).
  destruct (json_parse j ≫= de_hashmap) as [obj|]; simpl; [|done].
  destruct (hashmap_get obj "event") as [v|]; simpl; [|done].
  destruct (de_string v) as [e|]; simpl; [|done].
  destruct (String.eqb e "data"); simpl; [|intros H; inversion H; subst; set_solver].
  destruct (json_parse j ≫= de_bitstamp); simpl; intros H; inversion H; subst.
  intros ob Hin%list_elem_of_singleton. by injection Hin as ->.
Qed.

(** C27: Every order book a connector emits onto the update channel carries
    the connector's own exchange ([Binance] for [consume_binance], [Bitstamp]
    for [consume_bitstamp]) and the compact symbol of the instrument, whatever
    the network delivers. *)
Theorem connectors_stamp_exchange prof inst sessions ob :
  (Emit ob ∈ (consume_binance prof inst sessions).1 →
     exchange ob = Binance ∧ instrument ob = get_symbol_compact inst) ∧
  (Emit ob ∈ (consume_bitstamp prof inst sessions).1 →
     exchange ob = Bitstamp ∧ instrument ob = get_symbol_compact inst).
Proof.
  split; [apply (run_connector_emits binance_impl (λ i o, exchange o = Binance ∧ instrument o = get_symbol_compact i) binance_emit_spec)|apply (run_connector_emits bitstamp_impl (λ i o, exchange o = Bitstamp ∧ instrument o = get_symbol_compact i) bitstamp_emit_spec)];
    intros i o; set_solver.
Qed.

(** The books a run sent on the update channel, in order. *)
Definition emitted (effs : list Effect) : list OrderBook :=
  omap (λ e, match e with Emit ob => Some ob | _ => None end) effs.

Lemma emitted_spec effs ob : ob ∈ emitted effs ↔ Emit ob ∈ effs.
Proof.
  unfold emitted. rewrite list_elem_of_omap. split.
  - intros ([] & Hin & Heq); simplify_eq; done.
  - intros Hin. by exists (Emit ob).
Qed.

Lemma consume_binance_stamped prof inst sessions :
  Forall (λ ob, exchange ob = Binance) (emitted (consume_binance prof inst sessions).1).
Proof.
  apply Forall_forall. intros ob Hob%emitted_spec.
  eapply proj1, (run_connector_emits binance_impl (λ i o, exchange o = Binance ∧ instrument o = get_symbol_compact i) binance_emit_spec); [|exact Hob].
  intros i o. set_solver.
Qed.

Lemma consume_bitstamp_stamped prof inst sessions :
  Forall (λ ob, exchange ob = Bitstamp) (emitted (consume_bitstamp prof inst sessions).1).
Proof.
  apply Forall_forall. intros ob Hob%emitted_spec.
  eapply proj1, (run_connector_emits bitstamp_impl (λ i o, exchange o = Bitstamp ∧ instrument o = get_symbol_compact i) bitstamp_emit_spec); [|exact Hob].
  intros i o. set_solver.
Qed.

(** ** The books the connectors emit are well formed

    Every price and amount a connector emits went through [parse_f64], so
    it is a 64-bit pattern. *)

Lemma binance_emit_wf inst s ev c s' effs :
  binance_event inst s ev = Ret (c, s', effs) → ∀ ob, Emit ob ∈ effs → orderbook_wf ob.
Proof.
  destruct ev as [[j|b|b [|]|b| |]|]; simpl; try (intros H; inversion H; subst; set_solver).
  destruct (json_parse j ≫= de_binance) as [raw|] eqn:Hd; simpl; intros H; inversion H; subst.
  apply bind_Some in Hd as (v & _ & Hv%de_binance_wf).
  intros ob Hin%list_elem_of_singleton. injection Hin as ->. exact Hv.
Qed.

Lemma bitstamp_emit_wf inst s ev c s' effs :
  bitstamp_event inst s ev = Ret (c, s', effs) → ∀ ob, Emit ob ∈ effs → orderbook_wf ob.
Proof.
  destruct ev as [[j|b|b [|]|b| |]|]; simpl; try (intros H; inversion H; subst; set_solver).
  destruct (json_parse j ≫= de_hashmap) as [obj|]; simpl; [|done].
  destruct (hashmap_get obj "event") as [v|]; simpl; [|done].
  destruct (de_string v) as [e|]; simpl; [|done].
  destruct (String.eqb e "data"); simpl; [|intros H; inversion H; subst; set_solver].
  destruct (json_parse j ≫= de_bitstamp) as [raw|] eqn:Hd; simpl; intros H; inversion H; subst.
  apply bind_Some in Hd as (w & _ & Hw%de_bitstamp_wf).
  intros ob Hin%list_elem_of_singleton. injection Hin as ->. exact Hw.
Qed.

Lemma consume_binance_wf prof inst sessions :
  Forall orderbook_wf (emitted (consume_binance prof inst sessions).1).
Proof.
  apply Forall_forall. intros ob Hob%emitted_spec.
  eapply (run_connector_emits binance_impl (λ _ o, orderbook_wf o) binance_emit_wf); [|exact Hob].
  intros i o. set_solver.
Qed.

Lemma consume_bitstamp_wf prof inst sessions :
  Forall orderbook_wf (emitted (consume_bitstamp prof inst sessions).1).
Proof.
  apply Forall_forall. intros ob Hob%emitted_spec.
  eapply (run_connector_emits bitstamp_impl (λ _ o, orderbook_wf o) bitstamp_emit_wf); [|exact Hob].
  intros i o. set_solver.
Qed.

(** ** Runs of a connector on a network that keeps failing *)

Definition failing_sessions (n : nat) : list Session := repeat (mkSession true [EvErr]) n.

Definition btc_usd : Instrument := mkInstrument "usd" "btc".

Definition overflow_msg : string := "attempt to multiply with overflow".

(** [100 * 2^j] fits in a [u64] exactly up to [j = 57]. *)
Lemma base_sleep_pow_lt j : base_sleep * 2 ^ Z.of_nat j < 2 ^ 64 ↔ (j ≤ 57)%nat.
Proof.
  unfold base_sleep. split; intros H.
  - destruct (decide (j ≤ 57)%nat) as [|Hj]; [done|]. exfalso.
    assert (2 ^ 58 ≤ 2 ^ Z.of_nat j) by (apply Z.pow_le_mono_r; lia).
    assert (100 * 2 ^ 58 ≤ 100 * 2 ^ Z.of_nat j) by lia.
    assert (2 ^ 64 ≤ 100 * 2 ^ 58) by (vm_compute; congruence). lia.
  - assert (2 ^ Z.of_nat j ≤ 2 ^ 57) by (apply Z.pow_le_mono_r; lia).
    assert (100 * 2 ^ 57 < 2 ^ 64) by (vm_compute; reflexivity). lia.
Qed.

(** From a delay [100 * 2^k], [n] failed sessions of a debug build sleep
    [100 * 2^k], [100 * 2^(k+1)], ... and panic on the doubling after
    [100 * 2^57]. *)
Lemma debug_failing_run inst k n : (k ≤ 57)%nat →
  (run_connector binance_impl Debug inst (base_sleep * 2 ^ Z.of_nat k) (failing_sessions n)).2 =
    (if decide (58 ≤ k + n)%nat then Some overflow_msg else None) ∧
  sleeps (run_connector binance_impl Debug inst (base_sleep * 2 ^ Z.of_nat k) (failing_sessions n)).1 =
    (λ i, base_sleep * 2 ^ Z.of_nat (k + i)) <$> seq 0 (Nat.min n (58 - k)).
Proof.
  revert k. induction n as [|n IH]; intros k Hk; simpl.
  { rewrite decide_False by lia. done. }
  fold (failing_sessions n). unfold u64_double.
  destruct (Z.ltb_spec (base_sleep * 2 ^ Z.of_nat k * 2) (2 ^ 64)) as [Hlt|Hge].
  - assert ((k + 1) ≤ 57)%nat as Hk1.
    { apply base_sleep_pow_lt. rewrite Nat2Z.inj_add, Z.pow_add_r by lia. lia. }
    replace (base_sleep * 2 ^ Z.of_nat k * 2) with (base_sleep * 2 ^ Z.of_nat (S k))
      by (rewrite Nat2Z.inj_succ, Z.pow_succ_r by lia; lia).
    destruct (IH (S k) ltac:(lia)) as [IH1 IH2].
    destruct (run_connector binance_impl Debug inst _ (failing_sessions n)) as [effs p] eqn:E.
    simpl in *. split.
    + rewrite IH1. repeat case_decide; try done; lia.
    + unfold sleeps in *. replace (58 - k)%nat with (S (57 - k)) by lia.
      simpl. rewrite IH2, ?Nat.add_0_r. f_equal.
      rewrite <-fmap_S_seq, <-list_fmap_compose. apply list_fmap_ext.
      intros _ i _. simpl. do 3 f_equal. lia.
  - assert (k = 57%nat) as ->.
    { destruct (decide (k = 57%nat)); [done|]. exfalso.
      assert (base_sleep * 2 ^ Z.of_nat (k + 1) < 2 ^ 64) as Hc by (apply base_sleep_pow_lt; lia).
      rewrite Nat2Z.inj_add, Z.pow_add_r in Hc by lia. lia. }
    simpl. split; [done|]. by rewrite Nat.min_0_r.
Qed.

(** C34: With overflow checks, [n] consecutive failed sessions of the
    Binance connector sleep [100], [200], ..., doubling each time, until the
    [u64] [sleep *= 2] overflows: the run panics exactly when [n >= 58],
    after sleeping [100 * 2^57] ms, and the delay never reaches a ceiling
    before that. *)
Theorem binance_debug_backoff_overflow inst n :
  (consume_binance Debug inst (failing_sessions n)).2 =
    (if decide (58 ≤ n)%nat then Some overflow_msg else None) ∧
  sleeps (consume_binance Debug inst (failing_sessions n)).1 =
    (λ i, base_sleep * 2 ^ Z.of_nat i) <$> seq 0 (Nat.min n 58).
Proof.
  pose proof (debug_failing_run inst 0 n ltac:(lia)) as [H1 H2].
  rewrite Z.mul_1_r in H1, H2. split; [exact H1|exact H2].
Qed.

Lemma failing_sessions_no_reset resets n :
  (resets EvErr = false) → Forall (no_reset_session resets) (failing_sessions n).
Proof.
  intros H. induction n as [|n IH]; constructor; [|done]. split; [done|]. by constructor.
Qed.

(** ** Witnesses *)

Lemma backoff_doubling_witness :
  sleeps (run_connector binance_impl Release btc_usd base_sleep (failing_sessions 3)).1 =
  (λ i, (base_sleep * 2 ^ Z.of_nat i) mod 2 ^ 64) <$> seq 0 (length (failing_sessions 3)).
Proof.
  apply (backoff_doubling binance_impl binance_resets binance_sleep_spec binance_open_sleeps).
  - unfold base_sleep. lia.
  - apply failing_sessions_no_reset. reflexivity.
Defined.

Lemma backoff_u64_bounds_witness :
  (base_sleep * 2 ^ Z.of_nat 57) mod 2 ^ 64 = base_sleep * 2 ^ Z.of_nat 57 ∧
  2 ^ 64 ≤ base_sleep * 2 ^ Z.of_nat 58 ∧
  (base_sleep * 2 ^ Z.of_nat 62) mod 2 ^ 64 = 0.
Proof.
  split_and!.
  - apply (backoff_u64_bounds 57). lia.
  - apply (backoff_u64_bounds 58). lia.
  - apply (backoff_u64_bounds 62). lia.
Defined.

Lemma malformed_frame_kills_connector_witness :
  consume_binance Release btc_usd ([] ++ mkSession true ([EvOk (MBinary [])] ++ EvOk (MText "") :: [EvOk MClose])
                                     :: [mkSession true []]) =
  consume_binance Release btc_usd ([] ++ [mkSession true ([EvOk (MBinary [])] ++ [EvOk (MText "")])]) ∧
  (consume_binance Release btc_usd ([] ++ [mkSession true ([EvOk (MBinary [])] ++ [EvOk (MText "")])])).2 ≠ None.
Proof.
  apply (malformed_frame_kills_connector Release btc_usd [] [EvOk (MBinary [])] "" [EvOk MClose]
           [mkSession true []]).
  - constructor; [|constructor]. intros s. by exists 100, [].
  - reflexivity.
Defined.

(** ** A Bitstamp session, end to end *)

Definition bitstamp_ack : json :=
  JObj [("event", JStr "bts:subscription_succeeded"); ("channel", JStr "order_book_btcusd");
        ("data", JObj [])].

Definition bitstamp_data : json :=
  JObj [("data", JObj [("timestamp", JStr "1700000000"); ("microtimestamp", JStr "1700000000123456");
                       ("bids", JArr [JArr [JStr "100.5"; JStr "1"]]);
                       ("asks", JArr [JArr [JStr "100.8"; JStr "0.5"]])]);
        ("channel", JStr "order_book_btcusd"); ("event", JStr "data")].

(** A Bitstamp session that acknowledges the subscription and then
    delivers one order book: the connector connects, subscribes to
    [order_book_btcusd], ignores the acknowledgement (whose empty [data]
    would not decode as a book, but only ["data"] events are decoded), emits
    the book stamped [Bitstamp]/[btcusd] with sequence = [timestamp] and the
    decimal levels read as [f64], and sleeps 100 ms when the stream ends. *)
Example bitstamp_session_trace :
  consume_bitstamp Release btc_usd
    [mkSession true [EvOk (MText (json_print bitstamp_ack)); EvOk (MText (json_print bitstamp_data))]] =
  ([Connect "wss://ws.bitstamp.net";
    SendText (json_print (JObj [("data", JObj [("channel", JStr "order_book_btcusd")]); ("event", JStr "bts:subscribe")]));
    Emit (mkOrderBook Bitstamp 1700000000 "btcusd"
            [mkOrderBookLevel (f64_of_decimal 1005 1) (f64_of_decimal 1 0)]
            [mkOrderBookLevel (f64_of_decimal 1008 1) (f64_of_decimal 5 1)]);
    Sleep 100], None).
Proof. vm_compute. reflexivity. Qed.
