(* ===== verification/Server.v ===== *)
(** * Server: the aggregation loop of [server/src/main.rs] and the
    forwarding tasks of [OrderbookAggregatorService::book_summary]

    The system state holds the update channel (connectors to aggregator), the
    aggregator's receiver position, its [OrderbookStorage] and status, the
    summary channel (aggregator to forwarders; the service keeps one receiver
    it never reads), and one forwarder per client with its bounded [mpsc]
    queue of 16.  [lstep a] is one action of task [a] ([Actor]), and [step]
    interleaves the actions of all tasks:

    - a connector sends a snapshot ([sender.send(ob)]);
    - the aggregator receives one ([streams.stream.recv()]): on [Ok] it
      updates the storage, merges and publishes the summary; on an error
      ([Lagged] or [Closed]) the [while let Ok(..)] loop ends; a panic of
      [merge] ends the task;
    - a client subscribes ([self.sender.subscribe()]);
    - a forwarder receives a summary ([watcher.recv()]) and pushes it to its
      client ([response_tx.send(..).await], which waits while the queue is
      full and fails once the client is gone), or stops on an error;
    - a client reads from its queue or disconnects.

    Invariants are proved for every reachable state ([rtc step]).
    [subscriptions_init] models [Subscriptions::init] of the data streamer
    (one connector task per exchange of [main]'s subscriptions), and the
    end-to-end section connects the books those tasks emit, in any
    interleaving, to the storage.  The drain section bounds every run of the
    internal actions (aggregator, forwarders, clients reading) by
    [drain_measure]. *)

From stdpp Require Import base numbers list relations strings sorting.
From S2P Require Import Prelude F64 Model Storage Aggregator Broadcast Decode Json Connector.

Inductive AggStatus := AggRunning | AggStopped | AggPanicked (msg : string).

Inductive FwdStatus :=
| FwdWaiting                 (** in [watcher.recv().await] *)
| FwdSending (s : Summary)   (** in [response_tx.send(Ok(s)).await] *)
| FwdDone.                   (** the task has ended *)

(** The forwarding task of one client: its receiver position [fwd_next]
    ([watcher]), where it is, the client's [mpsc] queue, whether the client
    is still there, and two ghost fields that no code reads: the summaries
    the client has taken from its stream ([fwd_delivered]) and the number of
    summaries the channel had received when the client subscribed
    ([fwd_start]), taken from the channel and not from [subscribe()]. *)
Record Forwarder := mkForwarder {
  fwd_next : nat;
  fwd_status : FwdStatus;
  fwd_queue : list Summary;
  fwd_client_alive : bool;
  fwd_delivered : list Summary;
  fwd_start : nat
}.

Record System := mkSystem {
  upd : Chan.t OrderBook;
  agg_next : nat;
  agg_status : AggStatus;
  storage : OrderbookStorage;
  sums : Chan.t Summary;
  clients : list Forwarder
}.

Definition channel_capacity : nat := 16.
Definition response_capacity : nat := 16.

(** [main]: the summary channel with its receiver kept by the service, the
    storage, and [Subscriptions::init]'s update channel with the aggregator's
    receiver. *)
Definition system_init : System :=
  mkSystem (Chan.channel (A:=OrderBook) channel_capacity).1 (Chan.channel (A:=OrderBook) channel_capacity).2
    AggRunning storage_new (Chan.channel (A:=Summary) channel_capacity).1 [].

(** [Subscriptions] of [data-streamer/src/lib.rs]: an instrument and the
    exchanges to stream it from. *)
Record Subscriptions := mkSubscriptions { sub_instrument : Instrument; sub_exchanges : list Exchange }.

(** The subscription [main] builds from the command line: both exchanges. *)
Definition main_subscriptions (base quote : string) : Subscriptions :=
  mkSubscriptions (mkInstrument quote base) [Binance; Bitstamp].

(** The connector [Subscriptions::init] spawns for an exchange. *)
Definition connector_task (ex : Exchange) : Profile → Instrument → list Session → list Effect * option string :=
  match ex with Binance => consume_binance | Bitstamp => consume_bitstamp end.

(** [Subscriptions::init]: the update channel of capacity 16 and its
    receiver (the [Streamer]), and one task per listed exchange, each given
    the instrument and a clone of the sender. *)
Definition subscriptions_init (sub : Subscriptions) : Chan.t OrderBook * nat * list (Exchange * Instrument) :=
  let '(tx, rx) := Chan.channel channel_capacity in
  (tx, rx, (λ ex, (ex, sub_instrument sub)) <$> sub_exchanges sub).

(** The books a spawned task sends, given the sessions the network offers it. *)
Definition task_emitted (prof : Profile) (t : Exchange * Instrument) (ses : list Session) : list OrderBook :=
  emitted (connector_task t.1 prof t.2 ses).1.

(** Who takes a step: a connector task, the aggregation loop, a new client
    ([book_summary]), the forwarding task of client [i], or client [i]. *)
Inductive Actor := ByConnector | ByAggregator | BySubscriber | ByForwarder (i : nat) | ByClient (i : nat).

Section with_merge.
Context `{!HashMapIter, !SortUnstable}.

(** One iteration of the aggregation loop on a received snapshot. *)
Definition agg_on_update (st : OrderbookStorage) (sc : Chan.t Summary) (ob : OrderBook)
  : OrderbookStorage * Chan.t Summary * AggStatus :=
  let st' := storage_update st (exchange ob) ob in
  match merge st' with
  | Ret t => (st', (Chan.send sc (summary_from t)).1, AggRunning)
  | Panic m => (st', sc, AggPanicked m)
  end.

Definition set_client (s : System) (i : nat) (f : Forwarder) : System :=
  mkSystem (upd s) (agg_next s) (agg_status s) (storage s) (sums s) (<[i := f]> (clients s)).

(** A forwarder task ends: its [watcher] is dropped. *)
Definition end_client (s : System) (i : nat) (f : Forwarder) : System :=
  mkSystem (upd s) (agg_next s) (agg_status s) (storage s) (Chan.drop_rx (sums s))
    (<[i := f]> (clients s)).

Inductive lstep : Actor → System → System → Prop :=
| step_connector_send s ob :
    orderbook_wf ob →
    lstep ByConnector s (mkSystem (Chan.send (upd s) ob).1 (agg_next s) (agg_status s) (storage s) (sums s) (clients s))
| step_agg_recv s n' ob :
    agg_status s = AggRunning →
    Chan.try_recv (upd s) (agg_next s) = (n', RecvOk ob) →
    lstep ByAggregator s (let '(st', sc', as') := agg_on_update (storage s) (sums s) ob in
            mkSystem (upd s) n' as' st' sc' (clients s))
| step_agg_recv_err s n' e :
    agg_status s = AggRunning →
    Chan.try_recv (upd s) (agg_next s) = (n', RecvErr e) →
    lstep ByAggregator s (mkSystem (Chan.drop_rx (upd s)) n' AggStopped (storage s) (sums s) (clients s))
| step_subscribe s :
    lstep BySubscriber s (mkSystem (upd s) (agg_next s) (agg_status s) (storage s) (Chan.subscribe (sums s)).1
              (clients s ++ [mkForwarder (Chan.subscribe (sums s)).2 FwdWaiting [] true []
                               (Chan.tail (sums s))]))
| step_fwd_recv s i f n' v :
    clients s !! i = Some f → fwd_status f = FwdWaiting →
    Chan.try_recv (sums s) (fwd_next f) = (n', RecvOk v) →
    lstep (ByForwarder i) s (set_client s i (mkForwarder n' (FwdSending v) (fwd_queue f) (fwd_client_alive f)
                              (fwd_delivered f) (fwd_start f)))
| step_fwd_recv_err s i f n' e :
    clients s !! i = Some f → fwd_status f = FwdWaiting →
    Chan.try_recv (sums s) (fwd_next f) = (n', RecvErr e) →
    lstep (ByForwarder i) s (end_client s i (mkForwarder n' FwdDone (fwd_queue f) (fwd_client_alive f)
                              (fwd_delivered f) (fwd_start f)))
| step_fwd_push s i f v :
    clients s !! i = Some f → fwd_status f = FwdSending v → fwd_client_alive f = true →
    length (fwd_queue f) < response_capacity →
    lstep (ByForwarder i) s (set_client s i (mkForwarder (fwd_next f) FwdWaiting (fwd_queue f ++ [v]) true
                              (fwd_delivered f) (fwd_start f)))
| step_fwd_push_fail s i f v :
    clients s !! i = Some f → fwd_status f = FwdSending v → fwd_client_alive f = false →
    lstep (ByForwarder i) s (end_client s i (mkForwarder (fwd_next f) FwdDone (fwd_queue f) false
                              (fwd_delivered f) (fwd_start f)))
| step_client_read s i f v q :
    clients s !! i = Some f → fwd_queue f = v :: q → fwd_client_alive f = true →
    lstep (ByClient i) s (set_client s i (mkForwarder (fwd_next f) (fwd_status f) q true
                              (fwd_delivered f ++ [v]) (fwd_start f)))
| step_client_disconnect s i f :
    clients s !! i = Some f → fwd_client_alive f = true →
    lstep (ByClient i) s (set_client s i (mkForwarder (fwd_next f) (fwd_status f) [] false
                              (fwd_delivered f) (fwd_start f))).

(** A step of any task. *)
Definition step (s s' : System) : Prop := ∃ a, lstep a s s'.
End with_merge.

(** ** Invariants of the aggregation loop *)

Lemma chan_send_log {A} (c : Chan.t A) v :
  Chan.log (Chan.send c v).1 = Chan.log c ∨ Chan.log (Chan.send c v).1 = Chan.log c ++ [v].
Proof. unfold Chan.send. case_decide; [left|right]; done. Qed.

Lemma try_recv_next_le {A} (c : Chan.t A) n :
  n ≤ Chan.tail c → (Chan.try_recv c n).1 ≤ Chan.tail c.
Proof.
  intros Hn. unfold Chan.try_recv. repeat case_decide; simpl; try lia.
  destruct (Chan.log c !! n) eqn:E; simpl; [|lia]. apply lookup_lt_Some in E. unfold Chan.tail. lia.
Qed.

Lemma take_prefix_stable {A} (l1 l2 : list A) k :
  k ≤ length l1 → (l2 = l1 ∨ ∃ x, l2 = l1 ++ [x]) → take k l2 = take k l1.
Proof. intros Hk [->|[x ->]]; [done|]. by rewrite take_app_le. Qed.

Section invariants.
Context `{!HashMapIter, !SortUnstable}.

(** The aggregator's state: every snapshot sent is well formed, the storage
    satisfies its invariant, and while the loop runs its storage is the
    last-write-wins fold of the snapshots it has read, in channel order. *)
Definition agg_inv (s : System) : Prop :=
  Forall orderbook_wf (Chan.log (upd s)) ∧ storage_inv (storage s) ∧
  agg_next s ≤ Chan.tail (upd s) ∧
  (agg_status s = AggRunning → storage s = store_all storage_new (take (agg_next s) (Chan.log (upd s)))).

Lemma agg_on_update_storage st sc ob :
  (agg_on_update st sc ob).1.1 = store_snapshot st ob.
Proof. unfold agg_on_update. by destruct (merge _). Qed.

Lemma agg_inv_step s s' : step s s' → agg_inv s → agg_inv s'.
Proof.
  intros [a Hstep] (Hwf & Hst & Hle & Hrun).
  destruct Hstep as [s ob Hob|s n' ob Hrs Hr|s n' e Hrs Hr| | | | | | |]; unfold agg_inv;
    cbn [upd agg_next agg_status storage sums clients] in *;
    try (unfold set_client, end_client, Chan.drop_rx, Chan.subscribe; simpl; by split_and!).
  - destruct (chan_send_log (upd s) ob) as [Hl|Hl]; unfold Chan.tail in *; rewrite Hl.
    + split_and!; done.
    + rewrite Forall_app, length_app, take_app_le by lia. split_and!; auto; lia.
  - apply try_recv_ok in Hr as (-> & Hv & _).
    pose proof (agg_on_update_storage (storage s) (sums s) ob) as Hs'.
    destruct (agg_on_update (storage s) (sums s) ob) as [[st' sc'] as'] eqn:E; simpl in *.
    subst st'. apply lookup_lt_Some in Hv as Hlt.
    split_and!; [done| |unfold Chan.tail; lia|].
    + apply store_snapshot_inv; [done|]. by eapply Forall_lookup_1.
    + intros _. rewrite (take_S_r _ _ ob) by done. rewrite store_all_snoc, Hrun by done. done.
  - split_and!; [done|done| |done]. unfold Chan.drop_rx, Chan.tail in *; simpl.
    pose proof (try_recv_next_le (upd s) (agg_next s) Hle) as Hnx. rewrite Hr in Hnx. done.
Qed.

Lemma agg_inv_init : agg_inv system_init.
Proof. split_and!; [constructor|apply storage_new_inv|done|done]. Qed.

Lemma agg_inv_reachable s : rtc step system_init s → agg_inv s.
Proof. intros Hr. eapply rtc_invariant; [|exact Hr|apply agg_inv_init]. apply agg_inv_step. Qed.

(** C2: While the aggregation loop of [main.rs] runs, its storage holds, for
    each exchange, the most recent snapshot of that exchange among those the
    loop has received from the update channel, in the order they were sent. *)
Theorem aggregator_storage_last_write_wins s e :
  rtc step system_init s → agg_status s = AggRunning →
  storage_get (storage s) e = last_from e (take (agg_next s) (Chan.log (upd s))).
Proof.
  intros Hr Hrun. destruct (agg_inv_reachable s Hr) as (_ & _ & _ & Hst).
  rewrite (Hst Hrun), store_all_get. by destruct (last_from e _).
Qed.
End invariants.

(** ** Every published summary is a merge of the snapshots read so far *)

Section summaries.
Context `{!HashMapIter, !SortUnstable}.

Definition sums_inv (s : System) : Prop :=
  ∀ sm, sm ∈ Chan.log (sums s) → ∃ k t, 1 ≤ k ≤ Chan.tail (upd s) ∧
    merge (store_all storage_new (take k (Chan.log (upd s)))) = Ret t ∧ sm = summary_from t.

Lemma sums_inv_upd_grow s c' :
  (Chan.log c' = Chan.log (upd s) ∨ ∃ x, Chan.log c' = Chan.log (upd s) ++ [x]) →
  sums_inv s →
  sums_inv (mkSystem c' (agg_next s) (agg_status s) (storage s) (sums s) (clients s)).
Proof.
  intros Hc Hs sm Hin. destruct (Hs sm Hin) as (k & t & Hk & Hm & ->). exists k, t.
  unfold Chan.tail in *; cbn [upd sums] in *.
  assert (take k (Chan.log c') = take k (Chan.log (upd s))) as ->.
  { apply take_prefix_stable; [lia|exact Hc]. }
  assert (length (Chan.log (upd s)) ≤ length (Chan.log c')).
  { destruct Hc as [Hc|[x Hc]]; rewrite Hc, ?length_app; lia. }
  split_and!; try done; lia.
Qed.

Lemma sums_inv_step s s' : step s s' → agg_inv s → sums_inv s → sums_inv s'.
Proof.
  intros [a Hstep] Hagg Hs. destruct Hagg as (Hwf & _ & Hle & Hrun).
  destruct Hstep as [s ob Hob|s n' ob Hrs Hr|s n' e Hrs Hr|s|s i f n' v|s i f n' e|s i f v|s i f v|s i f v q|s i f].
  - apply sums_inv_upd_grow; [|done]. destruct (chan_send_log (upd s) ob); naive_solver.
  - apply try_recv_ok in Hr as (-> & Hv & _). apply lookup_lt_Some in Hv as Hlt.
    unfold agg_on_update.
    destruct (merge (storage_update (storage s) (exchange ob) ob)) as [t|m] eqn:Hm; cbn [sums upd]; [|done].
    intros sm Hin. cbn [sums upd] in Hin |- *.
    destruct (chan_send_log (sums s) (summary_from t)) as [Hl|Hl];
      rewrite Hl in Hin; [by apply Hs|].
    apply elem_of_app in Hin as [Hin|Hin%list_elem_of_singleton]; [by apply Hs|]. subst sm.
    exists (S (agg_next s)), t. unfold Chan.tail. split_and!; [lia|lia| |done].
    rewrite (take_S_r _ _ ob), store_all_snoc, <-(Hrun Hrs) by done. exact Hm.
  - apply (sums_inv_upd_grow s (Chan.drop_rx (upd s))); [by left|done].
  - done.
  - done.
  - done.
  - done.
  - done.
  - done.
  - done.
Qed.
End summaries.

Section summary_theorems.
Context `{!HashMapIter, !SortUnstable}.

Lemma sums_inv_init : sums_inv system_init.
Proof. intros sm Hin. by apply elem_of_nil in Hin. Qed.

Lemma reachable_invs s : rtc step system_init s → agg_inv s ∧ sums_inv s.
Proof.
  intros Hr. eapply (rtc_invariant _ (λ s, agg_inv s ∧ sums_inv s)); [|exact Hr|].
  - intros x y Hxy [Ha Hs]. split; [by eapply agg_inv_step|by eapply sums_inv_step].
  - split; [apply agg_inv_init|apply sums_inv_init].
Qed.

(** A published summary is the merge of a storage satisfying its invariant. *)
Lemma published_is_merge s sm :
  rtc step system_init s → sm ∈ Chan.log (sums s) →
  ∃ st t, storage_inv st ∧ merge st = Ret t ∧ sm = summary_from t.
Proof.
  intros Hr Hin. destruct (reachable_invs s Hr) as [(Hwf & _) Hs].
  destruct (Hs sm Hin) as (k & t & Hk & Hm & ->).
  exists (store_all storage_new (take k (Chan.log (upd s)))), t. split_and!; [|done|done].
  apply store_all_inv; [apply storage_new_inv|by apply Forall_take].
Qed.

(** C9: Every summary the aggregator has published is the merge of the
    storage built from the first [k >= 1] snapshots of the update channel;
    hence each has at most 10 bids and 10 asks, bids sorted by non-increasing
    price, asks by non-decreasing price, and spread equal to the first ask
    price minus the first bid price. *)
Theorem published_summaries_wellformed s sm :
  rtc step system_init s → sm ∈ Chan.log (sums s) →
  length (summary_bids sm) ≤ 10 ∧ length (summary_asks sm) ≤ 10 ∧
  Sorted bid_before (summary_bids sm) ∧ Sorted ask_before (summary_asks sm) ∧
  ∃ bb ba, summary_bids sm !! 0%nat = Some bb ∧ summary_asks sm !! 0%nat = Some ba ∧
           spread sm = f64_sub (level_price ba) (level_price bb).
Proof.
  intros Hr Hin. destruct (published_is_merge s sm Hr Hin) as (st & [[sp b] a] & Hinv & Hm & ->). simpl.
  destruct (merge_ok_depth _ _ _ _ Hm) as [Hb Ha].
  destruct (merge_ok_sorted _ _ _ _ Hinv Hm) as [Hsb Hsa].
  split_and!; [rewrite Hb; unfold depth; lia|rewrite Ha; unfold depth; lia|done|done|].
  by apply (merge_ok_spread _ _ _ _ Hm).
Qed.
End summary_theorems.

(** ** Receivers of the summary channel *)

Definition fwd_active (f : Forwarder) : bool :=
  match fwd_status f with FwdDone => false | _ => true end.

Fixpoint n_active (l : list Forwarder) : nat :=
  match l with [] => 0 | f :: l' => (if fwd_active f then 1 else 0) + n_active l' end.

Lemma n_active_insert (l : list Forwarder) i f f' :
  l !! i = Some f →
  n_active (<[i := f']> l) + (if fwd_active f then 1 else 0) = n_active l + (if fwd_active f' then 1 else 0).
Proof.
  revert i. induction l as [|g l IH]; intros [|i] Hi; simpl in *; try done.
  - injection Hi as ->. lia.
  - specialize (IH i Hi). lia.
Qed.

Lemma n_active_snoc l f : n_active (l ++ [f]) = n_active l + (if fwd_active f then 1 else 0).
Proof. induction l as [|g l IH]; simpl; [lia|]. rewrite IH. lia. Qed.

Lemma n_active_same (l : list Forwarder) i f f' :
  l !! i = Some f → fwd_active f' = fwd_active f → n_active (<[i := f']> l) = n_active l.
Proof. intros Hi Ha. pose proof (n_active_insert l i f f' Hi). rewrite Ha in *. lia. Qed.

Lemma n_active_end (l : list Forwarder) i f f' :
  l !! i = Some f → fwd_active f = true → fwd_active f' = false →
  S (n_active (<[i := f']> l)) = n_active l.
Proof. intros Hi Ha Ha'. pose proof (n_active_insert l i f f' Hi). rewrite Ha, Ha' in *. lia. Qed.

(** The service's own [receiver], never read, plus one per running
    forwarder. *)
Definition rx_inv (s : System) : Prop := Chan.rx_cnt (sums s) = S (n_active (clients s)).

Lemma chan_send_rx {A} (c : Chan.t A) v : Chan.rx_cnt (Chan.send c v).1 = Chan.rx_cnt c.
Proof. unfold Chan.send. by case_decide. Qed.

Lemma rx_inv_step `{!HashMapIter, !SortUnstable} s s' : step s s' → rx_inv s → rx_inv s'.
Proof.
  unfold rx_inv.
  intros [a Hstep]. destruct Hstep as [s ob Hob|s n' ob Hrs Hr|s n' e Hrs Hr|s|s i f n' v Hf Hst Hr|s i f n' e Hf Hst Hr
                |s i f v Hf Hst Hal Hq|s i f v Hf Hst Hal|s i f v q Hf Hq Hal|s i f Hf];
    cbn [sums clients]; intros Hrx.
  - done.
  - unfold agg_on_update. destruct (merge _); simpl; [by rewrite chan_send_rx|done].
  - done.
  - simpl. rewrite n_active_snoc. simpl. lia.
  - simpl. erewrite n_active_same; [done|exact Hf|by unfold fwd_active; rewrite Hst].
  - simpl. erewrite <-n_active_end in Hrx; [by rewrite Hrx|exact Hf|by unfold fwd_active; rewrite Hst|done].
  - simpl. erewrite n_active_same; [done|exact Hf|by unfold fwd_active; rewrite Hst].
  - simpl. erewrite <-n_active_end in Hrx; [by rewrite Hrx|exact Hf|by unfold fwd_active; rewrite Hst|done].
  - simpl. erewrite n_active_same; [done|exact Hf|done].
  - simpl. erewrite n_active_same; [done|exact Hf|done].
Qed.

Lemma rx_inv_init : rx_inv system_init.
Proof. done. Qed.

(** C22: In every reachable state the summary channel has a receiver (the one
    the service keeps and never reads), so the aggregator's
    [tx.send(summary)] always succeeds: the ["Connection dropped"] branch of
    [main.rs] is unreachable. *)
Theorem summary_send_never_fails `{!HashMapIter, !SortUnstable} s sm :
  rtc step system_init s → (Chan.send (sums s) sm).2 = Some (Chan.rx_cnt (sums s)).
Proof.
  intros Hr. assert (rx_inv s) as Hrx.
  { eapply rtc_invariant; [|exact Hr|apply rx_inv_init]. apply rx_inv_step. }
  unfold Chan.send. rewrite decide_False; [done|]. unfold rx_inv in Hrx. lia.
Qed.

(** ** What each client receives *)

Definition pending (f : Forwarder) : list Summary :=
  match fwd_status f with FwdSending v => [v] | _ => [] end.

(** A forwarder subscribed at [fwd_start]: everything it has taken from the
    channel (delivered to the client, queued, or being sent) is a
    subsequence of the summaries published since then, and its queue holds at
    most 16 summaries. *)
Definition fwd_ok (c : Chan.t Summary) (f : Forwarder) : Prop :=
  fwd_start f ≤ fwd_next f ≤ Chan.tail c ∧
  fwd_delivered f ++ fwd_queue f ++ pending f `sublist_of`
    take (fwd_next f - fwd_start f) (drop (fwd_start f) (Chan.log c)) ∧
  length (fwd_queue f) ≤ response_capacity.

Definition clients_inv (s : System) : Prop := Forall (fwd_ok (sums s)) (clients s).

Lemma fwd_ok_grow c c' f :
  (Chan.log c' = Chan.log c ∨ ∃ x, Chan.log c' = Chan.log c ++ [x]) → fwd_ok c f → fwd_ok c' f.
Proof.
  intros Hc (Hn & Hsub & Hq). unfold fwd_ok, Chan.tail in *.
  destruct Hc as [->|[x ->]]; [done|]. rewrite length_app. split_and!; [lia|lia| |done].
  rewrite drop_app_le, take_app_le by (rewrite ?length_drop; lia). done.
Qed.

Lemma sublist_drop_middle {A} (l1 l2 l3 : list A) : l1 ++ l3 `sublist_of` l1 ++ l2 ++ l3.
Proof. apply sublist_app; [done|]. by apply sublist_inserts_l. Qed.

Lemma try_recv_next_ge {A} (c : Chan.t A) n : n ≤ (Chan.try_recv c n).1.
Proof.
  unfold Chan.try_recv. repeat case_decide; simpl; try lia.
  destruct (Chan.log c !! n); simpl; lia.
Qed.

Lemma clients_inv_same s s' :
  clients s' = clients s →
  (Chan.log (sums s') = Chan.log (sums s) ∨ ∃ x, Chan.log (sums s') = Chan.log (sums s) ++ [x]) →
  clients_inv s → clients_inv s'.
Proof.
  intros Hc Hl Hs. unfold clients_inv. rewrite Hc. eapply Forall_impl; [exact Hs|].
  intros f. by apply fwd_ok_grow.
Qed.

Lemma clients_inv_set c (l : list Forwarder) i f f' :
  Forall (fwd_ok c) l → l !! i = Some f → (fwd_ok c f → fwd_ok c f') →
  Forall (fwd_ok c) (<[i := f']> l).
Proof.
  intros Hl Hi Himp. apply Forall_insert; [done|]. apply Himp. by eapply Forall_lookup_1.
Qed.

Lemma clients_inv_step `{!HashMapIter, !SortUnstable} s s' : step s s' → clients_inv s → clients_inv s'.
Proof.
  intros [a Hstep]. destruct Hstep as [s ob Hob|s n' ob Hrs Hr|s n' e Hrs Hr|s|s i f n' v Hf Hst Hr|s i f n' e Hf Hst Hr
                |s i f v Hf Hst Hal Hq|s i f v Hf Hst Hal|s i f v q Hf Hq Hal|s i f Hf]; intros Hs.
  - apply (clients_inv_same s); [done|by left|done].
  - unfold agg_on_update. destruct (merge _) as [t|m]; apply (clients_inv_same s); try done; [|by left].
    destruct (chan_send_log (sums s) (summary_from t)); naive_solver.
  - apply (clients_inv_same s); [done|by left|done].
  - unfold clients_inv; simpl. apply Forall_app; split; [done|]. constructor; [|done].
    unfold fwd_ok, pending, Chan.tail, Chan.subscribe; simpl. rewrite Nat.sub_diag. split_and!; [lia|lia| |simpl; lia].
    apply sublist_nil_l.
  - unfold clients_inv; simpl. eapply clients_inv_set; [done|exact Hf|].
    apply try_recv_ok in Hr as (-> & Hv & _). apply lookup_lt_Some in Hv as Hlt.
    intros (Hn & Hsub & Hql). unfold fwd_ok, pending, Chan.tail in *; simpl. rewrite Hst in Hsub.
    split_and!; [lia|lia| |done].
    replace (S (fwd_next f) - fwd_start f) with (S (fwd_next f - fwd_start f)) by lia.
    rewrite (take_S_r _ _ v).
    + rewrite app_nil_r in Hsub. rewrite app_assoc. by apply sublist_app.
    + rewrite lookup_drop. by replace (fwd_start f + (fwd_next f - fwd_start f)) with (fwd_next f) by lia.
  - unfold clients_inv; simpl. eapply clients_inv_set; [done|exact Hf|].
    intros (Hn & Hsub & Hql). pose proof (try_recv_next_ge (sums s) (fwd_next f)) as Hge.
    pose proof (try_recv_next_le (sums s) (fwd_next f)) as Hle. rewrite Hr in Hge, Hle.
    unfold fwd_ok, pending, Chan.tail, Chan.drop_rx in *; simpl in *. rewrite Hst in Hsub.
    specialize (Hle ltac:(lia)). split_and!; [lia|lia| |done]. etrans; [exact Hsub|]. apply sublist_take_le. lia.
  - unfold clients_inv; simpl. eapply clients_inv_set; [done|exact Hf|].
    intros (Hn & Hsub & Hql). unfold fwd_ok, pending, response_capacity in *; simpl. rewrite Hst in Hsub.
    rewrite length_app. simpl. split_and!; [lia|lia| |lia]. by rewrite app_nil_r.
  - unfold clients_inv; simpl. eapply clients_inv_set; [done|exact Hf|].
    intros (Hn & Hsub & Hql). unfold fwd_ok, pending in *; simpl. rewrite Hst in Hsub.
    split_and!; [lia|lia| |done]. etrans; [|exact Hsub]. rewrite app_nil_r, app_assoc.
    apply sublist_inserts_r. done.
  - unfold clients_inv; simpl. eapply clients_inv_set; [done|exact Hf|].
    intros (Hn & Hsub & Hql). unfold fwd_ok, pending in *; simpl. rewrite Hq in Hsub, Hql.
    simpl in Hql. split_and!; [lia|lia| |lia]. by rewrite <-app_assoc.
  - unfold clients_inv; simpl. eapply clients_inv_set; [done|exact Hf|].
    intros (Hn & Hsub & Hql). unfold fwd_ok, pending in *; simpl.
    split_and!; [lia|lia| |simpl; lia]. etrans; [|exact Hsub]. apply sublist_drop_middle.
Qed.

Lemma clients_inv_init : clients_inv system_init.
Proof. constructor. Qed.

Lemma reachable_clients_inv `{!HashMapIter, !SortUnstable} s : rtc step system_init s → clients_inv s.
Proof. intros Hr. eapply rtc_invariant; [|exact Hr|apply clients_inv_init]. apply clients_inv_step. Qed.

(** What a client has received was published on the summary channel. *)
Lemma delivered_published `{!HashMapIter, !SortUnstable} s i f sm :
  rtc step system_init s → clients s !! i = Some f → sm ∈ fwd_delivered f → sm ∈ Chan.log (sums s).
Proof.
  intros Hr Hf Hin. destruct (Forall_lookup_1 _ _ _ _ (reachable_clients_inv s Hr) Hf) as (_ & Hsub & _).
  eapply elem_of_sublist; [|etrans; [apply sublist_take|apply sublist_drop]].
  eapply elem_of_sublist; [|exact Hsub]. set_solver.
Qed.

(** C10: Each client's stream holds only summaries published after it
    subscribed ([fwd_start] is the number of summaries the channel had
    received at that moment, taken from the channel's log and not from what
    [subscribe()] returns), in publication order and each at most once, and its response queue never
    holds more than 16 summaries. *)
Theorem client_no_replay `{!HashMapIter, !SortUnstable} s i f :
  rtc step system_init s → clients s !! i = Some f →
  fwd_delivered f `sublist_of` drop (fwd_start f) (Chan.log (sums s)) ∧
  length (fwd_queue f) ≤ response_capacity.
Proof.
  intros Hr Hf. pose proof (reachable_clients_inv s Hr) as Hc.
  destruct (Forall_lookup_1 _ _ _ _ Hc Hf) as (_ & Hsub & Hq). split; [|done].
  etrans; [|apply sublist_take]. etrans; [|exact Hsub]. apply sublist_inserts_r. done.
Qed.

(** ** Tasks that end stay ended *)

Lemma step_agg_stopped `{!HashMapIter, !SortUnstable} s s' :
  step s s' → agg_status s ≠ AggRunning →
  agg_status s' = agg_status s ∧ Chan.log (sums s') = Chan.log (sums s).
Proof. intros [a Hstep]. destruct Hstep; simpl; intros Hst; try congruence; done. Qed.

(** Once the aggregation loop has ended (its [recv()] returned an error,
    e.g. [Lagged] after more than 16 unread snapshots, or [merge] panicked)
    it never runs again and no summary is ever published afterwards, whatever
    the connectors and clients do. *)
Theorem aggregator_end_is_final `{!HashMapIter, !SortUnstable} s s' :
  rtc step s s' → agg_status s ≠ AggRunning →
  agg_status s' = agg_status s ∧ Chan.log (sums s') = Chan.log (sums s).
Proof.
  induction 1 as [x|x y z Hxy Hyz IH]; intros Hst; [done|].
  destruct (step_agg_stopped x y Hxy Hst) as [H1 H2].
  destruct IH as [H3 H4]; [by rewrite H1|]. split; congruence.
Qed.

(** A forwarder is cut off when it has ended, or when it waits in
    [watcher.recv()] more than the channel's capacity behind its tail, so
    that its next [recv] returns [Lagged]. *)
Definition cut_off (c : Chan.t Summary) (f : Forwarder) : Prop :=
  fwd_status f = FwdDone ∨ (fwd_status f = FwdWaiting ∧ fwd_next f + Chan.cap c < Chan.tail c).

Lemma cut_off_grow c c' f :
  Chan.cap c' = Chan.cap c → Chan.tail c ≤ Chan.tail c' → cut_off c f → cut_off c' f.
Proof. unfold cut_off. intros Hc Ht [?|[? ?]]; [by left|right; split; [done|lia]]. Qed.

Lemma send_cap_tail {A} (c : Chan.t A) v :
  Chan.cap (Chan.send c v).1 = Chan.cap c ∧ Chan.tail c ≤ Chan.tail (Chan.send c v).1.
Proof. unfold Chan.send, Chan.tail. case_decide; simpl; rewrite ?length_app; simpl; split; lia. Qed.

Lemma step_cut_off `{!HashMapIter, !SortUnstable} s s' i f :
  step s s' → clients s !! i = Some f → cut_off (sums s) f →
  ∃ f', clients s' !! i = Some f' ∧ cut_off (sums s') f' ∧
        fwd_delivered f' ++ fwd_queue f' `sublist_of` fwd_delivered f ++ fwd_queue f.
Proof.
  intros [a Hstep]. destruct Hstep as [s ob Hob|s n' ob Hrs Hr|s n' e Hrs Hr|s|s j g n' v Hg Hst Hr|s j g n' e Hg Hst Hr
                |s j g v Hg Hst Hal Hq|s j g v Hg Hst Hal|s j g v q Hg Hq Hal|s j g Hg Hal]; intros Hf Hcut;
    unfold set_client, end_client; simpl.
  { by exists f. }
  { unfold agg_on_update. destruct (merge _) as [t|]; simpl; exists f; split_and!; try done.
    destruct (send_cap_tail (sums s) (summary_from t)). by apply (cut_off_grow (sums s)). }
  { by exists f. }
  { exists f. split_and!; [by rewrite lookup_app_l; [|apply lookup_lt_Some in Hf]|done|done]. }
  all: destruct (decide (i = j)) as [->|Hne];
    [rewrite Hf in Hg; injection Hg as <-;
     rewrite ?list_lookup_insert_eq by (by apply lookup_lt_Some in Hf)|
     exists f; rewrite list_lookup_insert_ne by done; done].
  - destruct Hcut as [?|[_ Hlag]]; [congruence|]. apply try_recv_ok in Hr as (_ & _ & Hle). lia.
  - eexists. split_and!; [done|by left|done].
  - destruct Hcut as [?|[? _]]; congruence.
  - destruct Hcut as [?|[? _]]; congruence.
  - eexists. split_and!; [done|done|]. simpl. rewrite Hq, <-app_assoc. done.
  - eexists. split_and!; [done|done|]. simpl. rewrite app_nil_r. apply sublist_inserts_r. done.
Qed.

(** C19: A client that falls behind is cut off for good: once its forwarding
    task waits more than the channel's capacity (16) behind the summaries
    published, [watcher.recv()] returns [Lagged] and the [while let Ok(..)]
    loop ends, so in every later state the task is waiting or ended and the
    client gets nothing but what was already delivered or queued; a slow
    subscriber is cut off rather than skipping ahead. *)
Theorem lagging_forwarder_cut_off `{!HashMapIter, !SortUnstable} s s' i f :
  rtc step s s' → clients s !! i = Some f → cut_off (sums s) f →
  ∃ f', clients s' !! i = Some f' ∧ (fwd_status f' = FwdWaiting ∨ fwd_status f' = FwdDone) ∧
        fwd_delivered f' `sublist_of` fwd_delivered f ++ fwd_queue f.
Proof.
  intros Hr. revert f. induction Hr as [x|x y z Hxy Hyz IH]; intros f Hf Hcut.
  { exists f. split_and!; [done|destruct Hcut as [?|[? _]]; auto|by apply sublist_inserts_r]. }
  destruct (step_cut_off x y i f Hxy Hf Hcut) as (g & Hg & Hgc & Hsub).
  destruct (IH g Hg Hgc) as (h & Hh & Hhs & Hsub'). exists h. split_and!; [done|done|].
  by etrans.
Qed.

(** ** The aggregation loop can die of a burst *)

Definition sums_init : Chan.t Summary := (Chan.channel channel_capacity).1.

Definition burst_state (obs : list OrderBook) : System :=
  mkSystem (Chan.mk channel_capacity obs 1 false) 0 AggRunning storage_new sums_init [].

Lemma burst_reachable `{!HashMapIter, !SortUnstable} obs :
  Forall orderbook_wf obs → rtc step system_init (burst_state obs).
Proof.
  induction obs as [|ob obs IH] using rev_ind; intros Hwf; [apply rtc_refl|].
  apply Forall_app in Hwf as [Hwf Hob]. apply Forall_inv in Hob.
  eapply rtc_r; [by apply IH|].
  assert (burst_state (obs ++ [ob]) =
          mkSystem (Chan.send (upd (burst_state obs)) ob).1 0 AggRunning storage_new sums_init []) as -> by done.
  by eexists; apply step_connector_send.
Qed.


(** ** From the connectors to the storage *)

Section end_to_end.
Context `{!HashMapIter, !SortUnstable}.

Lemma task_emitted_stamped prof t ses : Forall (λ ob, exchange ob = t.1) (task_emitted prof t ses).
Proof. destruct t as [[] inst]; [apply consume_binance_stamped|apply consume_bitstamp_stamped]. Qed.

(** C3: End to end: take the tasks [Subscriptions::init] spawns for a
    subscription listing each exchange once; when the snapshots the
    aggregation loop has read are a shuffle of what these tasks emitted, its
    storage holds, for each listed exchange, the last book that exchange's
    connector emitted (or nothing if it emitted none). *)
Theorem end_to_end_latest_book prof sub sessions s k ex ses :
  rtc step system_init s → agg_status s = AggRunning → NoDup (sub_exchanges sub) →
  shuffle (zip_with (task_emitted prof) (subscriptions_init sub).2 sessions)
          (take (agg_next s) (Chan.log (upd s))) →
  sub_exchanges sub !! k = Some ex → sessions !! k = Some ses →
  storage_get (storage s) ex = last (task_emitted prof (ex, sub_instrument sub) ses).
Proof.
  intros Hr Hrun Hnd Hsh Hex Hses. destruct (agg_inv_reachable s Hr) as (_ & _ & _ & Hst).
  rewrite (Hst Hrun), store_all_get. unfold last_from.
  erewrite (shuffle_filter _ _ _ k (task_emitted prof (ex, sub_instrument sub) ses)); [|exact Hsh| | |].
  - destruct (last _); [done|reflexivity].
  - rewrite lookup_zip_with. cbn [subscriptions_init Chan.channel snd].
    by rewrite list_lookup_fmap, Hex, Hses.
  - apply (task_emitted_stamped prof (ex, sub_instrument sub) ses).
  - intros j ys Hj. rewrite lookup_zip_with. cbn [subscriptions_init Chan.channel snd].
    rewrite list_lookup_fmap. destruct (sub_exchanges sub !! j) as [ex'|] eqn:Hex'; [|done].
    destruct (sessions !! j) as [ses'|]; [|done]. intros [= <-].
    eapply Forall_impl; [apply (task_emitted_stamped prof (ex', sub_instrument sub) ses')|].
    intros ob Hob Heq. simpl in Hob. rewrite Heq in Hob. subst ex'.
    apply Hj. by eapply NoDup_lookup.
Qed.

End end_to_end.

(** ** Without new input the pipeline drains

    Steps other than a connector sending a snapshot and a new client
    subscribing are the work of the pipeline itself: the aggregation loop
    reading, the forwarding tasks reading and pushing, the clients reading or
    going away.  [drain_measure] counts, with weights, the work left: each
    snapshot the aggregator has not read (it may publish one summary, worth
    at most 4 to each forwarder), each summary a forwarder has not read or
    holds, each queued summary and each connected client. *)

Definition internal_actor (a : Actor) : bool :=
  match a with ByConnector | BySubscriber => false | _ => true end.

Definition internal_step `{!HashMapIter, !SortUnstable} (s s' : System) : Prop :=
  ∃ a, internal_actor a = true ∧ lstep a s s'.

Definition fwd_weight (T : nat) (f : Forwarder) : nat :=
  match fwd_status f with
  | FwdWaiting => 4 * (T - fwd_next f) + 1
  | FwdSending _ => 4 * (T - fwd_next f) + 3
  | FwdDone => 0
  end + length (fwd_queue f) + (if fwd_client_alive f then 1 else 0).

Definition agg_weight (s : System) : nat :=
  match agg_status s with AggRunning => S (Chan.tail (upd s) - agg_next s) | _ => 0 end.

Definition drain_measure (s : System) : nat :=
  (4 * length (clients s) + 1) * agg_weight s + sum_list_with (fwd_weight (Chan.tail (sums s))) (clients s).

Lemma sum_list_with_insert_lt {A} (g : A → nat) l i x y :
  l !! i = Some x → g y < g x → sum_list_with g (<[i := y]> l) < sum_list_with g l.
Proof.
  revert i. induction l as [|z l IH]; intros [|i] Hi Hlt; simpl in *; try done.
  - injection Hi as ->. lia.
  - specialize (IH i Hi Hlt). lia.
Qed.

Lemma sum_list_with_shift {A} (g1 g2 : A → nat) k l :
  (∀ x, g1 x ≤ g2 x + k) → sum_list_with g1 l ≤ sum_list_with g2 l + k * length l.
Proof. intros Hg. induction l as [|x l IH]; simpl; [lia|]. specialize (Hg x). lia. Qed.

Lemma fwd_weight_shift T T' f : T ≤ T' ≤ S T → fwd_weight T' f ≤ fwd_weight T f + 4.
Proof. intros HT. unfold fwd_weight. destruct (fwd_status f); lia. Qed.

Lemma chan_send_tail {A} (c : Chan.t A) v :
  Chan.tail c ≤ Chan.tail (Chan.send c v).1 ≤ S (Chan.tail c).
Proof. unfold Chan.tail. destruct (chan_send_log c v) as [->| ->]; rewrite ?length_app; simpl; lia. Qed.

(** A step of client [i] or of its forwarder lowers that client's weight and
    leaves the rest alone. *)
Lemma client_step_measure s i f f' :
  clients s !! i = Some f → fwd_weight (Chan.tail (sums s)) f' < fwd_weight (Chan.tail (sums s)) f →
  drain_measure (set_client s i f') < drain_measure s ∧ drain_measure (end_client s i f') < drain_measure s.
Proof.
  intros Hf Hlt. unfold drain_measure, set_client, end_client, agg_weight, Chan.drop_rx, Chan.tail; simpl.
  rewrite length_insert. pose proof (sum_list_with_insert_lt _ _ i f f' Hf Hlt). unfold Chan.tail in *. lia.
Qed.

Lemma internal_step_measure `{!HashMapIter, !SortUnstable} s s' :
  internal_step s s' → drain_measure s' < drain_measure s.
Proof.
  intros (a & Ha & Hstep).
  destruct Hstep as [s ob Hob|s n' ob Hrs Hr|s n' e Hrs Hr|s|s i f n' v Hf Hst Hr|s i f n' e Hf Hst Hr
                    |s i f v Hf Hst Hal Hq|s i f v Hf Hst Hal|s i f v q Hf Hq Hal|s i f Hf Hal];
    try discriminate Ha.
  - apply try_recv_ok in Hr as (-> & Hv & _). apply lookup_lt_Some in Hv.
    unfold agg_on_update, drain_measure, agg_weight in *. rewrite Hrs.
    assert (Chan.tail (upd s) - agg_next s = S (Chan.tail (upd s) - S (agg_next s))) as ->
      by (unfold Chan.tail; lia).
    destruct (merge _) as [t|m]; cbn [agg_status clients sums upd agg_next].
    + pose proof (sum_list_with_shift (fwd_weight (Chan.tail (Chan.send (sums s) (summary_from t)).1))
                    (fwd_weight (Chan.tail (sums s))) 4 (clients s)
                    (λ f, fwd_weight_shift _ _ f (chan_send_tail (sums s) (summary_from t)))).
      generalize (Chan.tail (upd s) - S (agg_next s)). intros x.
      pose proof (Nat.le_0_l (length (clients s) * x)). lia.
    + generalize (Chan.tail (upd s) - S (agg_next s)). intros x.
      pose proof (Nat.le_0_l (length (clients s) * x)). lia.
  - unfold drain_measure, agg_weight. rewrite Hrs. cbn [agg_status clients sums].
    generalize (Chan.tail (upd s) - agg_next s). intros x.
    pose proof (Nat.le_0_l (length (clients s) * x)). lia.
  - apply try_recv_ok in Hr as (-> & Hv & _). apply lookup_lt_Some in Hv.
    apply (client_step_measure s i f); [done|]. unfold fwd_weight; rewrite Hst; simpl. unfold Chan.tail in *. lia.
  - apply (client_step_measure s i f); [done|]. unfold fwd_weight; rewrite Hst; simpl. lia.
  - apply (client_step_measure s i f); [done|]. unfold fwd_weight; rewrite Hst, Hal; simpl.
    rewrite length_app; simpl. lia.
  - apply (client_step_measure s i f); [done|]. unfold fwd_weight; rewrite Hst, Hal; simpl. lia.
  - apply (client_step_measure s i f); [done|]. unfold fwd_weight; rewrite Hq, Hal; simpl. lia.
  - apply (client_step_measure s i f); [done|]. unfold fwd_weight; rewrite Hal; simpl. lia.
Qed.

(** C20: Termination: without new snapshots from the connectors and without new
    clients, the aggregation loop, the forwarding tasks and the clients can
    take at most [drain_measure s] steps from any state [s]: the pipeline
    drains and never loops. *)
Theorem pipeline_drains `{!HashMapIter, !SortUnstable} s s' n :
  nsteps internal_step n s s' → n ≤ drain_measure s.
Proof.
  induction 1 as [s|n s1 s2 s3 H12 _ IH]; [lia|].
  pose proof (internal_step_measure s1 s2 H12). lia.
Qed.

(** ** Witnesses: runs of the system *)

(** A burst of one snapshot, read by the aggregation loop. *)
Definition read_one_state (ob : OrderBook) : System :=
  let s := burst_state [ob] in
  let '(st', sc', as') := agg_on_update (storage s) (sums s) ob in
  mkSystem (upd s) 1 as' st' sc' (clients s).

Lemma read_one_reachable ob :
  orderbook_wf ob → rtc step system_init (read_one_state ob).
Proof.
  intros Hwf. apply (rtc_r _ (burst_state [ob])).
  - by apply burst_reachable, Forall_singleton.
  - unfold read_one_state. by eexists; apply (step_agg_recv (burst_state [ob]) 1 ob).
Qed.

Definition one_read_state : System := read_one_state scenario_A.

Lemma one_read_reachable : rtc step system_init one_read_state.
Proof. apply read_one_reachable. apply (bool_decide_unpack _); vm_compute; reflexivity. Qed.

Definition subscribed_state : System :=
  mkSystem (upd one_read_state) (agg_next one_read_state) (agg_status one_read_state)
    (storage one_read_state) (Chan.subscribe (sums one_read_state)).1
    [mkForwarder (Chan.subscribe (sums one_read_state)).2 FwdWaiting [] true []
       (Chan.subscribe (sums one_read_state)).2].

Lemma subscribed_reachable : rtc step system_init subscribed_state.
Proof. eapply rtc_r; [apply one_read_reachable|]. eexists; apply (step_subscribe one_read_state). Qed.

Definition scenario_A_summary : Summary :=
  summary_from (f64_sub (f64_of_Z 101) (f64_of_Z 100),
                [mkLevel "Binance" (f64_of_Z 100) (f64_of_Z 2)],
                [mkLevel "Binance" (f64_of_Z 101) (f64_of_Z 1)]).

Lemma aggregator_storage_last_write_wins_witness :
  storage_get (storage one_read_state) Binance =
  last_from Binance (take (agg_next one_read_state) (Chan.log (upd one_read_state))).
Proof.
  apply aggregator_storage_last_write_wins; [apply one_read_reachable|vm_compute; reflexivity].
Defined.

Lemma published_summaries_wellformed_witness :
  length (summary_bids scenario_A_summary) ≤ 10 ∧ length (summary_asks scenario_A_summary) ≤ 10 ∧
  Sorted bid_before (summary_bids scenario_A_summary) ∧ Sorted ask_before (summary_asks scenario_A_summary) ∧
  ∃ bb ba, summary_bids scenario_A_summary !! 0%nat = Some bb ∧
           summary_asks scenario_A_summary !! 0%nat = Some ba ∧
           spread scenario_A_summary = f64_sub (level_price ba) (level_price bb).
Proof.
  apply (published_summaries_wellformed one_read_state); [apply one_read_reachable|].
  replace (Chan.log (sums one_read_state)) with [scenario_A_summary] by (vm_compute; reflexivity).
  by apply list_elem_of_singleton.
Defined.

Lemma summary_send_never_fails_witness :
  (Chan.send (sums one_read_state) scenario_A_summary).2 = Some (Chan.rx_cnt (sums one_read_state)).
Proof. apply summary_send_never_fails. apply one_read_reachable. Defined.

Lemma client_no_replay_witness :
  [] `sublist_of` drop 1 (Chan.log (sums subscribed_state)) ∧ length (@nil Summary) ≤ response_capacity.
Proof.
  apply (client_no_replay subscribed_state 0 (mkForwarder 1 FwdWaiting [] true [] 1)).
  - apply subscribed_reachable.
  - vm_compute. reflexivity.
Defined.

Definition stopped_state : System :=
  mkSystem (Chan.channel channel_capacity).1 0 AggStopped storage_new sums_init [].

Lemma aggregator_end_is_final_witness :
  agg_status (mkSystem (Chan.send (upd stopped_state) scenario_A).1 0 AggStopped storage_new sums_init [])
    = agg_status stopped_state ∧
  Chan.log (sums (mkSystem (Chan.send (upd stopped_state) scenario_A).1 0 AggStopped storage_new sums_init []))
    = Chan.log (sums stopped_state).
Proof.
  apply aggregator_end_is_final; [|done].
  apply rtc_once. eexists; apply (step_connector_send stopped_state scenario_A).
  apply (bool_decide_unpack _). vm_compute. reflexivity.
Defined.

Definition lagging_client : Forwarder := mkForwarder 0 FwdWaiting [] true [] 0.
Definition lagging_state : System :=
  mkSystem (Chan.channel channel_capacity).1 0 AggRunning storage_new
    (Chan.mk channel_capacity (repeat scenario_A_summary 17) 2 false) [lagging_client].

Lemma lagging_forwarder_cut_off_witness :
  cut_off (sums lagging_state) lagging_client ∧
  ∃ f', clients lagging_state !! 0%nat = Some f' ∧ (fwd_status f' = FwdWaiting ∨ fwd_status f' = FwdDone) ∧
        fwd_delivered f' `sublist_of` fwd_delivered lagging_client ++ fwd_queue lagging_client.
Proof.
  assert (cut_off (sums lagging_state) lagging_client) as Hc by (right; split; [done|vm_compute; lia]).
  split; [exact Hc|]. by apply (lagging_forwarder_cut_off lagging_state lagging_state 0 lagging_client);
    [apply rtc_refl| |].
Defined.



(** A Binance session delivering one depth message, read by the aggregator. *)
Definition e2e_sessions : list Session := [mkSession true [EvOk (MText (json_print binance_msg))]].
Definition e2e_book : OrderBook :=
  hd OrderBook_default (emitted (consume_binance Release btc_usd e2e_sessions).1).

Lemma end_to_end_latest_book_witness :
  storage_get (storage (read_one_state e2e_book)) Binance =
    last (task_emitted Release (Binance, sub_instrument (main_subscriptions "btc" "usd")) e2e_sessions).
Proof.
  apply (end_to_end_latest_book Release (main_subscriptions "btc" "usd") [e2e_sessions; []] _ 0).
  - apply read_one_reachable. apply (bool_decide_unpack _). vm_compute. reflexivity.
  - vm_compute. reflexivity.
  - apply (bool_decide_unpack _). vm_compute. reflexivity.
  - vm_compute. eapply (shuffle_pick _ 0); [reflexivity|]. apply shuffle_nil. repeat constructor.
  - reflexivity.
  - reflexivity.
Defined.

Lemma pipeline_drains_witness :
  1 ≤ drain_measure (burst_state [scenario_A]).
Proof.
  apply (pipeline_drains (burst_state [scenario_A]) (read_one_state scenario_A) 1).
  apply nsteps_once. exists ByAggregator. split; [done|].
  unfold read_one_state. by apply (step_agg_recv (burst_state [scenario_A]) 1 scenario_A).
Defined.
