(* ===== verification/Schedule.v ===== *)
(** * Schedule: a fair run of the pipeline's own tasks, and what it delivers

    [Server] bounds every run of the internal actions ([internal_step]: the
    aggregation loop, the forwarding tasks, the clients reading) by
    [drain_measure].  This file shows the other half: the tasks can always
    make progress until everything is delivered.  [sched_step] picks one
    enabled internal action (a client reads its queue first, then its
    forwarder pushes, notices the client is gone or receives; the aggregation
    loop reads only when no client-side task can move), and [sched_run]
    repeats it for a given fuel.  With [drain_measure s + 1] fuel the run
    stops in a state where no such action is enabled, and in that state the
    aggregator has read every snapshot sent and every connected client whose
    forwarder still runs has received every summary published since it
    subscribed ([pipeline_delivers]).  Clients never disconnect in this run:
    a client that stays connected gets everything. *)

From stdpp Require Import base numbers list relations.
From S2P Require Import Prelude Model Storage Aggregator Broadcast Server.

(** ** A forwarder that still runs for a connected client lost nothing

    While its client is connected and its task has not ended, a forwarder
    has taken every summary from its start position on: the delivered
    summaries, the queue and the one being sent are exactly that slice of the
    log ([client_no_replay] only gives a subsequence, which is all that holds
    once the forwarder has lagged and ended). *)

Definition fwd_exact (log : list Summary) (f : Forwarder) : Prop :=
  fwd_status f ≠ FwdDone → fwd_client_alive f = true →
  fwd_delivered f ++ fwd_queue f ++ pending f = take (fwd_next f - fwd_start f) (drop (fwd_start f) log).

Definition exact_inv (s : System) : Prop := Forall (fwd_exact (Chan.log (sums s))) (clients s).

Lemma Forall_insert_lookup {A} (P : A → Prop) (l : list A) i x y :
  Forall P l → l !! i = Some x → (P x → P y) → Forall P (<[i := y]> l).
Proof. intros Hl Hi Himp. apply Forall_insert; [done|]. apply Himp. by eapply Forall_lookup_1. Qed.

Lemma fwd_exact_grow log x f :
  fwd_start f ≤ fwd_next f ≤ length log → fwd_exact log f → fwd_exact (log ++ [x]) f.
Proof.
  intros Hn Hf Hst Hal. rewrite (Hf Hst Hal).
  rewrite drop_app_le, take_app_le by (rewrite ?length_drop; lia). done.
Qed.

Lemma exact_inv_grow s c' :
  clients_inv s → (Chan.log c' = Chan.log (sums s) ∨ ∃ x, Chan.log c' = Chan.log (sums s) ++ [x]) →
  exact_inv s → Forall (fwd_exact (Chan.log c')) (clients s).
Proof.
  intros Hc [->|[x ->]] He; [done|]. apply Forall_forall. intros f Hin.
  apply fwd_exact_grow; [|by eapply Forall_forall].
  destruct (proj1 (Forall_forall _ _) Hc f Hin) as (Hn & _). unfold Chan.tail in Hn. lia.
Qed.

Section exact.
Context `{!HashMapIter, !SortUnstable}.

Lemma exact_inv_step s s' : step s s' → clients_inv s → exact_inv s → exact_inv s'.
Proof.
  intros [a Hstep] Hc. destruct Hstep as [s ob Hob|s n' ob Hrs Hr|s n' e Hrs Hr|s|s i f n' v Hf Hst Hr
                |s i f n' e Hf Hst Hr|s i f v Hf Hst Hal Hq|s i f v Hf Hst Hal|s i f v q Hf Hq Hal|s i f Hf];
    intros He; unfold exact_inv in *; cbn [clients sums set_client end_client Chan.drop_rx Chan.subscribe Chan.log] in *.
  - done.
  - unfold agg_on_update. destruct (merge _) as [t|m]; cbn [clients sums]; [|done].
    apply (exact_inv_grow s); [done| |done]. destruct (chan_send_log (sums s) (summary_from t)); naive_solver.
  - done.
  - apply Forall_app; split; [done|]. constructor; [|done]. intros _ _. by rewrite Nat.sub_diag.
  - apply (Forall_insert_lookup _ _ i f); [done|done|]. intros Hx _ Hal.
    destruct (Forall_lookup_1 _ _ _ _ Hc Hf) as (Hn & _).
    apply try_recv_ok in Hr as (-> & Hv & _). unfold fwd_exact, pending in *; cbn [fwd_status fwd_delivered fwd_queue fwd_next fwd_start fwd_client_alive] in *.
    rewrite Hst in Hx. specialize (Hx ltac:(done) Hal).
    replace (S (fwd_next f) - fwd_start f) with (S (fwd_next f - fwd_start f)) by lia.
    rewrite (take_S_r _ _ v), <-Hx.
    + by rewrite !app_nil_r, app_assoc.
    + rewrite lookup_drop. by replace (fwd_start f + (fwd_next f - fwd_start f)) with (fwd_next f) by lia.
  - apply (Forall_insert_lookup _ _ i f); [done|done|]. by intros _ ?.
  - apply (Forall_insert_lookup _ _ i f); [done|done|]. intros Hx _ _.
    unfold fwd_exact, pending in *; cbn [fwd_status fwd_delivered fwd_queue fwd_next fwd_start] in *. rewrite Hst in Hx.
    rewrite <-Hx by done. by rewrite app_nil_r.
  - apply (Forall_insert_lookup _ _ i f); [done|done|]. by intros _ _ ?.
  - apply (Forall_insert_lookup _ _ i f); [done|done|]. intros Hx Hs _.
    unfold fwd_exact, pending in *; cbn [fwd_status fwd_delivered fwd_queue fwd_next fwd_start] in *. rewrite Hq in Hx.
    rewrite <-Hx by done. by rewrite <-app_assoc.
  - apply (Forall_insert_lookup _ _ i f); [done|done|]. by intros _ _ ?.
Qed.

Lemma reachable_exact_inv s : rtc step system_init s → exact_inv s.
Proof.
  intros Hr. cut (clients_inv s ∧ exact_inv s); [tauto|].
  apply (rtc_invariant step (λ x, clients_inv x ∧ exact_inv x) system_init s); [|done|split; constructor].
  intros x y Hxy [Hc He]. split; [by apply (clients_inv_step x)|by apply (exact_inv_step x)].
Qed.
End exact.

(** ** The schedule *)

Section schedule.
Context `{!HashMapIter, !SortUnstable}.

(** The move of the forwarding task [f] of client [i], if one is enabled:
    push the summary it holds ([response_tx.send], when the queue has room),
    end because the client is gone, or receive from the summary channel. *)
Definition fwd_move (s : System) (i : nat) (f : Forwarder) : option System :=
  match fwd_status f with
  | FwdWaiting =>
      match Chan.try_recv (sums s) (fwd_next f) with
      | (n', RecvOk v) => Some (set_client s i (mkForwarder n' (FwdSending v) (fwd_queue f)
                                 (fwd_client_alive f) (fwd_delivered f) (fwd_start f)))
      | (n', RecvErr e) => Some (end_client s i (mkForwarder n' FwdDone (fwd_queue f)
                                  (fwd_client_alive f) (fwd_delivered f) (fwd_start f)))
      | (_, RecvEmpty) => None
      end
  | FwdSending v =>
      if fwd_client_alive f then
        if decide (length (fwd_queue f) < response_capacity) then
          Some (set_client s i (mkForwarder (fwd_next f) FwdWaiting (fwd_queue f ++ [v]) true
                                  (fwd_delivered f) (fwd_start f)))
        else None
      else Some (end_client s i (mkForwarder (fwd_next f) FwdDone (fwd_queue f) false
                                   (fwd_delivered f) (fwd_start f)))
  | FwdDone => None
  end.

(** The move of client [i] or of its forwarder: a connected client reads the
    head of its queue first. *)
Definition task_move (s : System) (i : nat) (f : Forwarder) : option System :=
  match fwd_queue f, fwd_client_alive f with
  | v :: q, true =>
      Some (set_client s i (mkForwarder (fwd_next f) (fwd_status f) q true (fwd_delivered f ++ [v]) (fwd_start f)))
  | _, _ => fwd_move s i f
  end.

(** The first client-side task, from index [i] on, that can move. *)
Fixpoint tasks_move (s : System) (i : nat) (l : list Forwarder) : option System :=
  match l with
  | [] => None
  | f :: l => match task_move s i f with Some s' => Some s' | None => tasks_move s (S i) l end
  end.

(** One iteration of the aggregation loop, if a snapshot or an error is
    ready. *)
Definition agg_move (s : System) : option System :=
  match agg_status s with
  | AggRunning =>
      match Chan.try_recv (upd s) (agg_next s) with
      | (n', RecvOk ob) => Some (let '(st', sc', as') := agg_on_update (storage s) (sums s) ob in
                                 mkSystem (upd s) n' as' st' sc' (clients s))
      | (n', RecvErr e) => Some (mkSystem (Chan.drop_rx (upd s)) n' AggStopped (storage s) (sums s) (clients s))
      | (_, RecvEmpty) => None
      end
  | _ => None
  end.

Definition sched_step (s : System) : option System :=
  match tasks_move s 0 (clients s) with Some s' => Some s' | None => agg_move s end.

Fixpoint sched_run (fuel : nat) (s : System) : System :=
  match fuel with
  | 0 => s
  | S k => match sched_step s with Some s' => sched_run k s' | None => s end
  end.

(** A scheduled move is an internal step of the system. *)
Lemma fwd_move_step s i f s' :
  clients s !! i = Some f → fwd_move s i f = Some s' → lstep (ByForwarder i) s s'.
Proof.
  intros Hf. unfold fwd_move. destruct (fwd_status f) as [|v|] eqn:Hst.
  - destruct (Chan.try_recv (sums s) (fwd_next f)) as [n' [v| |e]] eqn:Hr; intros; simplify_eq;
      [by eapply step_fwd_recv|by eapply step_fwd_recv_err].
  - destruct (fwd_client_alive f) eqn:Hal; [case_decide; [|done]|]; intros; simplify_eq;
      [by eapply step_fwd_push|by eapply step_fwd_push_fail].
  - done.
Qed.

Lemma task_move_step s i f s' :
  clients s !! i = Some f → task_move s i f = Some s' → internal_step s s'.
Proof.
  intros Hf. unfold task_move.
  destruct (fwd_queue f) as [|v q] eqn:Hq; [|destruct (fwd_client_alive f) eqn:Hal];
    try (intros; exists (ByForwarder i); split; [done|by eapply fwd_move_step]).
  intros [= <-]. exists (ByClient i). split; [done|by eapply step_client_read].
Qed.
Lemma tasks_move_step s i l s' :
  (∀ j f, l !! j = Some f → clients s !! (i + j) = Some f) →
  tasks_move s i l = Some s' → internal_step s s'.
Proof.
  revert i. induction l as [|f l IH]; intros i Hl; simpl; [done|].
  destruct (task_move s i f) eqn:Hm; [intros [= <-]|].
  - apply (task_move_step s i f); [|done]. rewrite <-(Nat.add_0_r i). by apply (Hl 0).
  - apply IH. intros j g Hj. replace (S i + j) with (i + S j) by lia. by apply (Hl (S j)).
Qed.

Lemma agg_move_step s s' : agg_move s = Some s' → lstep ByAggregator s s'.
Proof.
  unfold agg_move. destruct (agg_status s) eqn:Hs; [|done|done].
  destruct (Chan.try_recv (upd s) (agg_next s)) as [n' [ob| |e]] eqn:Hr; intros; simplify_eq;
    [by apply step_agg_recv|by eapply step_agg_recv_err].
Qed.

Lemma sched_step_step s s' : sched_step s = Some s' → internal_step s s'.
Proof.
  unfold sched_step. destruct (tasks_move s 0 (clients s)) eqn:Ht; [intros [= <-]|].
  - by apply (tasks_move_step s 0 (clients s)).
  - intros Ha. exists ByAggregator. split; [done|by apply agg_move_step].
Qed.

Lemma sched_run_rtc fuel s : rtc internal_step s (sched_run fuel s).
Proof.
  revert s. induction fuel as [|k IH]; intros s; simpl; [done|].
  destruct (sched_step s) eqn:Hs; [|done]. eapply rtc_l; [by apply sched_step_step|apply IH].
Qed.

(** Enough fuel: [drain_measure s + 1] iterations reach a state where no
    scheduled move is enabled. *)
Lemma sched_run_final fuel s : drain_measure s < fuel → sched_step (sched_run fuel s) = None.
Proof.
  revert s. induction fuel as [|k IH]; intros s Hf; simpl; [lia|].
  destruct (sched_step s) as [s'|] eqn:Hs; [|done].
  apply IH. pose proof (internal_step_measure s s' (sched_step_step s s' Hs)). lia.
Qed.
(** ** What the schedule keeps and where it stops *)

(** The schedule neither adds nor removes clients, and never disconnects
    one: every forwarder keeps its start position and its client's state. *)
Definition same_client : relation Forwarder :=
  λ f f', fwd_start f = fwd_start f' ∧ fwd_client_alive f = fwd_client_alive f'.

#[global] Instance same_client_equiv : Equivalence same_client.
Proof.
  split; [intros f; by split|intros f g [??]; by split|intros f g h [??] [??]; split; congruence].
Qed.

Lemma same_client_insert (l : list Forwarder) i f f' :
  l !! i = Some f → same_client f f' → Forall2 same_client l (<[i := f']> l).
Proof.
  intros Hi Hs. rewrite <-(list_insert_id l i f) at 1 by done. by apply Forall2_insert.
Qed.

Lemma task_move_keeps s i f s' :
  clients s !! i = Some f → task_move s i f = Some s' → Forall2 same_client (clients s) (clients s').
Proof.
  intros Hf. unfold task_move, fwd_move.
  repeat case_match; intros; simplify_eq; apply (same_client_insert _ i f); try done;
    split; simpl; congruence.
Qed.

Lemma tasks_move_keeps s i l s' :
  (∀ j f, l !! j = Some f → clients s !! (i + j) = Some f) →
  tasks_move s i l = Some s' → Forall2 same_client (clients s) (clients s').
Proof.
  revert i. induction l as [|f l IH]; intros i Hl; simpl; [done|].
  destruct (task_move s i f) eqn:Hm; [intros [= <-]|].
  - apply (task_move_keeps s i f); [|done]. rewrite <-(Nat.add_0_r i). by apply (Hl 0).
  - apply IH. intros j g Hj. replace (S i + j) with (i + S j) by lia. by apply (Hl (S j)).
Qed.

Lemma sched_run_keeps fuel s : Forall2 same_client (clients s) (clients (sched_run fuel s)).
Proof.
  revert s. induction fuel as [|k IH]; intros s; simpl; [done|].
  destruct (sched_step s) as [s'|] eqn:Hs; [|done]. etrans; [|apply IH].
  revert Hs. unfold sched_step. destruct (tasks_move s 0 (clients s)) eqn:Ht; [intros [= <-]|].
  - by apply (tasks_move_keeps s 0 (clients s)).
  - unfold agg_move. repeat case_match; intros; simplify_eq; done.
Qed.

Lemma try_recv_empty {A} (c : Chan.t A) n : (Chan.try_recv c n).2 = RecvEmpty → Chan.tail c ≤ n.
Proof.
  unfold Chan.try_recv. repeat case_decide; simpl; try lia; [by destruct (Chan.closed c)|].
  destruct (Chan.log c !! n) eqn:E; [done|]. apply lookup_ge_None in E. unfold Chan.tail in *. lia.
Qed.

Lemma tasks_move_none s i l :
  tasks_move s i l = None → ∀ j f, l !! j = Some f → task_move s (i + j) f = None.
Proof.
  revert i. induction l as [|g l IH]; intros i; simpl; [done|].
  destruct (task_move s i g) eqn:Hm; [done|]. intros Hl [|j] f Hj; simplify_eq/=.
  - by rewrite Nat.add_0_r.
  - replace (i + S j) with (S i + j) by lia. by apply IH.
Qed.

(** Where nothing can move, a connected client's queue is empty and its
    forwarder has ended or waits on an empty channel. *)
Lemma task_move_none s i f :
  task_move s i f = None → fwd_client_alive f = true →
  fwd_queue f = [] ∧ (fwd_status f = FwdDone ∨ fwd_status f = FwdWaiting ∧ Chan.tail (sums s) ≤ fwd_next f).
Proof.
  intros Hm Hal. unfold task_move, fwd_move in Hm. rewrite Hal in Hm.
  destruct (fwd_queue f) as [|v q] eqn:Hq; [|done]. split; [done|].
  destruct (fwd_status f) as [|v|]; [right|..|by left].
  - destruct (Chan.try_recv (sums s) (fwd_next f)) as [n' [v| |e]] eqn:Hr; try done.
    split; [done|]. apply try_recv_empty. by rewrite Hr.
  - case_decide; [done|]. unfold response_capacity in *. simpl in *. lia.
Qed.

Lemma agg_move_none s :
  agg_move s = None → agg_status s = AggRunning → Chan.tail (upd s) ≤ agg_next s.
Proof.
  unfold agg_move. intros Hm Hs. rewrite Hs in Hm. apply try_recv_empty.
  by destruct (Chan.try_recv (upd s) (agg_next s)) as [n' [| |]].
Qed.
End schedule.

(** ** Eventual delivery *)

Section delivery.
Context `{!HashMapIter, !SortUnstable}.

Lemma internal_rtc_step s s' : rtc internal_step s s' → rtc step s s'.
Proof. induction 1 as [|x y z [a [_ Ha]] _ IH]; [done|]. eapply rtc_l; [by exists a|done]. Qed.

(** C11: Liveness: from any reachable state, the scheduled run of the
    pipeline's own tasks ([drain_measure s + 1] iterations of [sched_step],
    each an internal step) reaches a state where the aggregation loop, if it
    still runs, has read every snapshot sent, and where every client
    connected in [s] is still connected with an empty queue and, unless its
    forwarding task has ended, has received exactly the summaries published
    since it subscribed. *)
Theorem pipeline_delivers s :
  rtc step system_init s →
  let s' := sched_run (S (drain_measure s)) s in
  rtc internal_step s s' ∧
  (agg_status s' = AggRunning → agg_next s' = Chan.tail (upd s')) ∧
  ∀ i f, clients s !! i = Some f → fwd_client_alive f = true →
    ∃ f', clients s' !! i = Some f' ∧ fwd_start f' = fwd_start f ∧ fwd_client_alive f' = true ∧
      fwd_queue f' = [] ∧ (fwd_status f' = FwdDone ∨ fwd_delivered f' = drop (fwd_start f') (Chan.log (sums s'))).
Proof.
  intros Hr s'. pose proof (sched_run_rtc (S (drain_measure s)) s) as Hrun.
  assert (rtc step system_init s') as Hr' by (etrans; [exact Hr|by apply internal_rtc_step]).
  pose proof (sched_run_final (S (drain_measure s)) s ltac:(lia)) as Hfin. fold s' in Hfin.
  unfold sched_step in Hfin. destruct (tasks_move s' 0 (clients s')) eqn:Ht; [done|].
  split; [done|]. split.
  - intros Hs. apply agg_move_none in Hfin; [|done].
    destruct (agg_inv_reachable s' Hr') as (_ & _ & Hle & _). lia.
  - intros i f Hf Hal. destruct (Forall2_lookup_l _ _ _ _ _ (sched_run_keeps (S (drain_measure s)) s) Hf) as (f' & Hf' & Hst & Hal').
    rewrite Hal in Hal'. symmetry in Hal'. exists f'.
    destruct (task_move_none s' i f' (tasks_move_none s' 0 _ Ht i f' Hf') Hal') as [Hq [Hd|[Hw Hle]]];
      (split_and!; [done|done|done|done|]); [by left|right].
    pose proof (Forall_lookup_1 _ _ _ _ (reachable_exact_inv s' Hr') Hf') as Hx.
    destruct (Forall_lookup_1 _ _ _ _ (reachable_clients_inv s' Hr') Hf') as (Hn & _).
    unfold fwd_exact, pending in Hx. rewrite Hw, Hq, !app_nil_r in Hx.
    rewrite Hx by (by rewrite ?Hw).
    rewrite take_ge; [done|]. rewrite length_drop. unfold Chan.tail in *. lia.
Qed.
End delivery.

(** ** Witness: a client subscribed before the first snapshot *)

Definition delivery_state : System :=
  mkSystem (Chan.mk channel_capacity [scenario_A] 1 false) 0 AggRunning storage_new
    (Chan.subscribe sums_init).1 [mkForwarder 0 FwdWaiting [] true [] 0].

Lemma delivery_reachable : rtc step system_init delivery_state.
Proof.
  set (s1 := mkSystem (upd system_init) (agg_next system_init) (agg_status system_init) (storage system_init)
               (Chan.subscribe (sums system_init)).1
               (clients system_init ++ [mkForwarder (Chan.subscribe (sums system_init)).2 FwdWaiting [] true []
                                          (Chan.subscribe (sums system_init)).2])).
  apply (rtc_l _ _ s1); [eexists; apply step_subscribe|].
  assert (delivery_state = mkSystem (Chan.send (upd s1) scenario_A).1 (agg_next s1) (agg_status s1)
                             (storage s1) (sums s1) (clients s1)) as -> by reflexivity.
  apply rtc_once. eexists. apply step_connector_send.
  apply (bool_decide_unpack _); vm_compute; reflexivity.
Qed.

Lemma pipeline_delivers_witness :
  fwd_delivered <$> clients (sched_run (S (drain_measure delivery_state)) delivery_state) = [[scenario_A_summary]] ∧
  rtc internal_step delivery_state (sched_run (S (drain_measure delivery_state)) delivery_state).
Proof.
  split; [vm_compute; reflexivity|].
  exact (proj1 (pipeline_delivers delivery_state delivery_reachable)).
Defined.
