(* ===== verification/Client.v ===== *)
(** * Client: the terminal client [client/src/bin/tui_client.rs] and the
    debug client [client/src/bin/debug_client.rs]

    The client subscribes with [book_summary] and renders every summary it
    receives on 21 progress bars: 10 for the asks, one for the spread, 10 for
    the bids.  For each summary it sets the spread bar, computes the largest
    bid and ask amounts with [max_by(|a, b| a.partial_cmp(b).unwrap())], then
    updates ask bar [i] with the [i]-th ask from the end
    ([ob.asks.iter().rev().enumerate()]) and bid bar [i] with the [i]-th bid,
    indexing the bar vectors with [pb_asks[i]] and [pb_bids[i]].

    A bar is a record of what [indicatif] stores: length, position, prefix
    and message.  The messages are [format!("{:.8}", ..)] renderings of
    [f64] values; the decimal rendering is not modelled, a message keeps the
    values it shows.  The stream is a list of [StreamItem]s: [tui_stream]
    and [debug_run] return on the first [Err(status)] as [summary?] does, and
    on a stream of summaries only [tui_stream] is [tui_run], which renders the
    summaries the forwarding task delivered ([Server.fwd_delivered]).  The
    debug client logs each summary it receives.

    Theorems: which bar shows which level after an update, bars beyond the
    summary's depth keep what they showed before, the client renders every
    summary the server delivers (at most 10 levels per side, by the merge)
    unless an amount is NaN, which panics [partial_cmp(..).unwrap()]. *)

From stdpp Require Import base numbers list strings relations.
From Stdlib Require Import ZArith.
From S2P Require Import Prelude F64 Model Storage Aggregator Broadcast Decode Connector Server.

Local Open Scope Z_scope.

Inductive Msg := MsgEmpty | MsgSpread (x : f64) | MsgLevel (price amount : f64).

Record Bar := mkBar { bar_length : Z; bar_position : Z; bar_prefix : string; bar_message : Msg }.

(** [ProgressBar::new(len)]. *)
Definition bar_new (len : Z) : Bar := mkBar len 0 "" MsgEmpty.

Record Tui := mkTui { tui_spread : Bar; tui_asks : list Bar; tui_bids : list Bar }.

(** The bars [main] creates before reading the stream. *)
Definition tui_init : Tui :=
  mkTui (mkBar 100 0 "Spread  " MsgEmpty) (repeat (bar_new 100) 10) (repeat (bar_new 100) 10).

(** [UpdateLevel::update_level] on a [ProgressBar]. *)
Definition update_level (max_len : option f64) (level : Level) (b : Bar) : Bar :=
  let b := match max_len with
           | Some len =>
               mkBar 100 (f64_as_u64 (f64_mul (f64_div (level_amount level) len) f64_hundred))
                 (bar_prefix b) (bar_message b)
           | None => b
           end in
  let prefix := if decide (level_exchange level = "Binance") then "Binance "
                else if decide (level_exchange level = "Bitstamp") then "Bitstamp"
                else bar_prefix b in
  mkBar (bar_length b) (bar_position b) prefix (MsgLevel (level_price level) (level_amount level)).

(** [Iterator::max_by] with [|a, b| a.partial_cmp(b).unwrap()]: the running
    maximum is replaced unless it compares greater. *)
Fixpoint max_by_go (acc : f64) (l : list f64) : outcome f64 :=
  match l with
  | [] => Ret acc
  | y :: l' =>
      c ← expect (f64_partial_cmp acc y) unwrap_none_msg;
      max_by_go (match c with Gt => acc | _ => y end) l'
  end.

Definition max_by_amount (l : list f64) : outcome (option f64) :=
  match l with
  | [] => Ret None
  | x :: l' => m ← max_by_go x l'; Ret (Some m)
  end.

(** [levels.enumerate().for_each(|(i, level)| bars[i].update_level(..))],
    starting at index [i]. *)
Fixpoint update_bars (max_len : option f64) (bars : list Bar) (i : nat) (levels : list Level)
  : outcome (list Bar) :=
  match levels with
  | [] => Ret bars
  | l :: ls =>
      b ← vec_index bars i;
      update_bars max_len (<[i := update_level max_len l b]> bars) (S i) ls
  end.

(** The body of the [while let Some(summary) = stream.next().await] loop. *)
Definition tui_update (t : Tui) (ob : Summary) : outcome Tui :=
  let sp := mkBar (bar_length (tui_spread t)) 0 (bar_prefix (tui_spread t)) (MsgSpread (spread ob)) in
  bid_max_len ← max_by_amount (level_amount <$> summary_bids ob);
  ask_max_len ← max_by_amount (level_amount <$> summary_asks ob);
  asks ← update_bars ask_max_len (tui_asks t) 0 (reverse (summary_asks ob));
  bids ← update_bars bid_max_len (tui_bids t) 0 (summary_bids ob);
  Ret (mkTui sp asks bids).

Fixpoint tui_run (t : Tui) (items : list Summary) : outcome Tui :=
  match items with
  | [] => Ret t
  | ob :: rest => t' ← tui_update t ob; tui_run t' rest
  end.

(** ** Updating a run of bars *)

Lemma update_bars_ok m bars i levels :
  (i + length levels ≤ length bars)%nat →
  ∃ bars', update_bars m bars i levels = Ret bars' ∧ length bars' = length bars ∧
    (∀ j, (j < i ∨ i + length levels ≤ j)%nat → bars' !! j = bars !! j) ∧
    (∀ k l b, levels !! k = Some l → bars !! (i + k)%nat = Some b →
              bars' !! (i + k)%nat = Some (update_level m l b)).
Proof.
  revert bars i. induction levels as [|l ls IH]; intros bars i Hlen; simpl in *.
  { exists bars. split_and!; [done|done|done|]. intros k ? ? Hk. by rewrite lookup_nil in Hk. }
  destruct (lookup_lt_is_Some_2 bars i ltac:(lia)) as [b Hb].
  unfold vec_index. rewrite Hb. simpl.
  destruct (IH (<[i := update_level m l b]> bars) (S i)) as (bars' & Hr & Hl & Hout & Hin);
    [rewrite length_insert; lia|].
  exists bars'. rewrite length_insert in Hl. split_and!; [done|done| |].
  - intros j Hj. rewrite Hout by lia. rewrite list_lookup_insert_ne by lia. done.
  - intros [|k] l' b' Hk Hb'.
    + injection Hk as <-. rewrite Nat.add_0_r in Hb' |- *. rewrite Hb in Hb'. injection Hb' as <-.
      rewrite Hout by lia. apply list_lookup_insert_eq. by apply lookup_lt_Some in Hb.
    + replace (i + S k)%nat with (S i + k)%nat by lia. apply (Hin k); [done|].
      rewrite list_lookup_insert_ne by lia. by replace (S i + k)%nat with (i + S k)%nat by lia.
Qed.

Lemma update_bars_panic m bars i levels :
  (i ≤ length bars < i + length levels)%nat → update_bars m bars i levels = Panic "index out of bounds".
Proof.
  revert bars i. induction levels as [|l ls IH]; intros bars i Hlen; simpl in *; [lia|].
  unfold vec_index. destruct (bars !! i) as [b|] eqn:Hb; simpl; [|done].
  apply IH. rewrite length_insert. apply lookup_lt_Some in Hb. lia.
Qed.

(** What a successful update of bars [0 ..] did. *)
Lemma update_bars_Ret m bars levels bars' :
  update_bars m bars 0 levels = Ret bars' →
  (length levels ≤ length bars)%nat ∧
  (∀ k l, levels !! k = Some l → ∃ b, bars !! k = Some b ∧ bars' !! k = Some (update_level m l b)) ∧
  (∀ j, (length levels ≤ j)%nat → bars' !! j = bars !! j) ∧ length bars' = length bars.
Proof.
  intros Hr. destruct (decide (length levels ≤ length bars)%nat) as [Hle|Hgt].
  - destruct (update_bars_ok m bars 0 levels Hle) as (bars'' & Hr' & Hl & Hout & Hin).
    rewrite Hr in Hr'. injection Hr' as <-. split_and!; [done| | |done].
    + intros k l Hk. destruct (lookup_lt_is_Some_2 bars k) as [b Hb].
      { apply lookup_lt_Some in Hk. lia. }
      exists b. split; [done|]. by apply (Hin k l b).
    + intros j Hj. apply Hout. lia.
  - rewrite update_bars_panic in Hr by lia. discriminate.
Qed.

(** ** [max_by] *)

Definition not_nan (x : f64) : Prop := f64_is_nan x = false.

Lemma max_by_go_ok acc l :
  not_nan acc → Forall not_nan l → ∃ r, max_by_go acc l = Ret r.
Proof.
  revert acc. induction l as [|y l IH]; intros acc Hacc Hl; cbn [max_by_go]; [by eexists|].
  apply Forall_cons in Hl as [Hy Hl].
  destruct (f64_partial_cmp_some acc y Hacc Hy) as [c ->]. cbn [expect mbind outcome_bind].
  apply IH; [|done]. by destruct c.
Qed.

Lemma max_by_amount_ok l : Forall not_nan l → ∃ r, max_by_amount l = Ret r.
Proof.
  destruct l as [|x l]; cbn [max_by_amount]; [by eexists|]. intros [Hx Hl]%Forall_cons.
  destruct (max_by_go_ok x l Hx Hl) as [r ->]. by eexists.
Qed.

(** ** One update *)

Lemma tui_update_Ret t ob t' :
  tui_update t ob = Ret t' →
  ∃ am bm, update_bars am (tui_asks t) 0 (reverse (summary_asks ob)) = Ret (tui_asks t') ∧
           update_bars bm (tui_bids t) 0 (summary_bids ob) = Ret (tui_bids t') ∧
           bar_message (tui_spread t') = MsgSpread (spread ob).
Proof.
  unfold tui_update.
  destruct (max_by_amount (level_amount <$> summary_bids ob)) as [bm|]; cbn [mbind outcome_bind]; [|done].
  destruct (max_by_amount (level_amount <$> summary_asks ob)) as [am|]; cbn [mbind outcome_bind]; [|done].
  destruct (update_bars am _ 0 _) as [asks|] eqn:Ha; cbn [mbind outcome_bind]; [|done].
  destruct (update_bars bm _ 0 _) as [bids|] eqn:Hb; cbn [mbind outcome_bind]; [|done].
  intros [= <-]. by exists am, bm.
Qed.

(** C17: After rendering a summary, ask bar [i] shows the [i]-th ask from the
    end and bid bar [i] the [i]-th bid, so the best ask sits on bar [n - 1]
    for [n] asks; bars beyond the summary's depth keep what they showed for
    an earlier summary (they are never cleared), and the spread bar shows the
    spread. *)
Theorem tui_update_levels t ob t' :
  tui_update t ob = Ret t' →
  (∀ i l, reverse (summary_asks ob) !! i = Some l →
     bar_message <$> tui_asks t' !! i = Some (MsgLevel (level_price l) (level_amount l))) ∧
  (∀ i, (length (summary_asks ob) ≤ i)%nat → tui_asks t' !! i = tui_asks t !! i) ∧
  (∀ i l, summary_bids ob !! i = Some l →
     bar_message <$> tui_bids t' !! i = Some (MsgLevel (level_price l) (level_amount l))) ∧
  (∀ i, (length (summary_bids ob) ≤ i)%nat → tui_bids t' !! i = tui_bids t !! i) ∧
  bar_message (tui_spread t') = MsgSpread (spread ob).
Proof.
  intros (am & bm & Ha & Hb & Hsp)%tui_update_Ret.
  destruct (update_bars_Ret _ _ _ _ Ha) as (_ & Hain & Haout & _).
  destruct (update_bars_Ret _ _ _ _ Hb) as (_ & Hbin & Hbout & _).
  rewrite length_reverse in Haout. split_and!; [|done| |done|done].
  - intros i l Hl. destruct (Hain i l Hl) as (b & _ & ->). done.
  - intros i l Hl. destruct (Hbin i l Hl) as (b & _ & ->). done.
Qed.

(** The number of bars stays 10 and every summary of at most 10 levels a
    side without NaN amounts is rendered. *)
Definition summary_ok (ob : Summary) : Prop :=
  (length (summary_bids ob) ≤ 10)%nat ∧ (length (summary_asks ob) ≤ 10)%nat ∧
  Forall not_nan (level_amount <$> summary_bids ob) ∧ Forall not_nan (level_amount <$> summary_asks ob).

Definition tui_shape (t : Tui) : Prop := length (tui_asks t) = 10%nat ∧ length (tui_bids t) = 10%nat.

Lemma tui_update_ok t ob :
  tui_shape t → summary_ok ob → ∃ t', tui_update t ob = Ret t' ∧ tui_shape t'.
Proof.
  intros [Hta Htb] (Hb & Ha & Hnb & Hna). unfold tui_update.
  destruct (max_by_amount_ok _ Hnb) as [bm ->]. destruct (max_by_amount_ok _ Hna) as [am ->].
  cbn [mbind outcome_bind].
  destruct (update_bars_ok am (tui_asks t) 0 (reverse (summary_asks ob))) as (asks & -> & Hla & _);
    [rewrite length_reverse; lia|].
  destruct (update_bars_ok bm (tui_bids t) 0 (summary_bids ob)) as (bids & -> & Hlb & _); [lia|].
  eexists. split; [done|]. split; simpl; lia.
Qed.

Lemma tui_run_ok t items :
  tui_shape t → Forall summary_ok items → ∃ t', tui_run t items = Ret t'.
Proof.
  revert t. induction items as [|ob items IH]; intros t Ht Hall; cbn [tui_run]; [by eexists|].
  apply Forall_cons in Hall as [Hob Hall].
  destruct (tui_update_ok t ob Ht Hob) as (t' & -> & Ht'). cbn [mbind outcome_bind]. by apply IH.
Qed.

(** ** The client on the server's stream *)

Definition amounts_not_nan (ob : Summary) : Prop :=
  Forall not_nan (level_amount <$> summary_bids ob) ∧ Forall not_nan (level_amount <$> summary_asks ob).

(** C16: Composition with the server: in every reachable state, the terminal
    client renders all summaries its forwarding task has delivered without
    panicking, provided no amount in them is NaN: the merge publishes at
    most 10 levels per side, so [pb_asks[i]] and [pb_bids[i]] stay within the
    10 bars, and [partial_cmp] only fails on NaN. *)
Theorem tui_renders_delivered `{!HashMapIter, !SortUnstable} s i f :
  rtc step system_init s → clients s !! i = Some f → Forall amounts_not_nan (fwd_delivered f) →
  ∃ t, tui_run tui_init (fwd_delivered f) = Ret t.
Proof.
  intros Hr Hf Hnan. apply tui_run_ok; [split; reflexivity|].
  apply Forall_forall. intros ob Hin.
  destruct (proj1 (Forall_forall _ _) Hnan ob Hin) as [Hnb Hna].
  destruct (published_is_merge s ob Hr (delivered_published s i f ob Hr Hf Hin))
    as (st & [[sp b] a] & _ & Hm & ->).
  destruct (merge_ok_depth _ _ _ _ Hm) as [Hb Ha]. unfold depth in *.
  unfold summary_ok. cbn [summary_from summary_bids summary_asks] in *. split_and!; [lia|lia|done|done].
Qed.

(** ** When [max_by] panics

    [max_by(|a, b| a.partial_cmp(b).unwrap())] compares the running maximum
    with each next amount; [partial_cmp] is [None] as soon as one of the two
    is NaN. *)

Definition is_nan (x : f64) : Prop := f64_is_nan x = true.

(** A side makes [max_by] panic: it has two amounts or more, one of them NaN. *)
Definition nan_side (l : list f64) : Prop := (2 ≤ length l)%nat ∧ Exists is_nan l.

Lemma max_by_go_cases acc l : (∃ r, max_by_go acc l = Ret r) ∨ max_by_go acc l = Panic unwrap_none_msg.
Proof.
  revert acc. induction l as [|y l IH]; intros acc; cbn [max_by_go]; [by left; eexists|].
  destruct (f64_partial_cmp acc y); cbn [expect mbind outcome_bind]; [apply IH|by right].
Qed.

Lemma max_by_go_panic acc l :
  max_by_go acc l = Panic unwrap_none_msg ↔ l ≠ [] ∧ (is_nan acc ∨ Exists is_nan l).
Proof.
  unfold is_nan. revert acc. induction l as [|y l IH]; intros acc; cbn [max_by_go].
  { split; [done|by intros []]. }
  destruct (f64_is_nan acc) eqn:Ha.
  { rewrite f64_partial_cmp_nan_l by done. naive_solver. }
  destruct (f64_is_nan y) eqn:Hy.
  { rewrite f64_partial_cmp_nan_r by done. split; [|done]. intros _. split; [done|]. right. by left. }
  destruct (f64_partial_cmp_some acc y Ha Hy) as [c ->]. cbn [expect mbind outcome_bind].
  rewrite IH, Exists_cons.
  assert (f64_is_nan (match c with Gt => acc | _ => y end) = false) as -> by (by destruct c).
  split.
  - intros [Hl [?|Hl']]; [done|]. naive_solver.
  - intros [_ [?|[?|Hl]]]; try congruence. split; [|by right]. intros ->. by apply Exists_nil in Hl.
Qed.

Lemma max_by_amount_cases l : (∃ r, max_by_amount l = Ret r) ∨ max_by_amount l = Panic unwrap_none_msg.
Proof.
  destruct l as [|x l]; cbn [max_by_amount]; [by left; eexists|].
  destruct (max_by_go_cases x l) as [[r ->]| ->]; [left; by eexists|by right].
Qed.

Lemma max_by_amount_panic l : max_by_amount l = Panic unwrap_none_msg ↔ nan_side l.
Proof.
  unfold nan_side. destruct l as [|x l]; cbn [max_by_amount].
  { split; [done|]. intros [? _]. simpl in *. lia. }
  destruct (max_by_go_cases x l) as [[r Hr]|Hr].
  - rewrite Hr. cbn [mbind outcome_bind]. split; [done|]. intros [Hl Hn].
    destruct l as [|y l]; [simpl in Hl; lia|].
    assert (max_by_go x (y :: l) = Panic unwrap_none_msg) as Hp
      by (apply max_by_go_panic; split; [done|by apply Exists_cons in Hn]).
    congruence.
  - rewrite Hr. split; [|done]. intros _. apply max_by_go_panic in Hr as [Hl Hn].
    split; [destruct l; [done|simpl; lia]|]. by rewrite Exists_cons.
Qed.

(** C33: Given the shapes a running client has (ten bars a side, at most
    ten levels a side), rendering a summary panics, with [partial_cmp]'s
    [unwrap] on [None], exactly when one side has two levels or more and a
    NaN amount (Rust's [str::parse::<f64>] accepts ["NaN"]): a lone NaN
    level is drawn, two levels with a NaN kill the client. *)
Theorem tui_update_panics_iff t ob :
  tui_shape t → (length (summary_bids ob) ≤ 10)%nat → (length (summary_asks ob) ≤ 10)%nat →
  tui_update t ob = Panic unwrap_none_msg ↔
  nan_side (level_amount <$> summary_bids ob) ∨ nan_side (level_amount <$> summary_asks ob).
Proof.
  intros [Hta Htb] Hb Ha. unfold tui_update. rewrite <-!max_by_amount_panic.
  destruct (max_by_amount_cases (level_amount <$> summary_bids ob)) as [[bm Hbm]|Hbm]; rewrite Hbm;
    cbn [mbind outcome_bind]; [|naive_solver].
  destruct (max_by_amount_cases (level_amount <$> summary_asks ob)) as [[am Ham]|Ham]; rewrite Ham;
    cbn [mbind outcome_bind]; [|naive_solver].
  destruct (update_bars_ok am (tui_asks t) 0 (reverse (summary_asks ob))) as (asks & -> & _);
    [rewrite length_reverse; lia|].
  destruct (update_bars_ok bm (tui_bids t) 0 (summary_bids ob)) as (bids & -> & _); [lia|].
  cbn [mbind outcome_bind]. naive_solver.
Qed.

(** ** The response stream and the debug client

    Both clients read the gRPC response stream with
    [while let Some(summary) = stream.next().await] and unwrap each item with
    [?]: an [Err(status)] item (a transport error) makes [main] return that
    error.  The server's forwarding task only ever sends [Ok(message)]. *)

Inductive StreamItem := ItemOk (s : Summary) | ItemErr (status : string).

(** The loop of [tui_client.rs] over stream items: the terminal after the
    last summary and the error [main] returns, if any. *)
Fixpoint tui_stream (t : Tui) (items : list StreamItem) : outcome (Tui * option string) :=
  match items with
  | [] => Ret (t, None)
  | ItemOk ob :: rest => t' ← tui_update t ob; tui_stream t' rest
  | ItemErr e :: _ => Ret (t, Some e)
  end.

(** [debug_client.rs]: each summary is logged with [info!("{:#?}", summary?)];
    the summaries logged and the error [main] returns, if any. *)
Fixpoint debug_run (items : list StreamItem) : list Summary * option string :=
  match items with
  | [] => ([], None)
  | ItemOk ob :: rest => let '(logged, r) := debug_run rest in (ob :: logged, r)
  | ItemErr e :: _ => ([], Some e)
  end.

(** On a stream of summaries only, the terminal loop is [tui_run]. *)
Lemma tui_stream_ok t l : tui_stream t (ItemOk <$> l) = (t' ← tui_run t l; Ret (t', None)).
Proof.
  revert t. induction l as [|ob l IH]; intros t; simpl; [done|].
  destruct (tui_update t ob); simpl; [apply IH|done].
Qed.

(** The debug client logs every summary before the first error, in order,
    and returns that error. *)
Lemma debug_run_err l e rest : debug_run ((ItemOk <$> l) ++ ItemErr e :: rest) = (l, Some e).
Proof. induction l as [|ob l IH]; [done|]. rewrite fmap_cons, <-app_comm_cons. cbn [debug_run]. by rewrite IH. Qed.

Lemma debug_run_ok l : debug_run (ItemOk <$> l) = (l, None).
Proof. induction l as [|ob l IH]; [done|]. rewrite fmap_cons. cbn [debug_run]. by rewrite IH. Qed.

(** Composed with the server: the debug client of client [i] logs only
    summaries the aggregator published, and ends without error. *)
Lemma debug_logs_published `{!HashMapIter, !SortUnstable} s i f :
  rtc step system_init s → clients s !! i = Some f →
  (debug_run (ItemOk <$> fwd_delivered f)).2 = None ∧
  ∀ sm, sm ∈ (debug_run (ItemOk <$> fwd_delivered f)).1 → sm ∈ Chan.log (sums s).
Proof.
  intros Hr Hf. rewrite debug_run_ok. split; [done|]. intros sm. by apply (delivered_published s i f).
Qed.

Lemma tui_renders_delivered_witness :
  ∃ t, tui_run tui_init (fwd_delivered (mkForwarder (Chan.subscribe (sums one_read_state)).2 FwdWaiting [] true []
                                           (Chan.subscribe (sums one_read_state)).2)) = Ret t.
Proof.
  apply (tui_renders_delivered subscribed_state 0). 
  - apply subscribed_reachable.
  - reflexivity.
  - constructor.
Defined.

(** The terminal after the first summary of the specification's scenario. *)
Definition demo_tui : Tui :=
  match tui_update tui_init scenario_A_summary with Ret t => t | Panic _ => tui_init end.

Lemma tui_update_levels_witness :
  (∀ i l, reverse (summary_asks scenario_A_summary) !! i = Some l →
     bar_message <$> tui_asks demo_tui !! i = Some (MsgLevel (level_price l) (level_amount l))) ∧
  (∀ i, (length (summary_asks scenario_A_summary) ≤ i)%nat → tui_asks demo_tui !! i = tui_asks tui_init !! i) ∧
  (∀ i l, summary_bids scenario_A_summary !! i = Some l →
     bar_message <$> tui_bids demo_tui !! i = Some (MsgLevel (level_price l) (level_amount l))) ∧
  (∀ i, (length (summary_bids scenario_A_summary) ≤ i)%nat → tui_bids demo_tui !! i = tui_bids tui_init !! i) ∧
  bar_message (tui_spread demo_tui) = MsgSpread (spread scenario_A_summary).
Proof. apply tui_update_levels. vm_compute. reflexivity. Defined.

Definition nan_summary : Summary :=
  mkSummary f64_hundred [mkLevel "Binance" f64_hundred f64_hundred; mkLevel "Bitstamp" f64_hundred canonical_nan] [].

Lemma tui_update_panics_iff_witness : tui_update tui_init nan_summary = Panic unwrap_none_msg.
Proof.
  apply (tui_update_panics_iff tui_init nan_summary).
  - split; reflexivity.
  - simpl; lia.
  - simpl; lia.
  - left. split; [simpl; lia|]. apply Exists_cons. right. apply Exists_cons. left. vm_compute. reflexivity.
Defined.
